(** * Verification of the session tick loop and player lifecycle (game/game.ts)

    The development embeds the [Game] class of [src/game/game.ts]: the
    timer callback installed by the constructor (movement and melee pass,
    broadcast pass, reset of the per-tick buffers) and the lifecycle methods
    [addPlayer], [removePlayer] and [end].

    Conventions of the embedding.
    - [map.objects] is the registry of every game object and doubles as the
      heap: a reference to a game object is its position in that array, which
      this file only ever appends to.  [players], [connectedPlayers],
      [activePlayers] and [dirtyPlayers] hold such references, so a player
      reached through two collections is one shared record.
    - Calls into code outside the file whose effect is not visible here
      ([damage], [interact], [sendPacket], [sendData]) are recorded, in call
      order, in an event log returned next to the new state.  The bodies of
      [Player.damage], [Obstacle.damage] and [Obstacle.interact] are not
      part of the file: the embedding gives these calls no effect on the
      session, so within a tick of the model nothing dies and no entry
      changes except through the writes of the timer callback itself.
      Statements about the state after a damage call are statements about
      those writes only.
    - [Date.now()], the collision test of the physics engine and the probe
      body built for an attacker are inputs of a tick.  Numbers that are
      JavaScript doubles in the source (speeds, penetration depths) are
      rationals; only negation and comparison are ever applied to them. *)

From Stdlib Require Import ZArith QArith Lia Lqa.
From stdpp Require Import base list.

Local Open Scope nat_scope.

(** ** Data model *)

(** Handle on a rigid body owned by the physics engine. *)
Definition Body : Type := nat.

Definition Vec : Type := (Q * Q)%type.

(** Payloads that the tick only forwards. *)
Definition Emote : Type := nat.
Definition Explosion : Type := nat.
Definition KillPacket : Type := nat.

Module Player.

(** The fields of [Player] (and of its base class [GameObject]) that
    [game.ts] reads or writes. *)
Record t : Type := mk {
  id : nat;
  dead : bool;
  body : option Body;
  direction : Vec;
  quit : bool;
  movingUp : bool;
  movingDown : bool;
  movingLeft : bool;
  movingRight : bool;
  moving : bool;
  velocity : Vec;
  shootStart : bool;
  meleeCooldown : Z;
  animActive : bool;
  animType : nat;
  animSeq : nat;
  animTime : nat;
  visibleObjects : list nat;
  fullObjects : list nat;
  partialObjects : list nat;
  skipObjectCalculations : bool;
  emotesDirty : bool;
  emotes : list Emote;
  explosionsDirty : bool;
  explosions : list Explosion
}.

(** Field assignments [p.f = v]. *)
Definition set_direction (v : Vec) (p : t) : t :=
  mk (id p) (dead p) (body p) v (quit p) (movingUp p) (movingDown p)
    (movingLeft p) (movingRight p) (moving p) (velocity p) (shootStart p)
    (meleeCooldown p) (animActive p) (animType p) (animSeq p) (animTime p)
    (visibleObjects p) (fullObjects p) (partialObjects p)
    (skipObjectCalculations p) (emotesDirty p) (emotes p)
    (explosionsDirty p) (explosions p).

Definition set_quit (v : bool) (p : t) : t :=
  mk (id p) (dead p) (body p) (direction p) v (movingUp p) (movingDown p)
    (movingLeft p) (movingRight p) (moving p) (velocity p) (shootStart p)
    (meleeCooldown p) (animActive p) (animType p) (animSeq p) (animTime p)
    (visibleObjects p) (fullObjects p) (partialObjects p)
    (skipObjectCalculations p) (emotesDirty p) (emotes p)
    (explosionsDirty p) (explosions p).

Definition set_moving (v : bool) (p : t) : t :=
  mk (id p) (dead p) (body p) (direction p) (quit p) (movingUp p)
    (movingDown p) (movingLeft p) (movingRight p) v (velocity p)
    (shootStart p) (meleeCooldown p) (animActive p) (animType p) (animSeq p)
    (animTime p) (visibleObjects p) (fullObjects p) (partialObjects p)
    (skipObjectCalculations p) (emotesDirty p) (emotes p)
    (explosionsDirty p) (explosions p).

Definition set_velocity (v : Vec) (p : t) : t :=
  mk (id p) (dead p) (body p) (direction p) (quit p) (movingUp p)
    (movingDown p) (movingLeft p) (movingRight p) (moving p) v
    (shootStart p) (meleeCooldown p) (animActive p) (animType p) (animSeq p)
    (animTime p) (visibleObjects p) (fullObjects p) (partialObjects p)
    (skipObjectCalculations p) (emotesDirty p) (emotes p)
    (explosionsDirty p) (explosions p).

Definition set_shootStart (v : bool) (p : t) : t :=
  mk (id p) (dead p) (body p) (direction p) (quit p) (movingUp p)
    (movingDown p) (movingLeft p) (movingRight p) (moving p) (velocity p) v
    (meleeCooldown p) (animActive p) (animType p) (animSeq p) (animTime p)
    (visibleObjects p) (fullObjects p) (partialObjects p)
    (skipObjectCalculations p) (emotesDirty p) (emotes p)
    (explosionsDirty p) (explosions p).

Definition set_meleeCooldown (v : Z) (p : t) : t :=
  mk (id p) (dead p) (body p) (direction p) (quit p) (movingUp p)
    (movingDown p) (movingLeft p) (movingRight p) (moving p) (velocity p)
    (shootStart p) v (animActive p) (animType p) (animSeq p) (animTime p)
    (visibleObjects p) (fullObjects p) (partialObjects p)
    (skipObjectCalculations p) (emotesDirty p) (emotes p)
    (explosionsDirty p) (explosions p).

Definition set_animActive (v : bool) (p : t) : t :=
  mk (id p) (dead p) (body p) (direction p) (quit p) (movingUp p)
    (movingDown p) (movingLeft p) (movingRight p) (moving p) (velocity p)
    (shootStart p) (meleeCooldown p) v (animType p) (animSeq p) (animTime p)
    (visibleObjects p) (fullObjects p) (partialObjects p)
    (skipObjectCalculations p) (emotesDirty p) (emotes p)
    (explosionsDirty p) (explosions p).

Definition set_animType (v : nat) (p : t) : t :=
  mk (id p) (dead p) (body p) (direction p) (quit p) (movingUp p)
    (movingDown p) (movingLeft p) (movingRight p) (moving p) (velocity p)
    (shootStart p) (meleeCooldown p) (animActive p) v (animSeq p)
    (animTime p) (visibleObjects p) (fullObjects p) (partialObjects p)
    (skipObjectCalculations p) (emotesDirty p) (emotes p)
    (explosionsDirty p) (explosions p).

Definition set_animSeq (v : nat) (p : t) : t :=
  mk (id p) (dead p) (body p) (direction p) (quit p) (movingUp p)
    (movingDown p) (movingLeft p) (movingRight p) (moving p) (velocity p)
    (shootStart p) (meleeCooldown p) (animActive p) (animType p) v
    (animTime p) (visibleObjects p) (fullObjects p) (partialObjects p)
    (skipObjectCalculations p) (emotesDirty p) (emotes p)
    (explosionsDirty p) (explosions p).

Definition set_animTime (v : nat) (p : t) : t :=
  mk (id p) (dead p) (body p) (direction p) (quit p) (movingUp p)
    (movingDown p) (movingLeft p) (movingRight p) (moving p) (velocity p)
    (shootStart p) (meleeCooldown p) (animActive p) (animType p) (animSeq p)
    v (visibleObjects p) (fullObjects p) (partialObjects p)
    (skipObjectCalculations p) (emotesDirty p) (emotes p)
    (explosionsDirty p) (explosions p).

Definition set_fullObjects (v : list nat) (p : t) : t :=
  mk (id p) (dead p) (body p) (direction p) (quit p) (movingUp p)
    (movingDown p) (movingLeft p) (movingRight p) (moving p) (velocity p)
    (shootStart p) (meleeCooldown p) (animActive p) (animType p) (animSeq p)
    (animTime p) (visibleObjects p) v (partialObjects p)
    (skipObjectCalculations p) (emotesDirty p) (emotes p)
    (explosionsDirty p) (explosions p).

Definition set_partialObjects (v : list nat) (p : t) : t :=
  mk (id p) (dead p) (body p) (direction p) (quit p) (movingUp p)
    (movingDown p) (movingLeft p) (movingRight p) (moving p) (velocity p)
    (shootStart p) (meleeCooldown p) (animActive p) (animType p) (animSeq p)
    (animTime p) (visibleObjects p) (fullObjects p) v
    (skipObjectCalculations p) (emotesDirty p) (emotes p)
    (explosionsDirty p) (explosions p).

Definition set_skipObjectCalculations (v : bool) (p : t) : t :=
  mk (id p) (dead p) (body p) (direction p) (quit p) (movingUp p)
    (movingDown p) (movingLeft p) (movingRight p) (moving p) (velocity p)
    (shootStart p) (meleeCooldown p) (animActive p) (animType p) (animSeq p)
    (animTime p) (visibleObjects p) (fullObjects p) (partialObjects p) v
    (emotesDirty p) (emotes p) (explosionsDirty p) (explosions p).

Definition set_emotesDirty (v : bool) (p : t) : t :=
  mk (id p) (dead p) (body p) (direction p) (quit p) (movingUp p)
    (movingDown p) (movingLeft p) (movingRight p) (moving p) (velocity p)
    (shootStart p) (meleeCooldown p) (animActive p) (animType p) (animSeq p)
    (animTime p) (visibleObjects p) (fullObjects p) (partialObjects p)
    (skipObjectCalculations p) v (emotes p) (explosionsDirty p)
    (explosions p).

Definition set_emotes (v : list Emote) (p : t) : t :=
  mk (id p) (dead p) (body p) (direction p) (quit p) (movingUp p)
    (movingDown p) (movingLeft p) (movingRight p) (moving p) (velocity p)
    (shootStart p) (meleeCooldown p) (animActive p) (animType p) (animSeq p)
    (animTime p) (visibleObjects p) (fullObjects p) (partialObjects p)
    (skipObjectCalculations p) (emotesDirty p) v (explosionsDirty p)
    (explosions p).

Definition set_explosionsDirty (v : bool) (p : t) : t :=
  mk (id p) (dead p) (body p) (direction p) (quit p) (movingUp p)
    (movingDown p) (movingLeft p) (movingRight p) (moving p) (velocity p)
    (shootStart p) (meleeCooldown p) (animActive p) (animType p) (animSeq p)
    (animTime p) (visibleObjects p) (fullObjects p) (partialObjects p)
    (skipObjectCalculations p) (emotesDirty p) (emotes p) v (explosions p).

Definition set_explosions (v : list Explosion) (p : t) : t :=
  mk (id p) (dead p) (body p) (direction p) (quit p) (movingUp p)
    (movingDown p) (movingLeft p) (movingRight p) (moving p) (velocity p)
    (shootStart p) (meleeCooldown p) (animActive p) (animType p) (animSeq p)
    (animTime p) (visibleObjects p) (fullObjects p) (partialObjects p)
    (skipObjectCalculations p) (emotesDirty p) (emotes p)
    (explosionsDirty p) v.

(** [new Player(id, ...)]: the constructor is outside this file.  [fresh]
    stands for the object it builds; the registry index becomes the identity
    and [dead] starts [false] (field initialiser of [GameObject]). *)
Definition construct (i : nat) (fresh : t) : t :=
  mk i false (body fresh) (direction fresh) (quit fresh) (movingUp fresh)
    (movingDown fresh) (movingLeft fresh) (movingRight fresh) (moving fresh)
    (velocity fresh) (shootStart fresh) (meleeCooldown fresh)
    (animActive fresh) (animType fresh) (animSeq fresh) (animTime fresh)
    (visibleObjects fresh) (fullObjects fresh) (partialObjects fresh)
    (skipObjectCalculations fresh) (emotesDirty fresh) (emotes fresh)
    (explosionsDirty fresh) (explosions fresh).

End Player.

Module Obstacle.

Record t : Type := mk {
  id : nat;
  dead : bool;
  body : option Body;
  destructible : bool;
  isDoor : bool
}.

End Obstacle.

(** An entry of [map.objects]; the constructor is the run-time class tested
    by [instanceof]. *)
Inductive GameObject : Type :=
  | IsPlayer (p : Player.t)
  | IsObstacle (o : Obstacle.t).

Definition objId (x : GameObject) : nat :=
  match x with IsPlayer p => Player.id p | IsObstacle o => Obstacle.id o end.

Definition objDead (x : GameObject) : bool :=
  match x with IsPlayer p => Player.dead p | IsObstacle o => Obstacle.dead o end.

Definition objBody (x : GameObject) : option Body :=
  match x with IsPlayer p => Player.body p | IsObstacle o => Obstacle.body o end.

(** [(object instanceof Obstacle && object.destructible) || object instanceof Player] *)
Definition damageable (x : GameObject) : bool :=
  match x with IsPlayer _ => true | IsObstacle o => Obstacle.destructible o end.

(** [closestObject instanceof Obstacle && closestObject.isDoor] *)
Definition isDoorObstacle (x : GameObject) : bool :=
  match x with IsPlayer _ => false | IsObstacle o => Obstacle.isDoor o end.

Record Game : Type := mkGame {
  objects : list GameObject;          (* map.objects *)
  players : list nat;
  connectedPlayers : list nat;
  activePlayers : list nat;
  dirtyPlayers : list nat;
  aliveCount : Z;
  aliveCountDirty : bool;
  playerInfosDirty : bool;
  deletedPlayerIds : list nat;
  emotes : list Emote;
  explosions : list Explosion;
  kills : list KillPacket;
  fullDirtyObjects : list nat;
  partialDirtyObjects : list nat
}.

(** [GameOptions] (utils): the two speeds the tick reads. *)
Record GameOptions : Type := mkOptions {
  movementSpeed : Q;
  diagonalSpeed : Q
}.

(** What one tick asks of the physics engine: [probe r] is the circle body
    built in front of attacker [r] ([Bodies.circle] at the rotated weapon
    offset), [collides a b] is [Collision.collides] reduced to the
    penetration depth, [None] when the bodies do not overlap. *)
Record Physics : Type := mkPhysics {
  probe : nat -> Body;
  collides : Body -> Body -> option Q
}.

Inductive Packet : Type :=
  | JoinedPacket
  | MapPacket
  | UpdatePacket (full partial : list nat)
  | AliveCountsPacket (alive : Z)
  | Kill (k : KillPacket).

(** The log records the four calls by which [game.ts] hands a game object
    or a packet to code outside the file.  Calls that are not logged:
    [setVelocity] (modelled as the field write), [Date.now],
    [Collision.collides] and [Bodies.circle] (inputs of a tick, see
    [Physics] and the clock), [Engine.update] (line 85, whose result is the
    [Physics] handed to the tick), the [writeData] calls of [addPlayer]
    (whose payload is the [SendData] event) and the socket and timer calls
    of [end()] (see [Shutdown]). *)
Inductive Event : Type :=
  | Damage (target : nat) (amount : Z) (source : nat)
  | Interact (target source : nat)
  | SendPacket (to : nat) (pk : Packet)
  | SendData (to : nat) (pks : list Packet).

(** ** The resolver pass (first loop of the tick) *)

Definition setVelocity (x y : Q) (p : Player.t) : Player.t :=
  Player.set_velocity (x, y) p.

(** Lines 93-107. *)
Definition movement (opt : GameOptions) (p0 : Player.t) : Player.t :=
  let p := Player.set_moving true p0 in
  let s := movementSpeed opt in
  let ds := diagonalSpeed opt in
  if Player.movingUp p && Player.movingLeft p then setVelocity (- ds) ds p
  else if Player.movingUp p && Player.movingRight p then setVelocity ds ds p
  else if Player.movingDown p && Player.movingLeft p then setVelocity (- ds) (- ds) p
  else if Player.movingDown p && Player.movingRight p then setVelocity ds (- ds) p
  else if Player.movingUp p then setVelocity 0 s p
  else if Player.movingDown p then setVelocity 0 (- s) p
  else if Player.movingLeft p then setVelocity (- s) 0 p
  else if Player.movingRight p then setVelocity s 0 p
  else
    let p := setVelocity 0 0 p in
    let p := if Player.moving p then setVelocity 0 0 p else p in
    Player.set_moving false p.

(** [a > b] on depths. *)
Definition Qgtb (a b : Q) : bool := negb (Qle_bool a b).

(** Lines 130-140: the scan of [map.objects], carrying [maxDepth] and
    [closestObject]; [i] is the registry position of the head of [objs]. *)
Fixpoint scan (ph : Physics) (body : Body) (pid : nat) (i : nat)
    (objs : list GameObject) (maxDepth : Q) (closestObject : option nat)
    : Q * option nat :=
  match objs with
  | [] => (maxDepth, closestObject)
  | object :: rest =>
      match objBody object with
      | None => scan ph body pid (S i) rest maxDepth closestObject
      | Some b =>
          if objDead object || (objId object =? pid)
          then scan ph body pid (S i) rest maxDepth closestObject
          else if damageable object then
            match collides ph body b with
            | Some depth =>
                if Qgtb depth maxDepth
                then scan ph body pid (S i) rest depth (Some i)
                else scan ph body pid (S i) rest maxDepth closestObject
            | None => scan ph body pid (S i) rest maxDepth closestObject
            end
          else scan ph body pid (S i) rest maxDepth closestObject
      end
  end.

(** Lines 141-144.  [closestObject.damage(24, p)] and
    [closestObject.interact(p)] are logged; what they do to the target is
    outside the file and is not modelled. *)
Definition strike (objs : list GameObject) (r : nat)
    (closestObject : option nat) : list Event :=
  match closestObject with
  | Some t =>
      Damage t 24 r ::
      match objs !! t with
      | Some x => if isDoorObstacle x then [Interact t r] else []
      | None => []
      end
  | None => []
  end.

(** Lines 111-160.  [tCheck] is the clock read by the cooldown test,
    [tStamp] the one stored in [meleeCooldown].  The scan never looks at
    the attacker's own entry (same [id]), so it can run on the registry as
    it was when the iteration began. *)
Definition attack (ph : Physics) (tCheck tStamp : Z) (objs : list GameObject)
    (r : nat) (p : Player.t) : Player.t * list Event :=
  if Player.shootStart p then
    let p := Player.set_shootStart false p in
    if (250 <=? tCheck - Player.meleeCooldown p)%Z then
      let p := Player.set_meleeCooldown tStamp p in
      let p :=
        if Player.animActive p then p
        else Player.set_animTime 0 (Player.set_animType 1 (Player.set_animActive true p)) in
      let closestObject := (scan ph (probe ph r) (Player.id p) 0 objs (-1) None).2 in
      (p, strike objs r closestObject)
    else (p, [])
  else (p, []).

(** Lines 162-174, the player's side; the boolean tells the caller which
    session list receives [p.id] ([true]: [fullDirtyObjects]). *)
Definition animate (p : Player.t) : Player.t * bool :=
  if Player.animActive p then
    let p := Player.set_fullObjects (Player.fullObjects p ++ [Player.id p]) p in
    let p := Player.set_animTime (S (Player.animTime p)) p in
    let p := Player.set_animSeq 1 p in
    let p :=
      if 8 <? Player.animTime p
      then Player.set_animTime 0 (Player.set_animSeq 0 (Player.set_animType 0
             (Player.set_animActive false p)))
      else p in
    (p, true)
  else
    (Player.set_partialObjects (Player.partialObjects p ++ [Player.id p]) p, false).

(** The body of the first loop as it acts on the player [p0] it visits:
    the player it leaves, the calls it logs, and whether [p.id] went to the
    full list. *)
Definition playerStep (opt : GameOptions) (ph : Physics) (tCheck tStamp : Z)
    (objs : list GameObject) (r : nat) (p0 : Player.t)
    : Player.t * list Event * bool :=
  let hit := attack ph tCheck tStamp objs r (movement opt p0) in
  let anim := animate hit.1 in
  (anim.1, hit.2, anim.2).

(** One iteration of [for(const p of this.activePlayers)]: [k] counts the
    iterations, [r] is the reference held by the array.  [clock k] gives the
    two readings of [Date.now()] available to the iteration. *)
Definition resolve (opt : GameOptions) (ph : Physics) (clock : nat -> Z * Z)
    (k r : nat) (st : Game * list Event) : Game * list Event :=
  let g := st.1 in
  match objects g !! r with
  | Some (IsPlayer p0) =>
      let '(p, hits, full) :=
        playerStep opt ph (clock k).1 (clock k).2 (objects g) r p0 in
      ({| objects := <[r := IsPlayer p]> (objects g);
          players := players g;
          connectedPlayers := connectedPlayers g;
          activePlayers := activePlayers g;
          dirtyPlayers := dirtyPlayers g;
          aliveCount := aliveCount g;
          aliveCountDirty := aliveCountDirty g;
          playerInfosDirty := playerInfosDirty g;
          deletedPlayerIds := deletedPlayerIds g;
          emotes := emotes g;
          explosions := explosions g;
          kills := kills g;
          fullDirtyObjects :=
            if full then fullDirtyObjects g ++ [Player.id p0]
            else fullDirtyObjects g;
          partialDirtyObjects :=
            if full then partialDirtyObjects g
            else partialDirtyObjects g ++ [Player.id p0] |},
       st.2 ++ hits)
  | _ => st
  end.

Fixpoint resolveAll (opt : GameOptions) (ph : Physics) (clock : nat -> Z * Z)
    (k : nat) (rs : list nat) (st : Game * list Event) : Game * list Event :=
  match rs with
  | [] => st
  | r :: rest => resolveAll opt ph clock (S k) rest (resolve opt ph clock k r st)
  end.

(** The state in which the broadcast pass starts. *)
Definition resolverPass (opt : GameOptions) (ph : Physics)
    (clock : nat -> Z * Z) (g : Game) : Game * list Event :=
  resolveAll opt ph clock 0 (activePlayers g) (g, []).

(** ** The broadcast pass (second loop of the tick) *)

Definition isEmpty {A : Type} (l : list A) : bool :=
  match l with [] => true | _ :: _ => false end.

(** [for(const id of dirty) if(p.visibleObjects.includes(id)) buffer.push(id)] *)
Fixpoint pushVisible (visible dirty buffer : list nat) : list nat :=
  match dirty with
  | [] => buffer
  | i :: rest =>
      pushVisible visible rest
        (if bool_decide (i ∈ visible) then buffer ++ [i] else buffer)
  end.

(** Lines 179-201. *)
Definition finalize (g : Game) (p : Player.t) : Player.t :=
  let p :=
    Player.set_skipObjectCalculations
      (isEmpty (fullDirtyObjects g) && isEmpty (partialDirtyObjects g)
       && negb (Player.moving p)) p in
  let p :=
    if isEmpty (emotes g) then p
    else Player.set_emotes (emotes g) (Player.set_emotesDirty true p) in
  let p :=
    if isEmpty (explosions g) then p
    else Player.set_explosions (explosions g) (Player.set_explosionsDirty true p) in
  let p :=
    if isEmpty (fullDirtyObjects g) then p
    else Player.set_fullObjects
           (pushVisible (Player.visibleObjects p) (fullDirtyObjects g)
              (Player.fullObjects p)) p in
  if isEmpty (partialDirtyObjects g) then p
  else Player.set_partialObjects
         (pushVisible (Player.visibleObjects p) (partialDirtyObjects g)
            (Player.partialObjects p)) p.

(** Lines 203-207. *)
Definition emit (g : Game) (r : nat) (p : Player.t) : list Event :=
  SendPacket r (UpdatePacket (Player.fullObjects p) (Player.partialObjects p))
  :: (if aliveCountDirty g then [SendPacket r (AliveCountsPacket (aliveCount g))]
      else [])
  ++ ((fun k => SendPacket r (Kill k)) <$> kills g).

Definition setObjects (objs : list GameObject) (g : Game) : Game :=
  {| objects := objs;
     players := players g;
     connectedPlayers := connectedPlayers g;
     activePlayers := activePlayers g;
     dirtyPlayers := dirtyPlayers g;
     aliveCount := aliveCount g;
     aliveCountDirty := aliveCountDirty g;
     playerInfosDirty := playerInfosDirty g;
     deletedPlayerIds := deletedPlayerIds g;
     emotes := emotes g;
     explosions := explosions g;
     kills := kills g;
     fullDirtyObjects := fullDirtyObjects g;
     partialDirtyObjects := partialDirtyObjects g |}.

(** One iteration of [for(const p of this.connectedPlayers)]. *)
Definition broadcast (r : nat) (st : Game * list Event) : Game * list Event :=
  let g := st.1 in
  match objects g !! r with
  | Some (IsPlayer p0) =>
      let p := finalize g p0 in
      (setObjects (<[r := IsPlayer p]> (objects g)) g, st.2 ++ emit g r p)
  | _ => st
  end.

Fixpoint broadcastAll (rs : list nat) (st : Game * list Event)
    : Game * list Event :=
  match rs with
  | [] => st
  | r :: rest => broadcastAll rest (broadcast r st)
  end.

Definition broadcastPass (st : Game * list Event) : Game * list Event :=
  broadcastAll (connectedPlayers st.1) st.

(** ** Reset and the whole tick *)

(** Lines 210-218. *)
Definition reset (g : Game) : Game :=
  {| objects := objects g;
     players := players g;
     connectedPlayers := connectedPlayers g;
     activePlayers := activePlayers g;
     dirtyPlayers := [];
     aliveCount := aliveCount g;
     aliveCountDirty := false;
     playerInfosDirty := playerInfosDirty g;
     deletedPlayerIds := [];
     emotes := [];
     explosions := [];
     kills := [];
     fullDirtyObjects := [];
     partialDirtyObjects := [] |}.

(** The timer callback.  [Engine.update] moves the bodies inside the
    physics engine; what the tick sees of it is the [Physics] it is given. *)
Definition tick (opt : GameOptions) (ph : Physics) (clock : nat -> Z * Z)
    (g : Game) : Game * list Event :=
  let st := broadcastPass (resolverPass opt ph clock g) in
  (reset st.1, st.2).

(** ** Session lifecycle *)

(** The session as the constructor leaves it, for a map whose registry
    holds [objs]. *)
Definition newGame (objs : list GameObject) : Game :=
  {| objects := objs;
     players := [];
     connectedPlayers := [];
     activePlayers := [];
     dirtyPlayers := [];
     aliveCount := 0;
     aliveCountDirty := false;
     playerInfosDirty := false;
     deletedPlayerIds := [];
     emotes := [];
     explosions := [];
     kills := [];
     fullDirtyObjects := [];
     partialDirtyObjects := [] |}.

(** Lines 222-247; the result pairs the new session with the log of the
    initial burst.  The reference of the new player is [length (objects g)]. *)
Definition addPlayer (fresh : Player.t) (g : Game) : Game * list Event :=
  let r := length (objects g) in
  let p := Player.construct r fresh in
  let p' := Player.set_fullObjects (Player.fullObjects p ++ [Player.id p]) p in
  ({| objects := objects g ++ [IsPlayer p'];
      players := players g ++ [r];
      connectedPlayers := connectedPlayers g ++ [r];
      activePlayers := activePlayers g ++ [r];
      dirtyPlayers := dirtyPlayers g ++ [r];
      aliveCount := aliveCount g + 1;
      aliveCountDirty := true;
      playerInfosDirty := true;
      deletedPlayerIds := deletedPlayerIds g;
      emotes := emotes g;
      explosions := explosions g;
      kills := kills g;
      fullDirtyObjects := fullDirtyObjects g ++ [Player.id p];
      partialDirtyObjects := partialDirtyObjects g |},
   [SendPacket r JoinedPacket;
    SendData r [MapPacket;
                UpdatePacket (Player.fullObjects p') (Player.partialObjects p');
                AliveCountsPacket (aliveCount g + 1)]]).

(** Modelled from the spec: [removeFrom] of the utils module, which is not
    part of the sources at hand; "removes the player from the active and
    connected collections".  The first occurrence of the reference is taken
    out; an array that does not hold it is left as it is. *)
Fixpoint removeFrom (array : list nat) (r : nat) : list nat :=
  match array with
  | [] => []
  | x :: rest => if x =? r then rest else x :: removeFrom rest r
  end.

(** Lines 249-260.  A reference that is not a player leaves the session
    untouched (the method is only ever handed players). *)
Definition removePlayer (r : nat) (g : Game) : Game :=
  match objects g !! r with
  | Some (IsPlayer p0) =>
      let p := Player.set_quit true (Player.set_direction (1, 0)%Q p0) in
      {| objects := <[r := IsPlayer p]> (objects g);
         players := players g;
         connectedPlayers := removeFrom (connectedPlayers g) r;
         activePlayers := removeFrom (activePlayers g) r;
         dirtyPlayers := dirtyPlayers g;
         aliveCount := if Player.dead p then aliveCount g else (aliveCount g - 1)%Z;
         aliveCountDirty := if Player.dead p then aliveCountDirty g else true;
         playerInfosDirty := playerInfosDirty g;
         deletedPlayerIds := deletedPlayerIds g ++ [Player.id p];
         emotes := emotes g;
         explosions := explosions g;
         kills := kills g;
         fullDirtyObjects := fullDirtyObjects g;
         partialDirtyObjects := partialDirtyObjects g ++ [Player.id p] |}
  | _ => g
  end.


(** ** The specification's readings, for comparison with the code *)

(** The movement table in the specification's words: the diagonal speed
    when two perpendicular directions are held, the diagonals taking
    precedence over the single axes; the configured speed along a single
    axis; zero without input. *)
Definition velocityTable (opt : GameOptions) (up down left right : bool) : Vec :=
  let s := movementSpeed opt in
  let ds := diagonalSpeed opt in
  match up, down, left, right with
  | true, _, true, _ => (- ds, ds)
  | true, _, false, true => (ds, ds)
  | false, true, true, _ => (- ds, - ds)
  | false, true, false, true => (ds, - ds)
  | true, _, false, false => (0, s)
  | false, true, false, false => (0, - s)
  | false, false, true, _ => (- s, 0)
  | false, false, false, true => (s, 0)
  | false, false, false, false => (0, 0)
  end%Q.

Definition sameIntent (p p' : Player.t) : Prop :=
  Player.movingUp p' = Player.movingUp p /\
  Player.movingDown p' = Player.movingDown p /\
  Player.movingLeft p' = Player.movingLeft p /\
  Player.movingRight p' = Player.movingRight p.

Definition tableVelocity (opt : GameOptions) (p : Player.t) : Vec :=
  velocityTable opt (Player.movingUp p) (Player.movingDown p)
    (Player.movingLeft p) (Player.movingRight p).

(** ** Predicates used in the statements *)

(** Every player of [objs] is still a player at the same reference in
    [objs'], related to its former self by [R]. *)
Definition lifted (R : Player.t -> Player.t -> Prop)
    (objs objs' : list GameObject) : Prop :=
  forall r p, objs !! r = Some (IsPlayer p) ->
    exists p', objs' !! r = Some (IsPlayer p') /\ R p p'.

(** Once written, the table's velocity stays until the flags change. *)
Definition keepsVelocity (opt : GameOptions) (p p' : Player.t) : Prop :=
  sameIntent p p' /\
  (Player.velocity p = tableVelocity opt p ->
   Player.velocity p' = tableVelocity opt p').

(** The per-tick buffers of the session are empty and the alive-count
    flag is down. *)
Definition transientEmpty (g : Game) : Prop :=
  emotes g = [] /\ explosions g = [] /\ kills g = [] /\
  fullDirtyObjects g = [] /\ partialDirtyObjects g = [] /\
  dirtyPlayers g = [] /\ deletedPlayerIds g = [] /\
  aliveCountDirty g = false.

(** The states a session passes through: the timer callback and the two
    lifecycle methods run one at a time, in any order. *)
Inductive reachable : Game -> Prop :=
  | reach_new objs : reachable (newGame objs)
  | reach_tick opt ph clock g :
      reachable g -> reachable (tick opt ph clock g).1
  | reach_add fresh g : reachable g -> reachable (addPlayer fresh g).1
  | reach_remove r g : reachable g -> reachable (removePlayer r g).

(** [r] refers to a player whose [dead] flag is down. *)
Definition isAlive (objs : list GameObject) (r : nat) : bool :=
  match objs !! r with
  | Some (IsPlayer p) => negb (Player.dead p)
  | _ => false
  end.

(** Number of entries of [rs] that refer to a living player. *)
Fixpoint countAlive (objs : list GameObject) (rs : list nat) : nat :=
  match rs with
  | [] => 0
  | r :: rest => (if isAlive objs r then 1 else 0) + countAlive objs rest
  end.

Definition aliveCountExact (g : Game) : Prop :=
  aliveCount g = Z.of_nat (countAlive (objects g) (activePlayers g)).

(** Every entry of [activePlayers] refers to a player of the registry. *)
Definition activeResolved (g : Game) : Prop :=
  forall r, r ∈ activePlayers g ->
    exists p, objects g !! r = Some (IsPlayer p).

(** [p'] is [p] with identities appended to its two private buffers, each
    of them accepted by [allowed] (given the player's own identity and its
    visibility set); identity and visibility set are those of [p]. *)
Definition grows (allowed : nat -> list nat -> nat -> Prop)
    (p p' : Player.t) : Prop :=
  Player.id p' = Player.id p /\
  Player.visibleObjects p' = Player.visibleObjects p /\
  exists addedFull addedPartial,
    Player.fullObjects p' = Player.fullObjects p ++ addedFull /\
    Player.partialObjects p' = Player.partialObjects p ++ addedPartial /\
    Forall (allowed (Player.id p) (Player.visibleObjects p)) addedFull /\
    Forall (allowed (Player.id p) (Player.visibleObjects p)) addedPartial.

Definition visibleOnly (me : nat) (visible : list nat) (i : nat) : Prop :=
  i ∈ visible.

Definition ownOrVisible (me : nat) (visible : list nat) (i : nat) : Prop :=
  i = me \/ i ∈ visible.

Definition disjointIds (l1 l2 : list nat) : Prop :=
  forall i, i ∈ l1 -> i ∈ l2 -> False.

(** Identity of the player [r] refers to, if it refers to one. *)
Definition idOf (objs : list GameObject) (r : nat) : option nat :=
  match objs !! r with
  | Some (IsPlayer p) => Some (Player.id p)
  | _ => None
  end.

(** Identities of the players the first loop will visit, in order. *)
Fixpoint visitedIds (objs : list GameObject) (rs : list nat) : list nat :=
  match rs with
  | [] => []
  | r :: rest =>
      match idOf objs r with
      | Some i => i :: visitedIds objs rest
      | None => visitedIds objs rest
      end
  end.

(** The melee candidates in the specification's words, written on the
    two classes without the code's own filter: [x] is a player, or an
    obstacle that is destructible; it has a body, is not dead, is not the
    attacker (identity [pid]); and the probe [body] overlaps its body with
    penetration depth [d]. *)
Definition overlaps (ph : Physics) (body : Body) (pid : nat)
    (x : GameObject) (d : Q) : Prop :=
  match x with
  | IsPlayer q =>
      exists b,
        Player.body q = Some b /\ Player.dead q = false /\
        Player.id q <> pid /\ collides ph body b = Some d
  | IsObstacle o =>
      Obstacle.destructible o = true /\
      exists b,
        Obstacle.body o = Some b /\ Obstacle.dead o = false /\
        Obstacle.id o <> pid /\ collides ph body b = Some d
  end.

(** Penetration depths are not negative. *)
Definition depthsNonNegative (ph : Physics) : Prop :=
  forall a b d, collides ph a b = Some d -> (0 <= d)%Q.

(** Number of [damage] calls in a log whose attacker is [r]. *)
Definition isDamageBy (r : nat) (e : Event) : bool :=
  match e with
  | Damage _ _ source => source =? r
  | _ => false
  end.

Fixpoint damageBy (r : nat) (ev : list Event) : nat :=
  match ev with
  | [] => 0
  | e :: rest => (if isDamageBy r e then 1 else 0) + damageBy r rest
  end.

(** [n] ticks in a row, tick [m] running with the physics [phs m] and the
    clock [clocks m]; the logs are concatenated. *)
Fixpoint run (opt : GameOptions) (phs : nat -> Physics)
    (clocks : nat -> nat -> Z * Z) (n : nat) (g : Game) : Game * list Event :=
  match n with
  | 0 => (g, [])
  | S m =>
      let st := run opt phs clocks m g in
      let st' := tick opt (phs m) (clocks m) st.1 in
      (st'.1, st.2 ++ st'.2)
  end.

(** Shooting flag, cooldown stamp and animation state are those of [p]. *)
Definition sameCombat (p p' : Player.t) : Prop :=
  Player.shootStart p' = Player.shootStart p /\
  Player.meleeCooldown p' = Player.meleeCooldown p /\
  Player.animActive p' = Player.animActive p /\
  Player.animType p' = Player.animType p /\
  Player.animSeq p' = Player.animSeq p /\
  Player.animTime p' = Player.animTime p.

(** Once down, the shooting flag stays down. *)
Definition staysUnarmed (p p' : Player.t) : Prop :=
  Player.shootStart p = false -> Player.shootStart p' = false.

(** Animation state [(active, type, sequence, elapsed)] of player [r]. *)
Definition animState (g : Game) (r : nat) : option (bool * nat * nat * nat) :=
  match objects g !! r with
  | Some (IsPlayer p) =>
      Some (Player.animActive p, Player.animType p, Player.animSeq p,
            Player.animTime p)
  | _ => None
  end.

(** [r] occurs exactly once in [l]. *)
Definition heldOnce (r : nat) (l : list nat) : Prop :=
  exists l1 l2, l = l1 ++ r :: l2 /\ (r ∉ l1) /\ (r ∉ l2).

(** What may happen to the session between two ticks, seen from player
    [r]: anything (input handlers raise its direction and shooting flags,
    other players join, leave or are changed), as long as [r] is still held
    once by [activePlayers] and its four animation fields are left alone.
    In [game.ts] only the timer callback writes these fields. *)
Definition staged (r : nat) (g g' : Game) : Prop :=
  heldOnce r (activePlayers g') /\ animState g' r = animState g r.

(** [ticksLater r k g g']: [g'] is reached from [g] by [k] further ticks,
    each run with its own options, physics and clock, and each preceded by
    an arbitrary staging step. *)
Inductive ticksLater (r : nat) : nat -> Game -> Game -> Prop :=
  | later_now g : ticksLater r 0 g g
  | later_tick k g g1 g2 opt ph clock :
      ticksLater r k g g1 -> staged r g1 g2 ->
      ticksLater r (S k) g (tick opt ph clock g2).1.

(** ** The end of a session *)

(** What [end()] (lines 270-273) does to the outside. *)
Inductive Shutdown : Type :=
  | CloseSocket (r : nat)
  | ClearInterval.

(** [for(const p of this.players) p.socket.close(); clearInterval(this.timer)] *)
Definition end_ (g : Game) : list Shutdown :=
  (CloseSocket <$> players g) ++ [ClearInterval].

(** ** Further predicates on sessions and logs *)

(** The packets handed to [sendPacket] of player [r], in order. *)
Fixpoint sendsTo (r : nat) (log : list Event) : list Packet :=
  match log with
  | [] => []
  | SendPacket to pk :: rest =>
      if to =? r then pk :: sendsTo r rest else sendsTo r rest
  | _ :: rest => sendsTo r rest
  end.


(** [y] is an object of the same class as [x] with the same identity,
    [dead] flag and body, the same answer to the melee filter and to the
    door test. *)
Definition sameShape (x y : GameObject) : Prop :=
  objId y = objId x /\ objDead y = objDead x /\ objBody y = objBody x /\
  damageable y = damageable x /\ isDoorObstacle y = isDoorObstacle x /\
  match x, y with
  | IsPlayer _, IsPlayer _ => True
  | IsObstacle o, IsObstacle o' => o' = o
  | _, _ => False
  end.

(** Entry by entry, [objs'] has the shape of [objs]. *)
Definition sameShapes (objs objs' : list GameObject) : Prop :=
  length objs' = length objs /\
  forall i x, objs !! i = Some x ->
    exists x', objs' !! i = Some x' /\ sameShape x x'.

(** What the scan of lines 130-140 reads of a registry entry: its class
    ([instanceof], line 132) and, for an obstacle, the [destructible] flag
    tested with it; [id] and [dead] (line 131); [body] (lines 131, 134). *)
Inductive ScanClass : Type :=
  | PlayerClass
  | ObstacleClass (destructible : bool).

Definition scanView (x : GameObject) : ScanClass * nat * bool * option Body :=
  match x with
  | IsPlayer p =>
      (PlayerClass, Player.id p, Player.dead p, Player.body p)
  | IsObstacle o =>
      (ObstacleClass (Obstacle.destructible o),
       Obstacle.id o, Obstacle.dead o, Obstacle.body o)
  end.

(** Everything of the session outside the registry and the two dirty
    lists is the same in [g] and [g']. *)
Definition sameSession (g g' : Game) : Prop :=
  players g' = players g /\
  connectedPlayers g' = connectedPlayers g /\
  activePlayers g' = activePlayers g /\
  dirtyPlayers g' = dirtyPlayers g /\
  aliveCount g' = aliveCount g /\
  aliveCountDirty g' = aliveCountDirty g /\
  playerInfosDirty g' = playerInfosDirty g /\
  deletedPlayerIds g' = deletedPlayerIds g /\
  emotes g' = emotes g /\
  explosions g' = explosions g /\
  kills g' = kills g.

(** The roster of a session: [players] lists consecutive references, each
    of them a player of the registry whose identity is the reference, and
    the registry ends with the last of them; the connected and the active
    players are among them, none of them twice. *)
Definition rosterSound (g : Game) : Prop :=
  (exists m n, players g = seq m n /\ length (objects g) = m + n) /\
  (forall r, r ∈ players g ->
     exists p, objects g !! r = Some (IsPlayer p) /\ Player.id p = r) /\
  NoDup (connectedPlayers g) /\ NoDup (activePlayers g) /\
  (forall r, r ∈ connectedPlayers g -> r ∈ players g) /\
  (forall r, r ∈ activePlayers g -> r ∈ players g).

(** Identity, [dead] flag and body of a player are those of [p]. *)
Definition keepsShape (p p' : Player.t) : Prop :=
  Player.id p' = Player.id p /\ Player.dead p' = Player.dead p /\
  Player.body p' = Player.body p.


(** The fields of a player that only the second loop writes. *)
Definition hints (p : Player.t)
    : bool * bool * list Emote * bool * list Explosion :=
  (Player.skipObjectCalculations p, Player.emotesDirty p, Player.emotes p,
   Player.explosionsDirty p, Player.explosions p).

(** Nothing outside the second loop's own fields and the two private
    buffers differs between [p] and [p']. *)
Definition sameButHints (p p' : Player.t) : Prop :=
  keepsShape p p' /\ sameCombat p p' /\ sameIntent p p' /\
  Player.moving p' = Player.moving p /\
  Player.velocity p' = Player.velocity p /\
  Player.direction p' = Player.direction p /\
  Player.quit p' = Player.quit p /\
  Player.visibleObjects p' = Player.visibleObjects p.

(** The parts of the session the second loop's body reads. *)
Definition sameAmbient (g g' : Game) : Prop :=
  fullDirtyObjects g' = fullDirtyObjects g /\
  partialDirtyObjects g' = partialDirtyObjects g /\
  emotes g' = emotes g /\
  explosions g' = explosions g.

Definition sameHints (p p' : Player.t) : Prop := hints p' = hints p.

(** A logged [damage] call as the melee block produces it on the registry
    [objs] that the scan of lines 130-140 walks: 24 points, from a player
    [s], on an entry [t] that the probe of [s] overlaps deeper than -1 and
    at least as deep as any other candidate of [objs]. *)
Definition meleeHit (ph : Physics) (objs : list GameObject)
    (t : nat) (a : Z) (s : nat) : Prop :=
  a = 24%Z /\
  exists p x d,
    objs !! s = Some (IsPlayer p) /\ objs !! t = Some x /\
    overlaps ph (probe ph s) (Player.id p) x d /\ (-1 < d)%Q /\
    forall j y e, objs !! j = Some y ->
      overlaps ph (probe ph s) (Player.id p) y e -> (e <= d)%Q.

(** The shooting block would resolve an attack for [p] at clock [tc]. *)
Definition fires (tc : Z) (p : Player.t) : bool :=
  Player.shootStart p && (250 <=? tc - Player.meleeCooldown p)%Z.

(** [e] is logged by the melee block, respectively by the packet block. *)
Definition isCombat (e : Event) : bool :=
  match e with Damage _ _ _ | Interact _ _ => true | _ => false end.

Definition isPacket (e : Event) : bool :=
  match e with SendPacket _ _ => true | _ => false end.

(** ** Sample sessions on which the model is run *)

Module Demo.

Definition opt : GameOptions := mkOptions (3 # 10) (2 # 10).

(** A player object as a constructor could leave it. *)
Definition fresh : Player.t :=
  Player.mk 0 false (Some 7) (0, 1)%Q false false false false false false
    (0, 0)%Q false 0 false 0 0 0 [] [] [] false false [] false [].

(** No two bodies overlap. *)
Definition apart : Physics := mkPhysics (fun r => 100 + r) (fun _ _ => None).

Definition clock0 : nat -> Z * Z := fun _ => (1000%Z, 1000%Z).

Definition lobby : Game := newGame [].
Definition joined : Game := (addPlayer fresh lobby).1.
Definition newcomer : Player.t :=
  Player.set_fullObjects [0] (Player.construct 0 fresh).

(** A crate, a door and two players; alice holds up and left and has
    asked to punch, bob stands still. *)
Definition crate : Obstacle.t := Obstacle.mk 0 false (Some 10) true false.
Definition door : Obstacle.t := Obstacle.mk 1 false (Some 11) true true.

Definition alice : Player.t :=
  Player.mk 2 false (Some 12) (1, 0)%Q false true false true false false
    (0, 0)%Q true 0 false 0 0 0 [0; 3] [] [] false false [] false [].

Definition bob : Player.t :=
  Player.mk 3 false (Some 13) (1, 0)%Q false false false false false false
    (0, 0)%Q false 0 false 0 0 0 [2] [] [] false false [] false [].

Definition arena : Game :=
  {| objects := [IsObstacle crate; IsObstacle door; IsPlayer alice; IsPlayer bob];
     players := [2; 3];
     connectedPlayers := [2; 3];
     activePlayers := [2; 3];
     dirtyPlayers := [];
     aliveCount := 2;
     aliveCountDirty := false;
     playerInfosDirty := false;
     deletedPlayerIds := [];
     emotes := [];
     explosions := [];
     kills := [];
     fullDirtyObjects := [];
     partialDirtyObjects := [] |}.

(** The same session with two emotes pending. *)
Definition party : Game :=
  {| objects := objects arena;
     players := players arena;
     connectedPlayers := connectedPlayers arena;
     activePlayers := activePlayers arena;
     dirtyPlayers := [];
     aliveCount := 2;
     aliveCountDirty := false;
     playerInfosDirty := false;
     deletedPlayerIds := [];
     emotes := [5; 6];
     explosions := [];
     kills := [9];
     fullDirtyObjects := [];
     partialDirtyObjects := [] |}.

(** Alice's probe (body 102) overlaps the crate by 1/2 and the door and bob
    by 3/4 each; nothing else overlaps. *)
Definition brawl : Physics :=
  mkPhysics (fun r => 100 + r)
    (fun a b =>
       if a =? 102 then
         if b =? 10 then Some (1 # 2)
         else if b =? 11 then Some (3 # 4)
         else if b =? 13 then Some (3 # 4)
         else None
       else None).

(** A later reading of the clock, 100 ms after [clock0], and an early one,
    100 ms after the epoch. *)
Definition clock1 : nat -> Z * Z := fun _ => (1100%Z, 1100%Z).
Definition early : nat -> Z * Z := fun _ => (100%Z, 100%Z).

(** A reading 300 ms after [clock0]: the cooldown stamped at [clock0] has
    elapsed. *)
Definition late : nat -> Z * Z := fun _ => (1300%Z, 1300%Z).

(** The input handler raising the shooting flag of player [r]. *)
Definition shoot (r : nat) (g : Game) : Game :=
  match objects g !! r with
  | Some (IsPlayer p) =>
      setObjects (<[r := IsPlayer (Player.set_shootStart true p)]> (objects g)) g
  | _ => g
  end.

(** Alice after the first tick of [arena], her flag raised again. *)
Definition alice_rearmed : Player.t :=
  Eval vm_compute in
    match objects (shoot 2 (tick opt brawl clock0 arena).1) !! 2 with
    | Some (IsPlayer p) => p
    | _ => alice
    end.

(** Bob after the first loop of the first tick of [arena]. *)
Definition bob_resolved : Player.t :=
  Eval vm_compute in
    match objects (resolverPass opt brawl clock0 arena).1 !! 3 with
    | Some (IsPlayer p) => p
    | _ => bob
    end.

(** Bob after the first tick of [arena]. *)
Definition bob_after : Player.t :=
  Eval vm_compute in
    match objects (tick opt brawl clock0 arena).1 !! 3 with
    | Some (IsPlayer p) => p
    | _ => bob
    end.

End Demo.

(** * Properties *)

Ltac split_ifs :=
  repeat match goal with
         | |- context [if ?b then _ else _] => destruct b eqn:?
         end.


(** ** How the two loops act on the registry *)

Lemma resolve_unfold opt ph clock k r st p0 :
  objects st.1 !! r = Some (IsPlayer p0) ->
  let res := playerStep opt ph (clock k).1 (clock k).2 (objects st.1) r p0 in
  let st' := resolve opt ph clock k r st in
  objects st'.1 = <[r := IsPlayer res.1.1]> (objects st.1) /\
  st'.2 = st.2 ++ res.1.2 /\
  activePlayers st'.1 = activePlayers st.1 /\
  connectedPlayers st'.1 = connectedPlayers st.1 /\
  fullDirtyObjects st'.1 =
    (if res.2 then fullDirtyObjects st.1 ++ [Player.id p0]
     else fullDirtyObjects st.1) /\
  partialDirtyObjects st'.1 =
    (if res.2 then partialDirtyObjects st.1
     else partialDirtyObjects st.1 ++ [Player.id p0]).
Proof.
  intros Hr. cbv zeta. unfold resolve. rewrite Hr.
  destruct (playerStep _ _ _ _ _ _ _) as [[p hits] full]. simpl.
  repeat split; reflexivity.
Qed.

Lemma resolve_skip opt ph clock k r st :
  (forall p0, objects st.1 !! r <> Some (IsPlayer p0)) ->
  resolve opt ph clock k r st = st.
Proof.
  intros Hr. unfold resolve.
  destruct (objects st.1 !! r) as [[p0|o]|] eqn:E; try reflexivity.
  exfalso. exact (Hr p0 eq_refl).
Qed.

Lemma broadcast_unfold r st p0 :
  objects st.1 !! r = Some (IsPlayer p0) ->
  broadcast r st =
    (setObjects (<[r := IsPlayer (finalize st.1 p0)]> (objects st.1)) st.1,
     st.2 ++ emit st.1 r (finalize st.1 p0)).
Proof. intros Hr. unfold broadcast. rewrite Hr. reflexivity. Qed.

Lemma broadcast_skip r st :
  (forall p0, objects st.1 !! r <> Some (IsPlayer p0)) ->
  broadcast r st = st.
Proof.
  intros Hr. unfold broadcast.
  destruct (objects st.1 !! r) as [[p0|o]|] eqn:E; try reflexivity.
  exfalso. exact (Hr p0 eq_refl).
Qed.

(** Both loops leave the collections and the counters of the session
    alone; only the registry, the two dirty lists and the log move. *)
Lemma resolve_frame opt ph clock k r st :
  let g' := (resolve opt ph clock k r st).1 in
  activePlayers g' = activePlayers st.1 /\
  connectedPlayers g' = connectedPlayers st.1 /\
  aliveCount g' = aliveCount st.1 /\
  length (objects g') = length (objects st.1).
Proof.
  cbv zeta. unfold resolve.
  destruct (objects st.1 !! r) as [[p0|o]|] eqn:E; auto.
  destruct (playerStep _ _ _ _ _ _ _) as [[p hits] full]. simpl.
  rewrite length_insert. auto.
Qed.

Lemma resolveAll_frame opt ph clock rs : forall k st,
  let g' := (resolveAll opt ph clock k rs st).1 in
  activePlayers g' = activePlayers st.1 /\
  connectedPlayers g' = connectedPlayers st.1 /\
  aliveCount g' = aliveCount st.1 /\
  length (objects g') = length (objects st.1).
Proof.
  induction rs as [|r rs IH]; intros k st; simpl; [auto|].
  destruct (IH (S k) (resolve opt ph clock k r st)) as (A & B & C & D).
  destruct (resolve_frame opt ph clock k r st) as (A' & B' & C' & D').
  cbv zeta in *. repeat split; congruence.
Qed.

Lemma broadcast_frame r st :
  let g' := (broadcast r st).1 in
  activePlayers g' = activePlayers st.1 /\
  connectedPlayers g' = connectedPlayers st.1 /\
  aliveCount g' = aliveCount st.1 /\
  fullDirtyObjects g' = fullDirtyObjects st.1 /\
  partialDirtyObjects g' = partialDirtyObjects st.1 /\
  length (objects g') = length (objects st.1).
Proof.
  cbv zeta. unfold broadcast.
  destruct (objects st.1 !! r) as [[p0|o]|] eqn:E; simpl;
    rewrite ?length_insert; auto 10.
Qed.

Lemma broadcastAll_frame rs : forall st,
  let g' := (broadcastAll rs st).1 in
  activePlayers g' = activePlayers st.1 /\
  connectedPlayers g' = connectedPlayers st.1 /\
  aliveCount g' = aliveCount st.1 /\
  fullDirtyObjects g' = fullDirtyObjects st.1 /\
  partialDirtyObjects g' = partialDirtyObjects st.1 /\
  length (objects g') = length (objects st.1).
Proof.
  induction rs as [|r rs IH]; intros st; simpl; [auto 10|].
  destruct (IH (broadcast r st)) as (A & B & C & D & E & F).
  destruct (broadcast_frame r st) as (A' & B' & C' & D' & E' & F').
  cbv zeta in *. repeat split; congruence.
Qed.

Lemma tick_activePlayers opt ph clock g :
  activePlayers (tick opt ph clock g).1 = activePlayers g.
Proof.
  unfold tick, broadcastPass, resolverPass. simpl.
  destruct (broadcastAll_frame
    (connectedPlayers (resolveAll opt ph clock 0 (activePlayers g) (g, [])).1)
    (resolveAll opt ph clock 0 (activePlayers g) (g, []))) as (A & _).
  destruct (resolveAll_frame opt ph clock (activePlayers g) 0 (g, []))
    as (A' & _).
  cbv zeta in *. simpl in *. congruence.
Qed.

Lemma resolveAll_app opt ph clock l1 : forall l2 k st,
  resolveAll opt ph clock k (l1 ++ l2) st =
  resolveAll opt ph clock (k + length l1) l2 (resolveAll opt ph clock k l1 st).
Proof.
  induction l1 as [|r l1 IH]; intros l2 k st; simpl.
  - f_equal. lia.
  - rewrite IH. f_equal. lia.
Qed.

Section Lifted.

Variable R : Player.t -> Player.t -> Prop.
Hypothesis R_refl : forall p, R p p.
Hypothesis R_trans : forall p q s, R p q -> R q s -> R p s.

Lemma lifted_refl objs : lifted R objs objs.
Proof. intros r p H. eauto. Qed.

Lemma lifted_trans a b c : lifted R a b -> lifted R b c -> lifted R a c.
Proof.
  intros Hab Hbc r p H.
  destruct (Hab r p H) as (q & Hq & Rq).
  destruct (Hbc r q Hq) as (s & Hs & Rs). eauto.
Qed.

Lemma lifted_insert objs r p0 p1 :
  objs !! r = Some (IsPlayer p0) -> R p0 p1 ->
  lifted R objs (<[r := IsPlayer p1]> objs).
Proof.
  intros H0 H01 r' p Hp.
  destruct (decide (r = r')) as [->|Hne].
  - exists p1. split.
    + apply list_lookup_insert_eq. eapply lookup_lt_Some; eauto.
    + assert (p = p0) by congruence. subst. assumption.
  - exists p. split; [|apply R_refl].
    rewrite list_lookup_insert_ne; assumption.
Qed.

Variable opt : GameOptions.
Hypothesis R_step : forall ph tc ts objs r p,
  R p (playerStep opt ph tc ts objs r p).1.1.
Hypothesis R_finalize : forall g p, R p (finalize g p).

Lemma resolve_lifted ph clock k r st :
  lifted R (objects st.1) (objects (resolve opt ph clock k r st).1).
Proof.
  destruct (objects st.1 !! r) as [[p0|o]|] eqn:E.
  - destruct (resolve_unfold opt ph clock k r st p0 E) as (-> & _).
    eapply lifted_insert; eauto.
  - rewrite resolve_skip; [apply lifted_refl | congruence].
  - rewrite resolve_skip; [apply lifted_refl | congruence].
Qed.

Lemma resolveAll_lifted ph clock rs : forall k st,
  lifted R (objects st.1) (objects (resolveAll opt ph clock k rs st).1).
Proof.
  induction rs as [|r rs IH]; intros k st; simpl.
  - apply lifted_refl.
  - eapply lifted_trans; [apply resolve_lifted | apply IH].
Qed.

Lemma broadcast_lifted r st :
  lifted R (objects st.1) (objects (broadcast r st).1).
Proof.
  destruct (objects st.1 !! r) as [[p0|o]|] eqn:E.
  - rewrite (broadcast_unfold r st p0 E). simpl.
    eapply lifted_insert; eauto.
  - rewrite broadcast_skip; [apply lifted_refl | congruence].
  - rewrite broadcast_skip; [apply lifted_refl | congruence].
Qed.

Lemma broadcastAll_lifted rs : forall st,
  lifted R (objects st.1) (objects (broadcastAll rs st).1).
Proof.
  induction rs as [|r rs IH]; intros st; simpl.
  - apply lifted_refl.
  - eapply lifted_trans; [apply broadcast_lifted | apply IH].
Qed.

Lemma tick_lifted ph clock g :
  lifted R (objects g) (objects (tick opt ph clock g).1).
Proof.
  unfold tick, broadcastPass, resolverPass. simpl.
  eapply lifted_trans; [|apply broadcastAll_lifted].
  apply (resolveAll_lifted ph clock (activePlayers g) 0 (g, [])).
Qed.

End Lifted.

(** A player held by [activePlayers] is visited by the first loop: between
    its state at the start of the tick and at the end lie steps related by
    [R] and at least one [playerStep]. *)
Lemma tick_visited (R : Player.t -> Player.t -> Prop)
    (R_refl : forall p, R p p)
    (R_trans : forall p q s, R p q -> R q s -> R p s)
    (opt : GameOptions)
    (R_step : forall ph tc ts objs r p,
        R p (playerStep opt ph tc ts objs r p).1.1)
    (R_finalize : forall g p, R p (finalize g p))
    ph clock g r p :
  r ∈ activePlayers g -> objects g !! r = Some (IsPlayer p) ->
  exists p1 k objs p',
    R p p1 /\
    R (playerStep opt ph (clock k).1 (clock k).2 objs r p1).1.1 p' /\
    objects (tick opt ph clock g).1 !! r = Some (IsPlayer p').
Proof.
  intros Hin Hp.
  apply list_elem_of_split in Hin as (l1 & l2 & Hl).
  unfold tick, broadcastPass, resolverPass. simpl. rewrite Hl.
  rewrite resolveAll_app. simpl.
  set (st1 := resolveAll opt ph clock 0 l1 (g, [])).
  destruct (resolveAll_lifted R R_refl R_trans opt R_step ph clock l1 0 (g, []) r p Hp)
    as (p1 & Hp1 & R1). fold st1 in Hp1.
  destruct (resolve_unfold opt ph clock (0 + length l1) r st1 p1 Hp1) as (Ho & _).
  set (st2 := resolve opt ph clock (0 + length l1) r st1) in *.
  set (p2 := (playerStep opt ph (clock (0 + length l1)).1 (clock (0 + length l1)).2
                 (objects st1.1) r p1).1.1) in *.
  assert (Hp2 : objects st2.1 !! r = Some (IsPlayer p2)).
  { rewrite Ho. apply list_lookup_insert_eq. eapply lookup_lt_Some; eauto. }
  destruct (resolveAll_lifted R R_refl R_trans opt R_step ph clock l2
              (S (0 + length l1)) st2 r p2 Hp2) as (p3 & Hp3 & R3).
  set (st3 := resolveAll opt ph clock (S (0 + length l1)) l2 st2) in *.
  destruct (broadcastAll_lifted R R_refl R_trans R_finalize
              (connectedPlayers st3.1) st3 r p3 Hp3) as (p4 & Hp4 & R4).
  exists p1, (0 + length l1), (objects st1.1), p4.
  split; [assumption|]. split; [|assumption].
  fold p2. eauto.
Qed.

(** ** Movement *)

Lemma movement_velocity opt p :
  Player.velocity (movement opt p) = tableVelocity opt p.
Proof.
  unfold movement, tableVelocity, velocityTable, setVelocity. simpl.
  destruct (Player.movingUp p), (Player.movingDown p),
    (Player.movingLeft p), (Player.movingRight p); simpl; try reflexivity.
Qed.

Lemma movement_sameIntent opt p : sameIntent p (movement opt p).
Proof.
  unfold movement, sameIntent, setVelocity. destruct p; simpl.
  split_ifs; simpl; auto.
Qed.

Lemma attack_motion ph tc ts objs r p :
  let p' := (attack ph tc ts objs r p).1 in
  sameIntent p p' /\ Player.velocity p' = Player.velocity p /\
  Player.moving p' = Player.moving p.
Proof.
  cbv zeta. unfold attack, sameIntent. split_ifs; simpl; auto 10.
Qed.

Lemma animate_motion p :
  let p' := (animate p).1 in
  sameIntent p p' /\ Player.velocity p' = Player.velocity p /\
  Player.moving p' = Player.moving p.
Proof.
  cbv zeta. unfold animate, sameIntent. split_ifs; simpl; auto 10.
Qed.

Lemma finalize_motion g p :
  let p' := finalize g p in
  sameIntent p p' /\ Player.velocity p' = Player.velocity p.
Proof.
  cbv zeta. unfold finalize, sameIntent. split_ifs; simpl; auto 10.
Qed.

Lemma playerStep_motion opt ph tc ts objs r p :
  let p' := (playerStep opt ph tc ts objs r p).1.1 in
  sameIntent p p' /\ Player.velocity p' = tableVelocity opt p.
Proof.
  cbv zeta. unfold playerStep. simpl.
  destruct (animate_motion (attack ph tc ts objs r (movement opt p)).1)
    as ((a1 & a2 & a3 & a4) & av & _).
  destruct (attack_motion ph tc ts objs r (movement opt p))
    as ((b1 & b2 & b3 & b4) & bv & _).
  destruct (movement_sameIntent opt p) as (c1 & c2 & c3 & c4).
  cbv zeta in *. unfold sameIntent.
  rewrite av, bv, movement_velocity.
  repeat split; congruence.
Qed.

Lemma tableVelocity_sameIntent opt p p' :
  sameIntent p p' -> tableVelocity opt p' = tableVelocity opt p.
Proof. intros (a & b & c & d). unfold tableVelocity. congruence. Qed.

Lemma keepsVelocity_refl opt p : keepsVelocity opt p p.
Proof. unfold keepsVelocity, sameIntent. auto 10. Qed.

Lemma keepsVelocity_trans opt p q s :
  keepsVelocity opt p q -> keepsVelocity opt q s -> keepsVelocity opt p s.
Proof.
  intros ((a1 & a2 & a3 & a4) & Hv) ((b1 & b2 & b3 & b4) & Hw).
  split; [unfold sameIntent; repeat split; congruence | auto].
Qed.

Lemma keepsVelocity_step opt ph tc ts objs r p :
  keepsVelocity opt p (playerStep opt ph tc ts objs r p).1.1.
Proof.
  destruct (playerStep_motion opt ph tc ts objs r p) as (Hi & Hv).
  cbv zeta in *. split; [assumption|]. intros _.
  rewrite Hv. symmetry. apply tableVelocity_sameIntent. assumption.
Qed.

Lemma keepsVelocity_finalize opt g p : keepsVelocity opt p (finalize g p).
Proof.
  destruct (finalize_motion g p) as (Hi & Hv). cbv zeta in *.
  split; [assumption|]. intros H.
  rewrite Hv, H. symmetry. apply tableVelocity_sameIntent. assumption.
Qed.

(** ** The alive count *)

Lemma isAlive_app_l objs extra r :
  r < length objs -> isAlive (objs ++ extra) r = isAlive objs r.
Proof. intros H. unfold isAlive. rewrite lookup_app_l by assumption. reflexivity. Qed.

Lemma isAlive_insert_same_dead objs r p0 p1 r' :
  objs !! r = Some (IsPlayer p0) -> Player.dead p1 = Player.dead p0 ->
  isAlive (<[r := IsPlayer p1]> objs) r' = isAlive objs r'.
Proof.
  intros H0 Hd. unfold isAlive.
  destruct (decide (r = r')) as [->|Hne].
  - rewrite list_lookup_insert_eq by (eapply lookup_lt_Some; eauto).
    rewrite H0, Hd. reflexivity.
  - rewrite list_lookup_insert_ne by assumption. reflexivity.
Qed.

Lemma countAlive_ext objs objs' rs :
  (forall r, r ∈ rs -> isAlive objs' r = isAlive objs r) ->
  countAlive objs' rs = countAlive objs rs.
Proof.
  induction rs as [|r rs IH]; intros H; simpl; [reflexivity|].
  rewrite H by apply list_elem_of_here.
  rewrite IH; [reflexivity|]. intros r' Hr'. apply H. apply list_elem_of_further, Hr'.
Qed.

Lemma countAlive_app objs l1 l2 :
  countAlive objs (l1 ++ l2) = countAlive objs l1 + countAlive objs l2.
Proof. induction l1 as [|r l1 IH]; simpl; [reflexivity|]. rewrite IH. lia. Qed.

Lemma removeFrom_absent rs r : r ∉ rs -> removeFrom rs r = rs.
Proof.
  induction rs as [|x rs IH]; intros H; simpl; [reflexivity|].
  destruct (Nat.eqb_spec x r) as [->|Hne].
  - exfalso. apply H, list_elem_of_here.
  - rewrite IH; [reflexivity|]. intros Hin. apply H, list_elem_of_further, Hin.
Qed.

Lemma removeFrom_subset rs r x : x ∈ removeFrom rs r -> x ∈ rs.
Proof.
  induction rs as [|y rs IH]; simpl; intros H; [assumption|].
  destruct (y =? r).
  - apply list_elem_of_further, H.
  - apply elem_of_cons in H as [->|H].
    + apply list_elem_of_here.
    + apply list_elem_of_further, IH, H.
Qed.

Lemma countAlive_removeFrom objs rs r :
  r ∈ rs ->
  countAlive objs rs =
  (if isAlive objs r then 1 else 0) + countAlive objs (removeFrom rs r).
Proof.
  induction rs as [|x rs IH]; intros H; simpl.
  - inversion H.
  - destruct (Nat.eqb_spec x r) as [->|Hne]; [reflexivity|].
    apply elem_of_cons in H as [->|H]; [congruence|].
    simpl. rewrite (IH H). lia.
Qed.

Lemma removePlayer_unfold r g p0 :
  objects g !! r = Some (IsPlayer p0) ->
  let g' := removePlayer r g in
  objects g' =
    <[r := IsPlayer (Player.set_quit true (Player.set_direction (1, 0)%Q p0))]>
      (objects g) /\
  activePlayers g' = removeFrom (activePlayers g) r /\
  connectedPlayers g' = removeFrom (connectedPlayers g) r /\
  aliveCount g' = (if Player.dead p0 then aliveCount g else aliveCount g - 1)%Z /\
  deletedPlayerIds g' = deletedPlayerIds g ++ [Player.id p0] /\
  partialDirtyObjects g' = partialDirtyObjects g ++ [Player.id p0] /\
  fullDirtyObjects g' = fullDirtyObjects g.
Proof.
  intros H. cbv zeta. unfold removePlayer. rewrite H. simpl.
  repeat split; reflexivity.
Qed.

Lemma tick_transientEmpty opt ph clock g :
  transientEmpty (tick opt ph clock g).1.
Proof. unfold tick, transientEmpty. simpl. repeat split; reflexivity. Qed.

(** ** The private buffers *)

Lemma pushVisible_spec visible dirty : forall buffer,
  exists added,
    pushVisible visible dirty buffer = buffer ++ added /\
    Forall (fun i => i ∈ visible /\ i ∈ dirty) added.
Proof.
  induction dirty as [|i dirty IH]; intros buffer; simpl.
  - exists []. rewrite app_nil_r. split; [reflexivity | constructor].
  - destruct (bool_decide (i ∈ visible)) eqn:E.
    + apply bool_decide_eq_true in E.
      destruct (IH (buffer ++ [i])) as (a & -> & Ha).
      exists (i :: a). rewrite <- app_assoc. split; [reflexivity|].
      constructor.
      * split; [assumption | apply list_elem_of_here].
      * eapply Forall_impl; [exact Ha|]. simpl. intros x (Hx & Hd).
        split; [assumption | apply list_elem_of_further, Hd].
    + destruct (IH buffer) as (a & -> & Ha).
      exists a. split; [reflexivity|].
      eapply Forall_impl; [exact Ha|]. simpl. intros x (Hx & Hd).
      split; [assumption | apply list_elem_of_further, Hd].
Qed.

Lemma grows_refl allowed p : grows allowed p p.
Proof.
  split; [reflexivity|]. split; [reflexivity|].
  exists [], []. rewrite !app_nil_r. repeat split; constructor.
Qed.

Lemma grows_trans allowed p q s :
  grows allowed p q -> grows allowed q s -> grows allowed p s.
Proof.
  intros (Hi & Hv & aF & aP & HF & HP & HaF & HaP)
         (Hi' & Hv' & bF & bP & HF' & HP' & HbF & HbP).
  rewrite Hi, Hv in HbF, HbP.
  split; [congruence|]. split; [congruence|].
  exists (aF ++ bF), (aP ++ bP).
  rewrite HF', HP', HF, HP, <- !app_assoc.
  repeat split; try reflexivity; apply Forall_app; auto.
Qed.

Lemma grows_weaken (a b : nat -> list nat -> nat -> Prop) p p' :
  (forall me vis i, a me vis i -> b me vis i) ->
  grows a p p' -> grows b p p'.
Proof.
  intros Hab (Hi & Hv & aF & aP & HF & HP & HaF & HaP).
  split; [assumption|]. split; [assumption|].
  exists aF, aP. repeat split; try assumption;
    (eapply Forall_impl; [eassumption|]; simpl; intros; apply Hab; assumption).
Qed.

Lemma movement_buffers opt p :
  let p' := movement opt p in
  Player.id p' = Player.id p /\
  Player.visibleObjects p' = Player.visibleObjects p /\
  Player.fullObjects p' = Player.fullObjects p /\
  Player.partialObjects p' = Player.partialObjects p.
Proof.
  cbv zeta. unfold movement, setVelocity. split_ifs; simpl; auto.
Qed.

Lemma attack_buffers ph tc ts objs r p :
  let p' := (attack ph tc ts objs r p).1 in
  Player.id p' = Player.id p /\
  Player.visibleObjects p' = Player.visibleObjects p /\
  Player.fullObjects p' = Player.fullObjects p /\
  Player.partialObjects p' = Player.partialObjects p.
Proof.
  cbv zeta. unfold attack. split_ifs; simpl; auto.
Qed.

Lemma animate_buffers p :
  let p' := (animate p).1 in
  Player.id p' = Player.id p /\
  Player.visibleObjects p' = Player.visibleObjects p /\
  ((animate p).2 = true /\ Player.animActive p = true /\
   Player.fullObjects p' = Player.fullObjects p ++ [Player.id p] /\
   Player.partialObjects p' = Player.partialObjects p
   \/
   (animate p).2 = false /\ Player.animActive p = false /\
   Player.fullObjects p' = Player.fullObjects p /\
   Player.partialObjects p' = Player.partialObjects p ++ [Player.id p]).
Proof.
  cbv zeta. unfold animate.
  destruct (Player.animActive p) eqn:Ea; simpl.
  - split_ifs; simpl; auto 10.
  - auto 10.
Qed.

Lemma playerStep_id opt ph tc ts objs r p :
  Player.id (playerStep opt ph tc ts objs r p).1.1 = Player.id p.
Proof.
  unfold playerStep. simpl.
  destruct (animate_buffers (attack ph tc ts objs r (movement opt p)).1) as (a & _).
  destruct (attack_buffers ph tc ts objs r (movement opt p)) as (b & _).
  destruct (movement_buffers opt p) as (c & _).
  cbv zeta in *. congruence.
Qed.

Lemma playerStep_grows opt ph tc ts objs r p :
  grows ownOrVisible p (playerStep opt ph tc ts objs r p).1.1.
Proof.
  unfold playerStep. simpl.
  destruct (animate_buffers (attack ph tc ts objs r (movement opt p)).1)
    as (a1 & a2 & Ha).
  destruct (attack_buffers ph tc ts objs r (movement opt p)) as (b1 & b2 & b3 & b4).
  destruct (movement_buffers opt p) as (c1 & c2 & c3 & c4).
  cbv zeta in *.
  split; [congruence|]. split; [congruence|].
  destruct Ha as [(_ & _ & HF & HP)|(_ & _ & HF & HP)].
  - exists [Player.id p], []. rewrite HF, HP, app_nil_r.
    repeat split; try congruence; repeat constructor.
  - exists [], [Player.id p]. rewrite HF, HP, app_nil_r.
    repeat split; try congruence; repeat constructor.
Qed.

Lemma finalize_grows g p : grows visibleOnly p (finalize g p).
Proof.
  unfold finalize.
  set (p1 := Player.set_skipObjectCalculations _ p).
  set (p2 := if isEmpty (emotes g) then p1 else _).
  set (p3 := if isEmpty (explosions g) then p2 else _).
  assert (H3 : Player.id p3 = Player.id p /\
               Player.visibleObjects p3 = Player.visibleObjects p /\
               Player.fullObjects p3 = Player.fullObjects p /\
               Player.partialObjects p3 = Player.partialObjects p).
  { subst p3 p2 p1. split_ifs; simpl; auto. }
  destruct H3 as (Hi & Hv & HF & HP). clearbody p3. clear p1 p2.
  destruct (pushVisible_spec (Player.visibleObjects p3) (fullDirtyObjects g)
              (Player.fullObjects p3)) as (aF & HaF & FaF).
  destruct (pushVisible_spec (Player.visibleObjects p3) (partialDirtyObjects g)
              (Player.partialObjects p3)) as (aP & HaP & FaP).
  assert (VF : Forall (visibleOnly (Player.id p) (Player.visibleObjects p)) aF).
  { eapply Forall_impl; [exact FaF|]. simpl. intros x (Hx & _).
    unfold visibleOnly. congruence. }
  assert (VP : Forall (visibleOnly (Player.id p) (Player.visibleObjects p)) aP).
  { eapply Forall_impl; [exact FaP|]. simpl. intros x (Hx & _).
    unfold visibleOnly. congruence. }
  unfold grows.
  destruct (isEmpty (fullDirtyObjects g)), (isEmpty (partialDirtyObjects g));
    simpl; (split; [assumption|]); (split; [assumption|]).
  - exists [], []. rewrite !app_nil_r. repeat split; auto.
  - exists [], aP. rewrite HaP, app_nil_r. repeat split; auto; congruence.
  - exists aF, []. rewrite HaF, app_nil_r. repeat split; auto; congruence.
  - exists aF, aP. rewrite HaF, HaP. repeat split; auto; congruence.
Qed.

(** ** The session's dirty lists *)

Lemma idOf_insert_same_id objs r p0 p1 r' :
  objs !! r = Some (IsPlayer p0) -> Player.id p1 = Player.id p0 ->
  idOf (<[r := IsPlayer p1]> objs) r' = idOf objs r'.
Proof.
  intros H0 Hi. unfold idOf.
  destruct (decide (r = r')) as [->|Hne].
  - rewrite list_lookup_insert_eq by (eapply lookup_lt_Some; eauto).
    rewrite H0, Hi. reflexivity.
  - rewrite list_lookup_insert_ne by assumption. reflexivity.
Qed.

Lemma visitedIds_ext objs objs' rs :
  (forall r, idOf objs' r = idOf objs r) ->
  visitedIds objs' rs = visitedIds objs rs.
Proof.
  intros H. induction rs as [|r rs IH]; simpl; [reflexivity|].
  rewrite H, IH. reflexivity.
Qed.

Lemma disjointIds_push_l l1 l2 i :
  disjointIds l1 l2 -> i ∉ l2 -> disjointIds (l1 ++ [i]) l2.
Proof.
  intros Hd Hi x Hx Hx2. apply elem_of_app in Hx as [Hx|Hx].
  - exact (Hd x Hx Hx2).
  - apply list_elem_of_singleton in Hx as ->. contradiction.
Qed.

Lemma disjointIds_push_r l1 l2 i :
  disjointIds l1 l2 -> i ∉ l1 -> disjointIds l1 (l2 ++ [i]).
Proof.
  intros Hd Hi x Hx Hx2. apply elem_of_app in Hx2 as [Hx2|Hx2].
  - exact (Hd x Hx Hx2).
  - apply list_elem_of_singleton in Hx2 as ->. contradiction.
Qed.

(** The invariant of the first loop: the two lists are disjoint, and the
    players still to be visited have pairwise distinct identities that are
    in neither list. *)
Lemma resolveAll_disjoint opt ph clock rs : forall k st,
  disjointIds (fullDirtyObjects st.1) (partialDirtyObjects st.1) ->
  NoDup (visitedIds (objects st.1) rs) ->
  (forall i, i ∈ visitedIds (objects st.1) rs ->
     (i ∉ fullDirtyObjects st.1) /\ (i ∉ partialDirtyObjects st.1)) ->
  let g' := (resolveAll opt ph clock k rs st).1 in
  disjointIds (fullDirtyObjects g') (partialDirtyObjects g').
Proof.
  induction rs as [|r rs IH]; intros k st Hd Hnd Hout; simpl; [assumption|].
  destruct (objects st.1 !! r) as [[p0|o]|] eqn:E.
  - destruct (resolve_unfold opt ph clock k r st p0 E)
      as (Ho & _ & _ & _ & HF & HP).
    cbv zeta in *.
    set (res := playerStep opt ph (clock k).1 (clock k).2 (objects st.1) r p0) in *.
    set (st' := resolve opt ph clock k r st) in *.
    assert (Hids : forall r', idOf (objects st'.1) r' = idOf (objects st.1) r').
    { intros r'. rewrite Ho. eapply idOf_insert_same_id; eauto.
      apply playerStep_id. }
    assert (Hhead : visitedIds (objects st.1) (r :: rs)
                    = Player.id p0 :: visitedIds (objects st.1) rs).
    { simpl. unfold idOf at 1. rewrite E. reflexivity. }
    rewrite Hhead in Hnd, Hout. apply NoDup_cons in Hnd as (Hfresh & Hnd).
    destruct (Hout (Player.id p0) (list_elem_of_here _ _)) as (HnF & HnP).
    apply IH.
    + rewrite HF, HP. destruct (res.2).
      * apply disjointIds_push_l; assumption.
      * apply disjointIds_push_r; assumption.
    + rewrite (visitedIds_ext (objects st.1)) by assumption. assumption.
    + rewrite (visitedIds_ext (objects st.1)) by assumption.
      intros i Hi.
      destruct (Hout i (list_elem_of_further _ _ _ Hi)) as (HiF & HiP).
      assert (i <> Player.id p0) by congruence.
      rewrite HF, HP. destruct (res.2); split; try assumption;
        rewrite elem_of_app, list_elem_of_singleton; tauto.
  - rewrite resolve_skip by congruence.
    assert (Hhead : visitedIds (objects st.1) (r :: rs)
                    = visitedIds (objects st.1) rs).
    { simpl. unfold idOf at 1. rewrite E. reflexivity. }
    rewrite Hhead in Hnd, Hout. apply IH; assumption.
  - rewrite resolve_skip by congruence.
    assert (Hhead : visitedIds (objects st.1) (r :: rs)
                    = visitedIds (objects st.1) rs).
    { simpl. unfold idOf at 1. rewrite E. reflexivity. }
    rewrite Hhead in Hnd, Hout. apply IH; assumption.
Qed.

(** ** The melee scan *)

Lemma Qgtb_true a b : Qgtb a b = true <-> (b < a)%Q.
Proof.
  unfold Qgtb. rewrite negb_true_iff. split.
  - intros H. apply Qnot_le_lt. intros Hle.
    apply Qle_bool_iff in Hle. congruence.
  - intros H. destruct (Qle_bool a b) eqn:E; [|reflexivity].
    apply Qle_bool_iff in E. exfalso. exact (Qlt_not_le _ _ H E).
Qed.

Lemma Qgtb_false a b : Qgtb a b = false <-> (a <= b)%Q.
Proof.
  unfold Qgtb. rewrite negb_false_iff. apply Qle_bool_iff.
Qed.

(** The candidates, read through the accessors the scan uses. *)
Lemma overlaps_iff ph body pid x d :
  overlaps ph body pid x d <->
  exists b,
    objBody x = Some b /\ objDead x = false /\ objId x <> pid /\
    damageable x = true /\ collides ph body b = Some d.
Proof.
  destruct x as [q|o]; simpl.
  - split.
    + intros (b & Hb & Hd & Hi & Hc). exists b. auto.
    + intros (b & Hb & Hd & Hi & _ & Hc). exists b. auto.
  - split.
    + intros (Hk & b & Hb & Hd & Hi & Hc). exists b. auto.
    + intros (b & Hb & Hd & Hi & Hk & Hc). split; [assumption|]. exists b. auto.
Qed.

(** What the scan does with one entry: it either skips it, or reads the
    depth of a candidate. *)
Lemma scan_cons ph body pid i x rest m c :
  (forall d, ~ overlaps ph body pid x d) /\
    scan ph body pid i (x :: rest) m c = scan ph body pid (S i) rest m c
  \/
  exists d, overlaps ph body pid x d /\
    scan ph body pid i (x :: rest) m c =
      if Qgtb d m then scan ph body pid (S i) rest d (Some i)
      else scan ph body pid (S i) rest m c.
Proof.
  cbn [scan].
  destruct (objBody x) as [b|] eqn:Eb.
  2:{ left. split; [|reflexivity]. intros d Hov.
      apply overlaps_iff in Hov as (b & Hb & _). congruence. }
  destruct (objDead x) eqn:Ed; simpl.
  { left. split; [|reflexivity]. intros d Hov.
    apply overlaps_iff in Hov as (b' & _ & Hd & _). congruence. }
  destruct (Nat.eqb_spec (objId x) pid) as [Hid|Hid].
  { left. split; [|reflexivity]. intros d Hov.
    apply overlaps_iff in Hov as (b' & _ & _ & Hn & _). contradiction. }
  destruct (damageable x) eqn:Ek.
  2:{ left. split; [|reflexivity]. intros d Hov.
      apply overlaps_iff in Hov as (b' & _ & _ & _ & Hk & _). congruence. }
  destruct (collides ph body b) as [d|] eqn:Ec.
  - right. exists d. split; [|reflexivity].
    apply overlaps_iff. exists b. auto.
  - left. split; [|reflexivity]. intros d Hov.
    apply overlaps_iff in Hov as (b' & Hb & _ & _ & _ & Hc). congruence.
Qed.

Lemma overlaps_functional ph body pid x d e :
  overlaps ph body pid x d -> overlaps ph body pid x e -> d = e.
Proof.
  intros H1 H2.
  apply overlaps_iff in H1 as (b & Hb & _ & _ & _ & Hc).
  apply overlaps_iff in H2 as (b' & Hb' & _ & _ & _ & Hc').
  congruence.
Qed.

(** The scan from a running maximum [m]: either no candidate is deeper
    than [m] and the running pair is returned, or the result is the first
    of the deepest candidates, deeper than [m]. *)
Lemma scan_spec ph body pid objs : forall i m c,
  (scan ph body pid i objs m c = (m, c) /\
   forall j y e, objs !! j = Some y -> overlaps ph body pid y e -> (e <= m)%Q)
  \/
  exists t x d,
    objs !! t = Some x /\ overlaps ph body pid x d /\
    scan ph body pid i objs m c = (d, Some (i + t)) /\ (m < d)%Q /\
    (forall j y e, objs !! j = Some y -> overlaps ph body pid y e -> (e <= d)%Q) /\
    (forall j y e, j < t -> objs !! j = Some y -> overlaps ph body pid y e ->
       (e < d)%Q).
Proof.
  induction objs as [|x rest IH]; intros i m c.
  - left. split; [reflexivity|]. intros j y e Hj. discriminate.
  - destruct (scan_cons ph body pid i x rest m c) as [(Hno & ->)|(d0 & Hov & ->)].
    + destruct (IH (S i) m c) as [(Hs & Hle)|(t & y & d & Ht & Hy & Hs & Hm & Hle & Hlt)].
      * left. split; [assumption|]. intros [|j] z e Hj Hz; simpl in Hj.
        -- inversion Hj; subst. exfalso. exact (Hno _ Hz).
        -- eauto.
      * right. exists (S t), y, d. simpl. repeat split; try assumption.
        -- rewrite Hs. do 2 f_equal. lia.
        -- intros [|j] z e Hj Hz; simpl in Hj.
           ++ inversion Hj; subst. exfalso. exact (Hno _ Hz).
           ++ eauto.
        -- intros [|j] z e Hjt Hj Hz; simpl in Hj.
           ++ inversion Hj; subst. exfalso. exact (Hno _ Hz).
           ++ apply (Hlt j z e); [lia | assumption | assumption].
    + destruct (Qgtb d0 m) eqn:Eg.
      * apply Qgtb_true in Eg.
        destruct (IH (S i) d0 (Some i))
          as [(Hs & Hle)|(t & y & d & Ht & Hy & Hs & Hm & Hle & Hlt)].
        -- right. exists 0, x, d0. simpl. repeat split; try assumption.
           ++ rewrite Hs. do 2 f_equal. lia.
           ++ intros [|j] z e Hj Hz; simpl in Hj.
              ** inversion Hj; subst.
                 rewrite (overlaps_functional _ _ _ _ _ _ Hz Hov). apply Qle_refl.
              ** eauto.
           ++ intros j z e Hj. lia.
        -- right. exists (S t), y, d. simpl. repeat split; try assumption.
           ++ rewrite Hs. do 2 f_equal. lia.
           ++ eapply Qlt_trans; eassumption.
           ++ intros [|j] z e Hj Hz; simpl in Hj.
              ** inversion Hj; subst.
                 rewrite (overlaps_functional _ _ _ _ _ _ Hz Hov).
                 apply Qlt_le_weak. assumption.
              ** eauto.
           ++ intros [|j] z e Hjt Hj Hz; simpl in Hj.
              ** inversion Hj; subst.
                 rewrite (overlaps_functional _ _ _ _ _ _ Hz Hov). assumption.
              ** apply (Hlt j z e); [lia | assumption | assumption].
      * apply Qgtb_false in Eg.
        destruct (IH (S i) m c)
          as [(Hs & Hle)|(t & y & d & Ht & Hy & Hs & Hm & Hle & Hlt)].
        -- left. split; [assumption|]. intros [|j] z e Hj Hz; simpl in Hj.
           ++ inversion Hj; subst.
              rewrite (overlaps_functional _ _ _ _ _ _ Hz Hov). assumption.
           ++ eauto.
        -- right. exists (S t), y, d. simpl. repeat split; try assumption.
           ++ rewrite Hs. do 2 f_equal. lia.
           ++ intros [|j] z e Hj Hz; simpl in Hj.
              ** inversion Hj; subst.
                 rewrite (overlaps_functional _ _ _ _ _ _ Hz Hov).
                 apply Qlt_le_weak. eapply Qle_lt_trans; eassumption.
              ** eauto.
           ++ intros [|j] z e Hjt Hj Hz; simpl in Hj.
              ** inversion Hj; subst.
                 rewrite (overlaps_functional _ _ _ _ _ _ Hz Hov).
                 eapply Qle_lt_trans; eassumption.
              ** apply (Hlt j z e); [lia | assumption | assumption].
Qed.

(** ** Shooting, cooldown and animation, one player at a time *)

Lemma movement_combat opt p :
  let p' := movement opt p in
  Player.id p' = Player.id p /\
  Player.shootStart p' = Player.shootStart p /\
  Player.meleeCooldown p' = Player.meleeCooldown p /\
  Player.animActive p' = Player.animActive p /\
  Player.animType p' = Player.animType p /\
  Player.animSeq p' = Player.animSeq p /\
  Player.animTime p' = Player.animTime p.
Proof.
  cbv zeta. unfold movement, setVelocity. split_ifs; simpl; auto 10.
Qed.

(** The two ways the shooting block can leave: the attack resolved, or
    nothing happened beyond the flag being cleared. *)
Lemma attack_cases ph tc ts objs r p :
  let res := attack ph tc ts objs r p in
  Player.shootStart res.1 = false /\
  Player.id res.1 = Player.id p /\
  Player.animSeq res.1 = Player.animSeq p /\
  ((Player.shootStart p = true /\ (250 <= tc - Player.meleeCooldown p)%Z /\
    Player.meleeCooldown res.1 = ts /\
    Player.animActive res.1 = true /\
    (Player.animActive p = true ->
       Player.animType res.1 = Player.animType p /\
       Player.animTime res.1 = Player.animTime p) /\
    (Player.animActive p = false ->
       Player.animType res.1 = 1 /\ Player.animTime res.1 = 0) /\
    res.2 = strike objs r
              (scan ph (probe ph r) (Player.id p) 0 objs (-1) None).2)
   \/
   ((Player.shootStart p = false \/ (tc - Player.meleeCooldown p < 250)%Z) /\
    Player.meleeCooldown res.1 = Player.meleeCooldown p /\
    Player.animActive res.1 = Player.animActive p /\
    Player.animType res.1 = Player.animType p /\
    Player.animTime res.1 = Player.animTime p /\
    res.2 = [])).
Proof.
  cbv zeta. unfold attack.
  destruct (Player.shootStart p) eqn:Es; simpl.
  - destruct (Z.leb_spec 250 (tc - Player.meleeCooldown p)) as [Hle|Hlt]; simpl.
    + destruct (Player.animActive p) eqn:Ea; simpl;
        (split; [reflexivity|]); (split; [reflexivity|]);
        (split; [reflexivity|]); left; repeat split; auto; congruence.
    + split; [reflexivity|]. split; [reflexivity|]. split; [reflexivity|].
      right. repeat split; auto.
  - split; [assumption|]. split; [reflexivity|]. split; [reflexivity|].
    right. repeat split; auto.
Qed.

Lemma animate_cases p :
  let p' := (animate p).1 in
  Player.shootStart p' = Player.shootStart p /\
  Player.meleeCooldown p' = Player.meleeCooldown p /\
  ((Player.animActive p = false /\
    Player.animActive p' = false /\ Player.animType p' = Player.animType p /\
    Player.animSeq p' = Player.animSeq p /\ Player.animTime p' = Player.animTime p)
   \/
   (Player.animActive p = true /\ Player.animTime p < 8 /\
    Player.animActive p' = true /\ Player.animType p' = Player.animType p /\
    Player.animSeq p' = 1 /\ Player.animTime p' = S (Player.animTime p))
   \/
   (Player.animActive p = true /\ 8 <= Player.animTime p /\
    Player.animActive p' = false /\ Player.animType p' = 0 /\
    Player.animSeq p' = 0 /\ Player.animTime p' = 0)).
Proof.
  cbv zeta. unfold animate.
  destruct (Player.animActive p) eqn:Ea; simpl.
  - destruct (Nat.ltb_spec 8 (S (Player.animTime p))) as [Hgt|Hle]; simpl.
    + split; [reflexivity|]. split; [reflexivity|].
      right. right. repeat split; auto; lia.
    + split; [reflexivity|]. split; [reflexivity|].
      right. left. repeat split; auto; lia.
  - split; [reflexivity|]. split; [reflexivity|]. left. repeat split; auto.
Qed.

Lemma finalize_combat g p :
  let p' := finalize g p in
  Player.shootStart p' = Player.shootStart p /\
  Player.meleeCooldown p' = Player.meleeCooldown p /\
  Player.animActive p' = Player.animActive p /\
  Player.animType p' = Player.animType p /\
  Player.animSeq p' = Player.animSeq p /\
  Player.animTime p' = Player.animTime p.
Proof.
  cbv zeta. unfold finalize. split_ifs; simpl; auto 10.
Qed.

(** ** The log *)

Lemma damageBy_app r l1 l2 :
  damageBy r (l1 ++ l2) = damageBy r l1 + damageBy r l2.
Proof. induction l1 as [|e l1 IH]; simpl; [reflexivity|]. rewrite IH. lia. Qed.

Lemma damageBy_strike objs r c r' :
  damageBy r' (strike objs r c) =
  match c with Some _ => if r =? r' then 1 else 0 | None => 0 end.
Proof.
  unfold strike. destruct c as [t|]; [|reflexivity]. simpl.
  destruct (objs !! t) as [x|]; [destruct (isDoorObstacle x)|]; simpl; lia.
Qed.

Lemma damageBy_emit g r p r' : damageBy r' (emit g r p) = 0.
Proof.
  unfold emit. simpl. rewrite damageBy_app.
  assert (H : damageBy r' ((fun k => SendPacket r (Kill k)) <$> kills g) = 0).
  { induction (kills g) as [|k ks IH]; simpl; [reflexivity | assumption]. }
  rewrite H. destruct (aliveCountDirty g); reflexivity.
Qed.

(** The first loop's body seen from the shooting side. *)
Lemma playerStep_cases opt ph tc ts objs r p :
  let res := playerStep opt ph tc ts objs r p in
  Player.shootStart res.1.1 = false /\
  ((Player.shootStart p = true /\ (250 <= tc - Player.meleeCooldown p)%Z /\
    Player.meleeCooldown res.1.1 = ts /\
    res.1.2 = strike objs r
                (scan ph (probe ph r) (Player.id p) 0 objs (-1) None).2)
   \/
   ((Player.shootStart p = false \/ (tc - Player.meleeCooldown p < 250)%Z) /\
    Player.meleeCooldown res.1.1 = Player.meleeCooldown p /\
    res.1.2 = [])).
Proof.
  cbv zeta. unfold playerStep. simpl.
  destruct (movement_combat opt p) as (Mi & Ms & Mc & _). cbv zeta in Mi, Ms, Mc.
  destruct (animate_cases (attack ph tc ts objs r (movement opt p)).1)
    as (As & Ac & _). cbv zeta in As, Ac.
  destruct (attack_cases ph tc ts objs r (movement opt p))
    as (Hs & _ & _ & Hcase). cbv zeta in Hs, Hcase.
  rewrite As, Ac, Hs. split; [reflexivity|].
  rewrite Ms, Mc, Mi in Hcase.
  destruct Hcase as [(H1 & H2 & H3 & _ & _ & _ & H7)|(H1 & H2 & _ & _ & _ & H6)].
  - left. auto.
  - right. auto.
Qed.

(** The first loop's body seen from the animation side. *)
Lemma playerStep_anim opt ph tc ts objs r p :
  let p' := (playerStep opt ph tc ts objs r p).1.1 in
  (Player.animActive p = true -> Player.animTime p < 8 ->
     Player.animActive p' = true /\ Player.animType p' = Player.animType p /\
     Player.animSeq p' = 1 /\ Player.animTime p' = S (Player.animTime p)) /\
  (Player.animActive p = true -> 8 <= Player.animTime p ->
     Player.animActive p' = false /\ Player.animType p' = 0 /\
     Player.animSeq p' = 0 /\ Player.animTime p' = 0) /\
  (Player.animActive p = false -> Player.shootStart p = true ->
   (250 <= tc - Player.meleeCooldown p)%Z ->
     Player.animActive p' = true /\ Player.animType p' = 1 /\
     Player.animSeq p' = 1 /\ Player.animTime p' = 1) /\
  (Player.animActive p = false ->
   Player.shootStart p = false \/ (tc - Player.meleeCooldown p < 250)%Z ->
     Player.animActive p' = false /\ Player.animType p' = Player.animType p /\
     Player.animSeq p' = Player.animSeq p /\
     Player.animTime p' = Player.animTime p).
Proof.
  cbv zeta. unfold playerStep. simpl.
  destruct (movement_combat opt p) as (_ & Ms & Mc & Ma & Mty & Msq & Mt).
  cbv zeta in *.
  destruct (attack_cases ph tc ts objs r (movement opt p))
    as (_ & _ & Hsq & Hatt). cbv zeta in *.
  rewrite Ms, Mc, Ma, Mty, Mt in Hatt. rewrite Msq in Hsq.
  destruct (animate_cases (attack ph tc ts objs r (movement opt p)).1)
    as (_ & _ & Hani). cbv zeta in *.
  set (q := (attack ph tc ts objs r (movement opt p)).1) in *.
  set (q' := (animate q).1) in *.
  assert (Hkeep : Player.animActive p = true ->
            Player.animActive q = true /\ Player.animType q = Player.animType p /\
            Player.animTime q = Player.animTime p).
  { intros Ha.
    destruct Hatt as [(_ & _ & _ & Fa & Fkeep & _)|(_ & _ & Fa & Fty & Ft & _)].
    - destruct (Fkeep Ha). auto.
    - rewrite Fa. auto. }
  assert (Hfire : Player.animActive p = false -> Player.shootStart p = true ->
            (250 <= tc - Player.meleeCooldown p)%Z ->
            Player.animActive q = true /\ Player.animType q = 1 /\
            Player.animTime q = 0).
  { intros Ha Hs Hc.
    destruct Hatt as [(_ & _ & _ & Fa & _ & Fnew & _)|([Hf|Hf] & _)].
    - destruct (Fnew Ha). auto.
    - congruence.
    - lia. }
  assert (Hidle : Player.animActive p = false ->
            Player.shootStart p = false \/ (tc - Player.meleeCooldown p < 250)%Z ->
            Player.animActive q = false /\ Player.animType q = Player.animType p /\
            Player.animTime q = Player.animTime p).
  { intros Ha Hn.
    destruct Hatt as [(Fs & Fc & _)|(_ & _ & Fa & Fty & Ft & _)].
    - destruct Hn; [congruence | lia].
    - rewrite Fa. auto. }
  clear Hatt.
  split; [|split; [|split]].
  - intros Ha Ht. destruct (Hkeep Ha) as (K1 & K2 & K3).
    destruct Hani as [(Q & _)|[(_ & _ & R1 & R2 & R3 & R4)|(_ & Qt & _)]].
    + congruence.
    + repeat split; congruence.
    + lia.
  - intros Ha Ht. destruct (Hkeep Ha) as (K1 & K2 & K3).
    destruct Hani as [(Q & _)|[(_ & Qt & _)|(_ & _ & R1 & R2 & R3 & R4)]].
    + congruence.
    + lia.
    + auto.
  - intros Ha Hs Hc. destruct (Hfire Ha Hs Hc) as (K1 & K2 & K3).
    destruct Hani as [(Q & _)|[(_ & _ & R1 & R2 & R3 & R4)|(_ & Qt & _)]].
    + congruence.
    + repeat split; congruence.
    + lia.
  - intros Ha Hn. destruct (Hidle Ha Hn) as (K1 & K2 & K3).
    destruct Hani as [(_ & R1 & R2 & R3 & R4)|[(Q & _)|(Q & _)]].
    + repeat split; congruence.
    + congruence.
    + congruence.
Qed.

(** ** One player through the loops *)

Lemma playerStep_damage_other opt ph tc ts objs r p r' :
  r <> r' -> damageBy r' (playerStep opt ph tc ts objs r p).1.2 = 0.
Proof.
  intros Hne.
  destruct (playerStep_cases opt ph tc ts objs r p)
    as (_ & [(_ & _ & _ & ->)|(_ & _ & ->)]); [|reflexivity].
  rewrite damageBy_strike.
  destruct (scan _ _ _ _ _ _ _).2; [|reflexivity].
  destruct (Nat.eqb_spec r r'); [contradiction | reflexivity].
Qed.

Lemma playerStep_damage_le opt ph tc ts objs r p r' :
  damageBy r' (playerStep opt ph tc ts objs r p).1.2 <= 1.
Proof.
  destruct (playerStep_cases opt ph tc ts objs r p)
    as (_ & [(_ & _ & _ & ->)|(_ & _ & ->)]); [|simpl; lia].
  rewrite damageBy_strike.
  destruct (scan _ _ _ _ _ _ _).2; [|lia].
  destruct (r =? r'); lia.
Qed.

(** Visiting another reference leaves player [r] and its share of the log
    as they are. *)
Lemma resolve_other opt ph clock k r' st r :
  r' <> r ->
  objects (resolve opt ph clock k r' st).1 !! r = objects st.1 !! r /\
  damageBy r (resolve opt ph clock k r' st).2 = damageBy r st.2.
Proof.
  intros Hne.
  destruct (objects st.1 !! r') as [[p0|o]|] eqn:E.
  - destruct (resolve_unfold opt ph clock k r' st p0 E) as (-> & -> & _).
    split.
    + apply list_lookup_insert_ne. assumption.
    + rewrite damageBy_app, playerStep_damage_other by assumption. lia.
  - rewrite resolve_skip by congruence. auto.
  - rewrite resolve_skip by congruence. auto.
Qed.

Lemma resolveAll_other opt ph clock rs r : forall k st,
  r ∉ rs ->
  objects (resolveAll opt ph clock k rs st).1 !! r = objects st.1 !! r /\
  damageBy r (resolveAll opt ph clock k rs st).2 = damageBy r st.2.
Proof.
  induction rs as [|r' rs IH]; intros k st Hnot; simpl; [auto|].
  apply not_elem_of_cons in Hnot as (Hne & Hnot).
  destruct (IH (S k) (resolve opt ph clock k r' st) Hnot) as (-> & ->).
  apply resolve_other. congruence.
Qed.

(** A player whose flag is down, or whose cooldown has not elapsed at any
    of its visits, logs no damage and keeps its cooldown stamp. *)
Lemma resolveAll_quiet opt ph clock r rs : forall k st p,
  objects st.1 !! r = Some (IsPlayer p) ->
  Player.shootStart p = false \/
    (forall j, rs !! j = Some r ->
       ((clock (k + j)%nat).1 - Player.meleeCooldown p < 250)%Z) ->
  let st' := resolveAll opt ph clock k rs st in
  damageBy r st'.2 = damageBy r st.2 /\
  exists p', objects st'.1 !! r = Some (IsPlayer p') /\
    Player.meleeCooldown p' = Player.meleeCooldown p /\
    (Player.shootStart p = false -> Player.shootStart p' = false).
Proof.
  induction rs as [|r' rs IH]; intros k st p Hp Hq; simpl.
  - split; [reflexivity|]. exists p. auto.
  - destruct (decide (r' = r)) as [->|Hne].
    + destruct (resolve_unfold opt ph clock k r st p Hp) as (Ho & He & _).
      destruct (playerStep_cases opt ph (clock k).1 (clock k).2 (objects st.1) r p)
        as (Hs & Hcase). cbv zeta in *.
      set (res := playerStep opt ph (clock k).1 (clock k).2 (objects st.1) r p) in *.
      assert (Hquiet : Player.meleeCooldown res.1.1 = Player.meleeCooldown p /\
                       res.1.2 = []).
      { destruct Hcase as [(Fs & Fc & _)|(_ & Hc & Hev)]; [|auto].
        exfalso. destruct Hq as [Hq|Hq]; [congruence|].
        specialize (Hq 0 eq_refl). rewrite Nat.add_0_r in Hq. lia. }
      destruct Hquiet as (Hc & Hev).
      assert (Hp1 : objects (resolve opt ph clock k r st).1 !! r
                    = Some (IsPlayer res.1.1)).
      { rewrite Ho. apply list_lookup_insert_eq. eapply lookup_lt_Some; eauto. }
      destruct (IH (S k) _ _ Hp1 (or_introl Hs)) as (Hd & p' & Hp' & Hc' & Hs').
      cbv zeta in *. split.
      * rewrite Hd, He, Hev, app_nil_r. reflexivity.
      * exists p'. split; [assumption|]. split; [congruence|]. auto.
    + destruct (resolve_other opt ph clock k r' st r Hne) as (Ho & He).
      assert (Hp1 : objects (resolve opt ph clock k r' st).1 !! r
                    = Some (IsPlayer p)) by congruence.
      assert (Hq1 : Player.shootStart p = false \/
                (forall j, rs !! j = Some r ->
                   ((clock (S k + j)%nat).1 - Player.meleeCooldown p < 250)%Z)).
      { destruct Hq as [Hq|Hq]; [auto|]. right. intros j Hj.
        specialize (Hq (S j) Hj). replace (S k + j) with (k + S j) by lia.
        assumption. }
      destruct (IH (S k) _ _ Hp1 Hq1) as (Hd & p' & Hp' & Hc' & Hs').
      cbv zeta in *. split; [congruence|]. exists p'. auto.
Qed.

(** Over one pass a player logs at most one [damage] call; if its cooldown
    stamp changed, the attack resolved at one of its visits, where the
    cooldown had elapsed, and the stamp is the clock read there. *)
Lemma resolveAll_once opt ph clock r rs : forall k st p,
  objects st.1 !! r = Some (IsPlayer p) ->
  let st' := resolveAll opt ph clock k rs st in
  exists p', objects st'.1 !! r = Some (IsPlayer p') /\
    ((damageBy r st'.2 = damageBy r st.2 /\
      Player.meleeCooldown p' = Player.meleeCooldown p)
     \/
     (damageBy r st'.2 <= damageBy r st.2 + 1 /\
      exists j, rs !! j = Some r /\
        (250 <= (clock (k + j)%nat).1 - Player.meleeCooldown p)%Z /\
        Player.meleeCooldown p' = (clock (k + j)%nat).2)).
Proof.
  induction rs as [|r' rs IH]; intros k st p Hp; simpl.
  - exists p. auto.
  - destruct (decide (r' = r)) as [->|Hne].
    + destruct (resolve_unfold opt ph clock k r st p Hp) as (Ho & He & _).
      destruct (playerStep_cases opt ph (clock k).1 (clock k).2 (objects st.1) r p)
        as (Hs & Hcase). cbv zeta in *.
      pose proof (playerStep_damage_le opt ph (clock k).1 (clock k).2
                    (objects st.1) r p r) as Hle.
      set (res := playerStep opt ph (clock k).1 (clock k).2 (objects st.1) r p) in *.
      assert (Hp1 : objects (resolve opt ph clock k r st).1 !! r
                    = Some (IsPlayer res.1.1)).
      { rewrite Ho. apply list_lookup_insert_eq. eapply lookup_lt_Some; eauto. }
      destruct Hcase as [(Fs & Fc & Fstamp & _)|(_ & Hc & Hev)].
      * destruct (resolveAll_quiet opt ph clock r rs (S k) _ _ Hp1 (or_introl Hs))
          as (Hd & p' & Hp' & Hc' & _). cbv zeta in *.
        exists p'. split; [assumption|]. right. split.
        -- rewrite Hd, He, damageBy_app. lia.
        -- exists 0. rewrite Nat.add_0_r. split; [reflexivity|].
           split; [assumption | congruence].
      * destruct (IH (S k) _ _ Hp1) as (p' & Hp' & Hres). cbv zeta in *.
        exists p'. split; [assumption|].
        rewrite He, Hev, app_nil_r, Hc in Hres.
        destruct Hres as [(Hd & Hc')|(Hd & j & Hj & Hcd & Hst)].
        -- left. auto.
        -- right. split; [assumption|]. exists (S j).
           replace (k + S j) with (S k + j) by lia. auto.
    + destruct (resolve_other opt ph clock k r' st r Hne) as (Ho & He).
      assert (Hp1 : objects (resolve opt ph clock k r' st).1 !! r
                    = Some (IsPlayer p)) by congruence.
      destruct (IH (S k) _ _ Hp1) as (p' & Hp' & Hres). cbv zeta in *.
      exists p'. split; [assumption|]. rewrite He in Hres.
      destruct Hres as [(Hd & Hc')|(Hd & j & Hj & Hcd & Hst)].
      * left. auto.
      * right. split; [assumption|]. exists (S j).
        replace (k + S j) with (S k + j) by lia. auto.
Qed.

Lemma sameCombat_refl p : sameCombat p p.
Proof. unfold sameCombat. auto 10. Qed.

Lemma sameCombat_trans p q s : sameCombat p q -> sameCombat q s -> sameCombat p s.
Proof.
  unfold sameCombat. intros (a1 & a2 & a3 & a4 & a5 & a6) (b1 & b2 & b3 & b4 & b5 & b6).
  repeat split; congruence.
Qed.

Lemma broadcastAll_damage r rs : forall st,
  damageBy r (broadcastAll rs st).2 = damageBy r st.2.
Proof.
  induction rs as [|r' rs IH]; intros st; simpl; [reflexivity|].
  rewrite IH.
  destruct (objects st.1 !! r') as [[p0|o]|] eqn:E.
  - rewrite (broadcast_unfold r' st p0 E). simpl.
    rewrite damageBy_app, damageBy_emit. lia.
  - rewrite broadcast_skip by congruence. reflexivity.
  - rewrite broadcast_skip by congruence. reflexivity.
Qed.

Lemma broadcastAll_combat rs st r p :
  objects st.1 !! r = Some (IsPlayer p) ->
  exists p', objects (broadcastAll rs st).1 !! r = Some (IsPlayer p') /\
    sameCombat p p'.
Proof.
  apply (broadcastAll_lifted sameCombat sameCombat_refl sameCombat_trans).
  intros g0 p0. apply finalize_combat.
Qed.

(** ** One player through a whole tick *)

Lemma tick_once_at_most opt ph clock g r p :
  objects g !! r = Some (IsPlayer p) ->
  let res := tick opt ph clock g in
  exists p', objects res.1 !! r = Some (IsPlayer p') /\
    ((damageBy r res.2 = 0 /\
      Player.meleeCooldown p' = Player.meleeCooldown p)
     \/
     (damageBy r res.2 <= 1 /\
      exists j, activePlayers g !! j = Some r /\
        (250 <= (clock j).1 - Player.meleeCooldown p)%Z /\
        Player.meleeCooldown p' = (clock j).2)).
Proof.
  intros Hp. cbv zeta. unfold tick, broadcastPass, resolverPass. simpl.
  destruct (resolveAll_once opt ph clock r (activePlayers g) 0 (g, []) p Hp)
    as (p1 & Hp1 & Hres). cbv zeta in *. simpl in Hres.
  set (st1 := resolveAll opt ph clock 0 (activePlayers g) (g, [])) in *.
  destruct (broadcastAll_combat (connectedPlayers st1.1) st1 r p1 Hp1)
    as (p' & Hp' & (_ & Hc & _)).
  exists p'. split; [assumption|].
  rewrite broadcastAll_damage, Hc. assumption.
Qed.

Lemma tick_quiet opt ph clock g r p :
  objects g !! r = Some (IsPlayer p) ->
  Player.shootStart p = false \/
    (forall j, activePlayers g !! j = Some r ->
       ((clock j).1 - Player.meleeCooldown p < 250)%Z) ->
  let res := tick opt ph clock g in
  damageBy r res.2 = 0 /\
  exists p', objects res.1 !! r = Some (IsPlayer p') /\
    Player.meleeCooldown p' = Player.meleeCooldown p /\
    (Player.shootStart p = false -> Player.shootStart p' = false).
Proof.
  intros Hp Hq. cbv zeta. unfold tick, broadcastPass, resolverPass. simpl.
  destruct (resolveAll_quiet opt ph clock r (activePlayers g) 0 (g, []) p Hp Hq)
    as (Hd & p1 & Hp1 & Hc1 & Hs1). cbv zeta in *. simpl in Hd.
  set (st1 := resolveAll opt ph clock 0 (activePlayers g) (g, [])) in *.
  destruct (broadcastAll_combat (connectedPlayers st1.1) st1 r p1 Hp1)
    as (p' & Hp' & (Hs & Hc & _)).
  split; [rewrite broadcastAll_damage; assumption|].
  exists p'. split; [assumption|]. split; [congruence|].
  intros H. rewrite Hs. auto.
Qed.

Lemma staysUnarmed_step opt ph tc ts objs r p :
  staysUnarmed p (playerStep opt ph tc ts objs r p).1.1.
Proof.
  intros _. destruct (playerStep_cases opt ph tc ts objs r p) as (H & _).
  exact H.
Qed.

Lemma staysUnarmed_finalize g p : staysUnarmed p (finalize g p).
Proof.
  intros H. destruct (finalize_combat g p) as (Hs & _). cbv zeta in Hs. congruence.
Qed.

Lemma run_S opt phs clocks n g :
  run opt phs clocks (S n) g =
  ((tick opt (phs n) (clocks n) (run opt phs clocks n g).1).1,
   (run opt phs clocks n g).2
   ++ (tick opt (phs n) (clocks n) (run opt phs clocks n g).1).2).
Proof. reflexivity. Qed.

(** Several ticks in a row for a player whose flag is down. *)
Lemma run_quiet opt phs clocks g r p :
  objects g !! r = Some (IsPlayer p) ->
  Player.shootStart p = false ->
  forall n,
    damageBy r (run opt phs clocks n g).2 = 0 /\
    exists pn, objects (run opt phs clocks n g).1 !! r = Some (IsPlayer pn) /\
      Player.shootStart pn = false /\
      Player.meleeCooldown pn = Player.meleeCooldown p.
Proof.
  intros Hp Hs. induction n as [|n IH].
  - split; [reflexivity|]. exists p. auto.
  - destruct IH as (Hd & pn & Hpn & Hsn & Hcn).
    destruct (tick_quiet opt (phs n) (clocks n) _ r pn Hpn (or_introl Hsn))
      as (Hd' & p' & Hp' & Hc' & Hs').
    cbv zeta in *. rewrite run_S. cbn [fst snd]. split.
    + rewrite damageBy_app. lia.
    + exists p'. split; [assumption|]. split; [auto | congruence].
Qed.

Lemma run_activePlayers opt phs clocks g n :
  activePlayers (run opt phs clocks n g).1 = activePlayers g.
Proof.
  induction n as [|n IH]; [reflexivity|].
  rewrite run_S. cbn [fst snd]. rewrite tick_activePlayers. exact IH.
Qed.

(** A player held once by [activePlayers] goes through the loop body once
    per tick, at the position it has in the array. *)
Lemma tick_visit_once opt ph clock g r p l1 l2 :
  activePlayers g = l1 ++ r :: l2 -> r ∉ l1 -> r ∉ l2 ->
  objects g !! r = Some (IsPlayer p) ->
  exists objs p',
    objects (tick opt ph clock g).1 !! r = Some (IsPlayer p') /\
    sameCombat
      (playerStep opt ph (clock (length l1)).1 (clock (length l1)).2 objs r p).1.1
      p'.
Proof.
  intros Hl Hn1 Hn2 Hp.
  unfold tick, broadcastPass, resolverPass. simpl. rewrite Hl.
  rewrite resolveAll_app. simpl.
  destruct (resolveAll_other opt ph clock l1 r 0 (g, []) Hn1) as (Ho1 & _).
  set (st1 := resolveAll opt ph clock 0 l1 (g, [])) in *.
  assert (Hp1 : objects st1.1 !! r = Some (IsPlayer p)).
  { rewrite Ho1. exact Hp. }
  destruct (resolve_unfold opt ph clock (length l1) r st1 p Hp1) as (Ho & _).
  set (st2 := resolve opt ph clock (length l1) r st1) in *.
  destruct (resolveAll_other opt ph clock l2 r (S (length l1)) st2 Hn2) as (Ho2 & _).
  set (st3 := resolveAll opt ph clock (S (length l1)) l2 st2) in *.
  set (p2 := (playerStep opt ph (clock (length l1)).1 (clock (length l1)).2
                (objects st1.1) r p).1.1) in *.
  assert (Hp3 : objects st3.1 !! r = Some (IsPlayer p2)).
  { rewrite Ho2, Ho. apply list_lookup_insert_eq. eapply lookup_lt_Some; eauto. }
  destruct (broadcastAll_combat (connectedPlayers st3.1) st3 r p2 Hp3)
    as (p' & Hp' & Hsame).
  exists (objects st1.1), p'. split; assumption.
Qed.

(** ** Claims about the tick and the lifecycle *)

(** C5.  After a tick, the velocity written for an active player is the
    entry of the movement table for its four direction flags and depends on
    nothing else: up and left held give [(-diagonalSpeed, diagonalSpeed)],
    down alone gives [(0, -movementSpeed)], no flag gives [(0, 0)], and the
    remaining combinations follow [velocityTable], in which the diagonals
    are tried before the single directions.  The tick leaves the flags as
    they were. *)
Theorem movement_velocity_table opt ph clock g r p :
  r ∈ activePlayers g ->
  objects g !! r = Some (IsPlayer p) ->
  exists p',
    objects (tick opt ph clock g).1 !! r = Some (IsPlayer p') /\
    sameIntent p p' /\
    Player.velocity p' =
      velocityTable opt (Player.movingUp p) (Player.movingDown p)
        (Player.movingLeft p) (Player.movingRight p) /\
    (Player.movingUp p = true -> Player.movingLeft p = true ->
     Player.velocity p' = (- diagonalSpeed opt, diagonalSpeed opt)%Q) /\
    (Player.movingUp p = false -> Player.movingDown p = true ->
     Player.movingLeft p = false -> Player.movingRight p = false ->
     Player.velocity p' = (0, - movementSpeed opt)%Q) /\
    (Player.movingUp p = false -> Player.movingDown p = false ->
     Player.movingLeft p = false -> Player.movingRight p = false ->
     Player.velocity p' = (0, 0)%Q).
Proof.
  intros Hin Hp.
  destruct (tick_visited (keepsVelocity opt) (keepsVelocity_refl opt)
              (keepsVelocity_trans opt) opt (keepsVelocity_step opt)
              (keepsVelocity_finalize opt) ph clock g r p Hin Hp)
    as (p1 & k & objs & p' & R1 & R2 & Hp').
  exists p'. split; [assumption|].
  destruct R1 as (I1 & _). destruct R2 as (I2 & V2).
  destruct (playerStep_motion opt ph (clock k).1 (clock k).2 objs r p1)
    as (I3 & V3). cbv zeta in *.
  assert (Hi : sameIntent p p').
  { destruct I1 as (a1 & a2 & a3 & a4), I2 as (b1 & b2 & b3 & b4),
      I3 as (c1 & c2 & c3 & c4).
    unfold sameIntent. repeat split; congruence. }
  assert (Hv : Player.velocity p' = tableVelocity opt p).
  { rewrite V2.
    - apply tableVelocity_sameIntent. assumption.
    - rewrite V3. symmetry. apply tableVelocity_sameIntent. assumption. }
  split; [assumption|]. split; [exact Hv|].
  unfold tableVelocity, velocityTable in Hv.
  repeat split; intros; rewrite Hv;
    repeat match goal with H : _ = _ :> bool |- _ => rewrite H; clear H end;
    reflexivity.
Qed.

Lemma movement_velocity_table_witness :
  exists p',
    objects (tick Demo.opt Demo.brawl Demo.clock0 Demo.arena).1 !! 2
      = Some (IsPlayer p') /\
    Player.velocity p' = (- (2 # 10), 2 # 10)%Q.
Proof.
  destruct (movement_velocity_table Demo.opt Demo.brawl Demo.clock0
              Demo.arena 2 Demo.alice) as (p' & Hp' & _ & _ & Hv & _).
  - vm_compute. apply list_elem_of_here.
  - reflexivity.
  - exists p'. split; [exact Hp'|]. apply Hv; reflexivity.
Defined.

(** C9, as the code has it.  When the timer callback returns, emotes,
    explosions, kills, both dirty-object lists, the dirty-players list and
    the deleted-ids list are empty and the alive-count flag is down; a tick
    that follows another tick directly therefore starts from empty buffers.
    Entries do cross into the next tick when a lifecycle call comes in
    between: [addPlayer] leaves the newcomer in [dirtyPlayers] and in
    [fullDirtyObjects] and raises the flag, [removePlayer] leaves the
    leaver's identity in [deletedPlayerIds] and [partialDirtyObjects]. *)
Theorem tick_resets_transient_buffers opt ph clock g :
  let g' := (tick opt ph clock g).1 in
  transientEmpty g' /\
  (forall opt2 ph2 clock2, transientEmpty (tick opt2 ph2 clock2 g').1) /\
  (forall fresh,
     let g2 := (addPlayer fresh g').1 in
     fullDirtyObjects g2 = [length (objects g')] /\
     dirtyPlayers g2 = [length (objects g')] /\
     aliveCountDirty g2 = true) /\
  (forall r p, objects g' !! r = Some (IsPlayer p) ->
     let g2 := removePlayer r g' in
     deletedPlayerIds g2 = [Player.id p] /\
     partialDirtyObjects g2 = [Player.id p]).
Proof.
  cbv zeta. split; [apply tick_transientEmpty|].
  split; [intros; apply tick_transientEmpty|].
  split.
  - intros fresh. simpl. auto.
  - intros r p Hp.
    destruct (removePlayer_unfold r _ p Hp) as (_ & _ & _ & _ & Hd & Hq & _).
    cbv zeta in *. rewrite Hd, Hq. simpl. auto.
Qed.

Lemma tick_resets_transient_buffers_witness :
  transientEmpty (tick Demo.opt Demo.brawl Demo.clock0 Demo.arena).1 /\
  partialDirtyObjects
    (removePlayer 3 (tick Demo.opt Demo.brawl Demo.clock0 Demo.arena).1) = [3].
Proof.
  destruct (tick_resets_transient_buffers Demo.opt Demo.brawl Demo.clock0
              Demo.arena) as (He & _ & _ & Hr).
  split; [exact He|].
  destruct (Hr 3 Demo.bob_after) as (_ & Hq); [vm_compute; reflexivity | exact Hq].
Defined.

(** C9, counterexample to the claim as worded: a tick need not begin with
    empty buffers.  A player joins the fresh session before the first tick
    fires, and that tick begins with the newcomer in [fullDirtyObjects]. *)
Lemma tick_may_begin_with_staged_entries :
  ~ (forall g, reachable g -> transientEmpty g).
Proof.
  intros H.
  assert (Hr : reachable Demo.joined).
  { apply reach_add, reach_new. }
  destruct (H _ Hr) as (_ & _ & _ & Hf & _).
  discriminate Hf.
Qed.

(** C3, as the code has it.  [aliveCount] equals the number of entries of
    [activePlayers] whose [dead] flag is down in a fresh session, after
    every [addPlayer], and after every [removePlayer(p)] whose player is
    still held by [activePlayers] or is already dead.  (Each step assumes
    the equality held before it and that [activePlayers] only refers to
    players of the registry, which every step keeps true as well.) *)
Theorem aliveCount_counts_living_active g :
  activeResolved g -> aliveCountExact g ->
  (forall objs, aliveCountExact (newGame objs) /\ activeResolved (newGame objs)) /\
  (forall fresh,
     aliveCountExact (addPlayer fresh g).1 /\
     activeResolved (addPlayer fresh g).1) /\
  (forall r p, objects g !! r = Some (IsPlayer p) ->
     r ∈ activePlayers g \/ Player.dead p = true ->
     aliveCountExact (removePlayer r g) /\
     activeResolved (removePlayer r g)).
Proof.
  intros Hres Hex. split; [|split].
  - intros objs. split; [reflexivity|]. intros r Hr. inversion Hr.
  - intros fresh. unfold aliveCountExact, activeResolved. simpl. split.
    + rewrite countAlive_app. simpl.
      rewrite (countAlive_ext (objects g)).
      * unfold isAlive. rewrite list_lookup_middle by reflexivity. simpl.
        unfold aliveCountExact in Hex. lia.
      * intros r Hr. apply isAlive_app_l.
        destruct (Hres r Hr) as (q & Hq). eapply lookup_lt_Some; eauto.
    + intros r Hr. apply elem_of_app in Hr as [Hr|Hr].
      * destruct (Hres r Hr) as (q & Hq). exists q.
        rewrite lookup_app_l by (eapply lookup_lt_Some; eauto). assumption.
      * apply list_elem_of_singleton in Hr as ->.
        eexists. apply list_lookup_middle. reflexivity.
  - intros r p Hp Hcase.
    destruct (removePlayer_unfold r g p Hp) as (Ho & Ha & _ & Hc & _).
    cbv zeta in *. unfold aliveCountExact, activeResolved.
    rewrite Ho, Ha, Hc. split.
    + rewrite (countAlive_ext (objects g))
        by (intros; eapply isAlive_insert_same_dead; eauto).
      unfold aliveCountExact in Hex.
      destruct (decide (r ∈ activePlayers g)) as [Hin|Hout].
      * rewrite (countAlive_removeFrom _ _ r Hin) in Hex.
        unfold isAlive in Hex. rewrite Hp in Hex.
        destruct (Player.dead p); simpl in Hex; lia.
      * destruct Hcase as [Hin|Hd]; [contradiction|].
        rewrite Hd, removeFrom_absent by assumption. assumption.
    + intros r' Hr'. apply removeFrom_subset in Hr'.
      destruct (Hres r' Hr') as (q & Hq).
      destruct (decide (r = r')) as [->|Hne].
      * eexists. apply list_lookup_insert_eq. eapply lookup_lt_Some; eauto.
      * exists q. rewrite list_lookup_insert_ne; assumption.
Qed.

Lemma aliveCount_counts_living_active_witness :
  aliveCountExact (addPlayer Demo.fresh Demo.arena).1 /\
  aliveCountExact (removePlayer 3 Demo.arena).
Proof.
  assert (Hres : activeResolved Demo.arena).
  { intros r Hr. vm_compute in Hr.
    apply elem_of_cons in Hr as [->|Hr]; [eexists; reflexivity|].
    apply list_elem_of_singleton in Hr as ->. eexists; reflexivity. }
  assert (Hex : aliveCountExact Demo.arena) by reflexivity.
  destruct (aliveCount_counts_living_active Demo.arena Hres Hex)
    as (_ & Hadd & Hrem).
  split.
  - apply (Hadd Demo.fresh).
  - apply (Hrem 3 Demo.bob); [reflexivity|].
    left. vm_compute. apply list_elem_of_further, list_elem_of_here.
Defined.

(** C3, counterexample to the claim as worded: one player joins a fresh
    session and [removePlayer] is called for it twice.  After the second
    call [activePlayers] is empty, so no active player is alive, yet
    [aliveCount] is [-1]. *)
Lemma aliveCount_wrong_after_second_removal :
  let g := removePlayer 0 (removePlayer 0 Demo.joined) in
  reachable g /\
  activePlayers g = [] /\
  countAlive (objects g) (activePlayers g) = 0 /\
  aliveCount g = (-1)%Z /\
  ~ aliveCountExact g.
Proof.
  cbv zeta. split; [do 2 apply reach_remove; apply reach_add, reach_new|].
  split; [reflexivity|]. split; [reflexivity|]. split; [reflexivity|].
  unfold aliveCountExact. vm_compute. discriminate.
Qed.

(** C4, as the code has it.  The only state [removePlayer] consults is the
    player's [dead] flag, which it never sets: for a player that is already
    dead neither of two successive calls changes [aliveCount]; for a player
    that is not dead each of the two calls takes one off. *)
Theorem removePlayer_twice_aliveCount g r p :
  objects g !! r = Some (IsPlayer p) ->
  let g1 := removePlayer r g in
  let g2 := removePlayer r g1 in
  (Player.dead p = true ->
     aliveCount g1 = aliveCount g /\ aliveCount g2 = aliveCount g) /\
  (Player.dead p = false ->
     aliveCount g1 = (aliveCount g - 1)%Z /\
     aliveCount g2 = (aliveCount g - 2)%Z).
Proof.
  intros Hp. cbv zeta.
  destruct (removePlayer_unfold r g p Hp) as (Ho & _ & _ & Hc & _).
  cbv zeta in *.
  assert (Hp1 : objects (removePlayer r g) !! r =
     Some (IsPlayer (Player.set_quit true (Player.set_direction (1, 0)%Q p)))).
  { rewrite Ho. apply list_lookup_insert_eq. eapply lookup_lt_Some; eauto. }
  destruct (removePlayer_unfold r _ _ Hp1) as (_ & _ & _ & Hc2 & _).
  cbv zeta in *. simpl in Hc2. rewrite Hc2, Hc.
  split; intros Hd; rewrite Hd; split; lia.
Qed.

Lemma removePlayer_twice_aliveCount_witness :
  aliveCount (removePlayer 3 Demo.arena) = 1%Z /\
  aliveCount (removePlayer 3 (removePlayer 3 Demo.arena)) = 0%Z.
Proof.
  destruct (removePlayer_twice_aliveCount Demo.arena 3 Demo.bob eq_refl)
    as (_ & H).
  exact (H eq_refl).
Defined.

(** C4, counterexample to the claim as worded: the second of two
    successive [removePlayer] calls for a living player is not a no-op on
    [aliveCount]; it goes from 1 to 0 and then to -1. *)
Lemma second_removePlayer_decrements_again :
  aliveCount Demo.joined = 1%Z /\
  aliveCount (removePlayer 0 Demo.joined) = 0%Z /\
  aliveCount (removePlayer 0 (removePlayer 0 Demo.joined)) = (-1)%Z /\
  ~ (forall g r,
       aliveCount (removePlayer r (removePlayer r g)) =
       aliveCount (removePlayer r g)).
Proof.
  split; [reflexivity|]. split; [reflexivity|]. split; [reflexivity|].
  intros H. specialize (H Demo.joined 0). vm_compute in H. discriminate H.
Qed.

(** C1, as the code has it.  Over one tick every player keeps its identity
    and its visibility set, its two private buffers only grow, and every
    identity appended is the player's own identity or a member of its
    visibility set.  The own identity comes from the first loop, which
    pushes [p.id] for each active player without consulting
    [visibleObjects]; the broadcast pass on its own appends members of the
    visibility set only. *)
Theorem buffers_grow_by_own_or_visible opt ph clock g r p :
  objects g !! r = Some (IsPlayer p) ->
  (exists p',
     objects (tick opt ph clock g).1 !! r = Some (IsPlayer p') /\
     grows ownOrVisible p p') /\
  (forall ev, exists p',
     objects (broadcastPass (g, ev)).1 !! r = Some (IsPlayer p') /\
     grows visibleOnly p p').
Proof.
  intros Hp. split.
  - apply (tick_lifted (grows ownOrVisible) (grows_refl _) (grows_trans _) opt);
      [intros; apply playerStep_grows | | assumption].
    intros g0 p0. eapply grows_weaken; [|apply finalize_grows].
    intros me vis i H. right. exact H.
  - intros ev.
    apply (broadcastAll_lifted (grows visibleOnly) (grows_refl _) (grows_trans _)
             finalize_grows (connectedPlayers g) (g, ev) r p Hp).
Qed.

Lemma buffers_grow_by_own_or_visible_witness :
  exists p',
    objects (tick Demo.opt Demo.brawl Demo.clock0 Demo.arena).1 !! 3
      = Some (IsPlayer p') /\
    grows ownOrVisible Demo.bob p'.
Proof.
  destruct (buffers_grow_by_own_or_visible Demo.opt Demo.brawl Demo.clock0
              Demo.arena 3 Demo.bob eq_refl) as (H & _).
  exact H.
Defined.

(** C1, counterexample to the claim as worded: the player that has just
    joined sees nothing, and the first tick appends its own identity 0 to
    its [partialObjects] and sends it in the update packet. *)
Lemma own_identity_appended_outside_visibility :
  exists p p' sent,
    objects Demo.joined !! 0 = Some (IsPlayer p) /\
    tick Demo.opt Demo.apart Demo.clock0 Demo.joined = sent /\
    objects sent.1 !! 0 = Some (IsPlayer p') /\
    Player.visibleObjects p = [] /\
    Player.visibleObjects p' = [] /\
    Player.partialObjects p = [] /\
    Player.partialObjects p' = [0] /\
    (0 ∉ Player.visibleObjects p') /\
    SendPacket 0 (UpdatePacket [0] [0]) ∈ sent.2.
Proof.
  eexists _, _, _.
  split; [reflexivity|]. split; [reflexivity|]. split; [reflexivity|].
  split; [reflexivity|]. split; [reflexivity|]. split; [reflexivity|].
  split; [reflexivity|]. split.
  - vm_compute. apply not_elem_of_nil.
  - vm_compute. apply list_elem_of_here.
Qed.

(** C2, as the code has it.  If the tick starts with the two session lists
    disjoint, and the active players have pairwise distinct identities none
    of which is in either list -- in particular if it starts with both lists
    empty, as a tick that directly follows another one does -- then the lists
    are disjoint when the broadcast pass starts, and the broadcast pass
    leaves them as they are. *)
Theorem dirty_lists_disjoint_at_broadcast opt ph clock g :
  disjointIds (fullDirtyObjects g) (partialDirtyObjects g) ->
  NoDup (visitedIds (objects g) (activePlayers g)) ->
  (forall i, i ∈ visitedIds (objects g) (activePlayers g) ->
     (i ∉ fullDirtyObjects g) /\ (i ∉ partialDirtyObjects g)) ->
  let st := resolverPass opt ph clock g in
  disjointIds (fullDirtyObjects st.1) (partialDirtyObjects st.1) /\
  fullDirtyObjects (broadcastPass st).1 = fullDirtyObjects st.1 /\
  partialDirtyObjects (broadcastPass st).1 = partialDirtyObjects st.1.
Proof.
  intros Hd Hnd Hout. cbv zeta. split.
  - apply (resolveAll_disjoint opt ph clock (activePlayers g) 0 (g, []));
      assumption.
  - destruct (broadcastAll_frame
                (connectedPlayers (resolverPass opt ph clock g).1)
                (resolverPass opt ph clock g)) as (_ & _ & _ & HF & HP & _).
    split; assumption.
Qed.

Lemma dirty_lists_disjoint_at_broadcast_witness :
  let st := resolverPass Demo.opt Demo.brawl Demo.clock0 Demo.arena in
  fullDirtyObjects st.1 = [2] /\ partialDirtyObjects st.1 = [3] /\
  disjointIds (fullDirtyObjects st.1) (partialDirtyObjects st.1).
Proof.
  cbv zeta. split; [reflexivity|]. split; [reflexivity|].
  apply (dirty_lists_disjoint_at_broadcast Demo.opt Demo.brawl Demo.clock0
           Demo.arena).
  - intros i Hi. vm_compute in Hi. inversion Hi.
  - vm_compute. repeat constructor.
    + intros H. apply list_elem_of_singleton in H. discriminate H.
    + apply not_elem_of_nil.
  - intros i _. vm_compute. split; apply not_elem_of_nil.
Defined.

(** C2, counterexample to the claim as worded.  [addPlayer] puts the
    newcomer's identity in [fullDirtyObjects] before the tick; the first
    loop of the next tick finds the newcomer idle and puts the same identity
    in [partialDirtyObjects].  The same happens without the help of the
    loop when the newcomer leaves again before the tick. *)
Lemma identity_in_both_dirty_lists :
  let st := resolverPass Demo.opt Demo.apart Demo.clock0 Demo.joined in
  let st' := resolverPass Demo.opt Demo.apart Demo.clock0
               (removePlayer 0 Demo.joined) in
  reachable Demo.joined /\
  fullDirtyObjects st.1 = [0] /\ partialDirtyObjects st.1 = [0] /\
  ~ disjointIds (fullDirtyObjects st.1) (partialDirtyObjects st.1) /\
  reachable (removePlayer 0 Demo.joined) /\
  fullDirtyObjects st'.1 = [0] /\ partialDirtyObjects st'.1 = [0].
Proof.
  cbv zeta. split; [apply reach_add, reach_new|].
  split; [reflexivity|]. split; [reflexivity|]. split.
  - intros H. apply (H 0); vm_compute; apply list_elem_of_here.
  - split; [apply reach_remove, reach_add, reach_new|].
    split; reflexivity.
Qed.

(** C7.  When an attack of player [r] resolves (the flag is set and the
    cooldown has elapsed), the probe is compared with the registry entries
    that have a body, are not dead, do not carry the attacker's identity and
    are players or destructible obstacles.  If none of them overlaps the
    probe, nothing is logged.  Otherwise exactly one [damage] call is
    logged: 24 points, attributed to [r], on the overlapping entry of
    greatest penetration depth, the first one in registry order among
    equals (followed by [interact] when that entry is a door).  Penetration
    depths are taken to be non-negative, as the physics engine reports
    them. *)
Theorem melee_hits_first_deepest opt ph clock k r g log p :
  depthsNonNegative ph ->
  objects g !! r = Some (IsPlayer p) ->
  Player.shootStart p = true ->
  (250 <= (clock k).1 - Player.meleeCooldown p)%Z ->
  let log' := (resolve opt ph clock k r (g, log)).2 in
  let hit := overlaps ph (probe ph r) (Player.id p) in
  ((forall j y e, objects g !! j = Some y -> ~ hit y e) /\ log' = log)
  \/
  (exists t x d,
     objects g !! t = Some x /\ hit x d /\
     (forall j y e, objects g !! j = Some y -> hit y e -> (e <= d)%Q) /\
     (forall j y e, j < t -> objects g !! j = Some y -> hit y e -> (e < d)%Q) /\
     log' = log ++ Damage t 24 r ::
                   (if isDoorObstacle x then [Interact t r] else []) /\
     damageBy r log' = damageBy r log + 1).
Proof.
  intros Hnn Hp Hs Hcd. cbv zeta.
  destruct (resolve_unfold opt ph clock k r (g, log) p Hp) as (_ & -> & _).
  unfold playerStep. simpl.
  destruct (movement_combat opt p) as (Mi & Ms & Mc & _). cbv zeta in Mi, Ms, Mc.
  destruct (attack_cases ph (clock k).1 (clock k).2 (objects g) r (movement opt p))
    as (_ & _ & _ & [(_ & _ & _ & _ & _ & _ & ->)|([Hf|Hlt] & _)]).
  2:{ congruence. }
  2:{ rewrite Mc in Hlt. lia. }
  rewrite Mi.
  destruct (scan_spec ph (probe ph r) (Player.id p) (objects g) 0 (-1)%Q None)
    as [(-> & Hle)|(t & x & d & Ht & Hx & -> & Hm & Hle & Hlt)].
  - left. simpl. split; [|apply app_nil_r].
    intros j y e Hj Hy.
    assert (H0 : (0 <= e)%Q).
    { apply overlaps_iff in Hy as (b & _ & _ & _ & _ & Hc). exact (Hnn _ _ _ Hc). }
    specialize (Hle j y e Hj Hy). lra.
  - right. exists t, x, d. simpl. rewrite Ht.
    repeat split; try assumption.
    rewrite damageBy_app. simpl. rewrite Nat.eqb_refl.
    destruct (isDoorObstacle x); simpl; lia.
Qed.

Lemma melee_hits_first_deepest_witness :
  let log' := (resolve Demo.opt Demo.brawl Demo.clock0 0 2 (Demo.arena, [])).2 in
  log' = [Damage 1 24 2; Interact 1 2] /\
  (((forall j y e, objects Demo.arena !! j = Some y ->
       ~ overlaps Demo.brawl 102 2 y e) /\ log' = [])
   \/
   (exists t x d,
     objects Demo.arena !! t = Some x /\ overlaps Demo.brawl 102 2 x d /\
     (forall j y e, objects Demo.arena !! j = Some y ->
        overlaps Demo.brawl 102 2 y e -> (e <= d)%Q) /\
     (forall j y e, j < t -> objects Demo.arena !! j = Some y ->
        overlaps Demo.brawl 102 2 y e -> (e < d)%Q) /\
     log' = [] ++ Damage t 24 2 ::
                  (if isDoorObstacle x then [Interact t 2] else []) /\
     damageBy 2 log' = damageBy 2 [] + 1)).
Proof.
  cbv zeta. split; [reflexivity|].
  apply (melee_hits_first_deepest Demo.opt Demo.brawl Demo.clock0 0 2
           Demo.arena [] Demo.alice).
  - intros a b d H. unfold Demo.brawl in H. simpl in H.
    destruct (a =? 102); [|discriminate].
    destruct (b =? 10); [inversion H; subst; unfold Qle; simpl; lia|].
    destruct (b =? 11); [inversion H; subst; unfold Qle; simpl; lia|].
    destruct (b =? 13); [inversion H; subst; unfold Qle; simpl; lia|].
    discriminate.
  - reflexivity.
  - reflexivity.
  - vm_compute. discriminate.
Defined.

(** C6.  Two ticks visit player [r]; between them anything may happen to
    the session as long as the player's cooldown stamp is left alone (in
    particular its shooting flag may be raised again).  If every visit of
    the second tick comes less than 250 ms after every visit of the first,
    and the clock does not run backwards between the cooldown test and the
    stamping, then the two ticks together log at most one [damage] call
    attributed to [r].  A [damage] call in the first tick means that at
    one of the player's visits at least 250 ms had passed since the stored
    stamp, and that the stamp is now the clock read at that visit. *)
Theorem melee_cooldown_one_damage opt ph1 ph2 clock1 clock2 g g' r p q :
  objects g !! r = Some (IsPlayer p) ->
  objects g' !! r = Some (IsPlayer q) ->
  let res1 := tick opt ph1 clock1 g in
  let res2 := tick opt ph2 clock2 g' in
  (forall p1, objects res1.1 !! r = Some (IsPlayer p1) ->
     Player.meleeCooldown q = Player.meleeCooldown p1) ->
  (forall i, activePlayers g !! i = Some r ->
     ((clock1 i).1 <= (clock1 i).2)%Z) ->
  (forall i j, activePlayers g !! i = Some r -> activePlayers g' !! j = Some r ->
     ((clock2 j).1 - (clock1 i).1 < 250)%Z) ->
  damageBy r res1.2 + damageBy r res2.2 <= 1 /\
  (0 < damageBy r res1.2 ->
   exists i p1,
     activePlayers g !! i = Some r /\
     (250 <= (clock1 i).1 - Player.meleeCooldown p)%Z /\
     objects res1.1 !! r = Some (IsPlayer p1) /\
     Player.meleeCooldown p1 = (clock1 i).2).
Proof.
  intros Hp Hq. cbv zeta. intros Hsame Hmono Hclose.
  destruct (tick_once_at_most opt ph1 clock1 g r p Hp) as (p1 & Hp1 & H1).
  destruct (tick_once_at_most opt ph2 clock2 g' r q Hq) as (p2 & Hp2 & H2).
  cbv zeta in *.
  destruct H1 as [(Hd1 & _)|(Hd1 & i & Hi & Hcd & Hst)].
  - split; [|lia]. rewrite Hd1. destruct H2 as [(-> & _)|(Hd2 & _)]; lia.
  - split.
    + assert (Hquiet : forall j, activePlayers g' !! j = Some r ->
                ((clock2 j).1 - Player.meleeCooldown q < 250)%Z).
      { intros j Hj. rewrite (Hsame p1 Hp1), Hst.
        specialize (Hmono i Hi). specialize (Hclose i j Hi Hj). lia. }
      destruct (tick_quiet opt ph2 clock2 g' r q Hq (or_intror Hquiet)) as (Hd2 & _).
      cbv zeta in Hd2. lia.
    + intros _. exists i, p1. auto.
Qed.

Lemma melee_cooldown_one_damage_witness :
  let res1 := tick Demo.opt Demo.brawl Demo.clock0 Demo.arena in
  let res2 := tick Demo.opt Demo.brawl Demo.clock1 (Demo.shoot 2 res1.1) in
  damageBy 2 res1.2 = 1 /\ damageBy 2 res2.2 = 0 /\
  damageBy 2 res1.2 + damageBy 2 res2.2 <= 1.
Proof.
  cbv zeta. split; [reflexivity|]. split; [reflexivity|].
  apply (melee_cooldown_one_damage Demo.opt Demo.brawl Demo.brawl
           Demo.clock0 Demo.clock1 Demo.arena
           (Demo.shoot 2 (tick Demo.opt Demo.brawl Demo.clock0 Demo.arena).1)
           2 Demo.alice Demo.alice_rearmed).
  - reflexivity.
  - vm_compute. reflexivity.
  - intros p1 Hp1. vm_compute in Hp1. inversion Hp1; subst. reflexivity.
  - intros i _. simpl. lia.
  - intros i j _ _. simpl. lia.
Defined.

(** C10.  A tick leaves the shooting flag of every active player down,
    whatever the cooldown: the flag is cleared before the cooldown is
    tested.  If the cooldown has not elapsed at the player's visits, the
    tick logs no [damage] call for it and leaves its cooldown stamp as it
    was; and however many ticks follow without the flag being raised
    again, none of them logs a [damage] call for it or touches the stamp. *)
Theorem shoot_intent_consumed opt ph clock g r p :
  r ∈ activePlayers g ->
  objects g !! r = Some (IsPlayer p) ->
  let res := tick opt ph clock g in
  exists p',
    objects res.1 !! r = Some (IsPlayer p') /\
    Player.shootStart p' = false /\
    ((forall j, activePlayers g !! j = Some r ->
        ((clock j).1 - Player.meleeCooldown p < 250)%Z) ->
     damageBy r res.2 = 0 /\
     Player.meleeCooldown p' = Player.meleeCooldown p) /\
    (forall phs clocks n,
       damageBy r (run opt phs clocks n res.1).2 = 0 /\
       exists pn,
         objects (run opt phs clocks n res.1).1 !! r = Some (IsPlayer pn) /\
         Player.shootStart pn = false /\
         Player.meleeCooldown pn = Player.meleeCooldown p').
Proof.
  intros Hin Hp. cbv zeta.
  assert (Htrans : forall a b c : Player.t,
            staysUnarmed a b -> staysUnarmed b c -> staysUnarmed a c).
  { unfold staysUnarmed. auto. }
  destruct (tick_visited staysUnarmed (fun a H => H) Htrans opt
              (staysUnarmed_step opt) staysUnarmed_finalize ph clock g r p Hin Hp)
    as (p1 & k & objs & p' & _ & R2 & Hp').
  assert (Hs' : Player.shootStart p' = false).
  { apply R2. apply (playerStep_cases opt ph (clock k).1 (clock k).2 objs r p1). }
  exists p'. split; [assumption|]. split; [assumption|]. split.
  - intros Hcd.
    destruct (tick_quiet opt ph clock g r p Hp (or_intror Hcd))
      as (Hd & p2 & Hp2 & Hc & _). cbv zeta in *.
    split; [assumption|]. congruence.
  - intros phs clocks n. apply run_quiet; assumption.
Qed.

Lemma shoot_intent_consumed_witness :
  exists p',
    objects (tick Demo.opt Demo.brawl Demo.early Demo.arena).1 !! 2
      = Some (IsPlayer p') /\
    Player.shootStart p' = false /\
    damageBy 2 (tick Demo.opt Demo.brawl Demo.early Demo.arena).2 = 0 /\
    Player.meleeCooldown p' = 0%Z.
Proof.
  destruct (shoot_intent_consumed Demo.opt Demo.brawl Demo.early Demo.arena
              2 Demo.alice) as (p' & Hp' & Hs & Hq & _).
  - vm_compute. apply list_elem_of_here.
  - reflexivity.
  - exists p'. split; [exact Hp'|]. split; [exact Hs|].
    apply Hq. intros j _. simpl. lia.
Defined.

(** The lifecycle over ticks that follow each other with no input in
    between. *)
Lemma run_animation_lifecycle opt phs clocks g r p l1 l2 :
  activePlayers g = l1 ++ r :: l2 -> r ∉ l1 -> r ∉ l2 ->
  objects g !! r = Some (IsPlayer p) ->
  Player.animActive p = false ->
  Player.shootStart p = true ->
  (250 <= (clocks 0%nat (length l1)).1 - Player.meleeCooldown p)%Z ->
  forall k,
    exists pk,
      objects (run opt phs clocks (S k) g).1 !! r = Some (IsPlayer pk) /\
      Player.shootStart pk = false /\
      (k < 8 ->
         Player.animActive pk = true /\ Player.animType pk = 1 /\
         Player.animSeq pk = 1 /\ Player.animTime pk = S k) /\
      (8 <= k ->
         Player.animActive pk = false /\ Player.animType pk = 0 /\
         Player.animSeq pk = 0 /\ Player.animTime pk = 0).
Proof.
  intros Hl Hn1 Hn2 Hp Ha Hs Hcd k.
  induction k as [|k IH].
  - rewrite run_S. cbn [fst snd run].
    destruct (tick_visit_once opt (phs 0) (clocks 0) g r p l1 l2 Hl Hn1 Hn2 Hp)
      as (objs & p' & Hp' & (E1 & _ & E3 & E4 & E5 & E6)).
    destruct (playerStep_anim opt (phs 0) (clocks 0 (length l1)).1
                (clocks 0 (length l1)).2 objs r p) as (_ & _ & Hstart & _).
    destruct (Hstart Ha Hs Hcd) as (S1 & S2 & S3 & S4).
    destruct (playerStep_cases opt (phs 0) (clocks 0 (length l1)).1
                (clocks 0 (length l1)).2 objs r p) as (Hdown & _).
    cbv zeta in *.
    exists p'. split; [assumption|]. split; [congruence|]. split.
    + intros _. repeat split; congruence.
    + intros H. lia.
  - destruct IH as (pk & Hpk & Hsk & Hact & Hidle).
    rewrite run_S. cbn [fst snd].
    set (gk := (run opt phs clocks (S k) g).1) in *.
    assert (Hlk : activePlayers gk = l1 ++ r :: l2).
    { unfold gk. rewrite run_activePlayers. exact Hl. }
    destruct (tick_visit_once opt (phs (S k)) (clocks (S k)) gk r pk l1 l2
                Hlk Hn1 Hn2 Hpk)
      as (objs & p' & Hp' & (E1 & _ & E3 & E4 & E5 & E6)).
    destruct (playerStep_anim opt (phs (S k)) (clocks (S k) (length l1)).1
                (clocks (S k) (length l1)).2 objs r pk)
      as (Hmore & Hstop & _ & Hrest).
    destruct (playerStep_cases opt (phs (S k)) (clocks (S k) (length l1)).1
                (clocks (S k) (length l1)).2 objs r pk) as (Hdown & _).
    cbv zeta in *.
    exists p'. split; [assumption|]. split; [congruence|].
    destruct (Nat.lt_ge_cases k 8) as [Hlt|Hge].
    + destruct (Hact Hlt) as (A1 & A2 & A3 & A4).
      destruct (Nat.eq_dec k 7) as [->|Hne].
      * destruct (Hstop A1 ltac:(lia)) as (T1 & T2 & T3 & T4).
        split; [intros; lia|]. intros _. repeat split; congruence.
      * destruct (Hmore A1 ltac:(lia)) as (T1 & T2 & T3 & T4).
        split; [|intros; lia]. intros _. repeat split; congruence.
    + destruct (Hidle Hge) as (A1 & A2 & A3 & A4).
      destruct (Hrest A1 (or_introl Hsk)) as (T1 & T2 & T3 & T4).
      split; [intros; lia|]. intros _. repeat split; congruence.
Qed.

Lemma animState_player g r x :
  animState g r = Some x ->
  exists p, objects g !! r = Some (IsPlayer p) /\
    x = (Player.animActive p, Player.animType p, Player.animSeq p,
         Player.animTime p).
Proof.
  unfold animState. destruct (objects g !! r) as [[p|o]|]; try discriminate.
  intros H. inversion H. eauto.
Qed.

(** One tick of an active animation, as a function of its state alone. *)
Lemma tick_animState_active opt ph clock g r ty sq t :
  heldOnce r (activePlayers g) ->
  animState g r = Some (true, ty, sq, t) ->
  animState (tick opt ph clock g).1 r =
    Some (if t <? 8 then (true, ty, 1, S t) else (false, 0, 0, 0)).
Proof.
  intros (l1 & l2 & Hl & Hn1 & Hn2) Hst.
  apply animState_player in Hst as (p & Hp & Hx). inversion Hx as [[Ha Hty Hsq Ht]].
  destruct (tick_visit_once opt ph clock g r p l1 l2 Hl Hn1 Hn2 Hp)
    as (objs & p' & Hp' & (_ & _ & E3 & E4 & E5 & E6)).
  destruct (playerStep_anim opt ph (clock (length l1)).1 (clock (length l1)).2
              objs r p) as (Hmore & Hstop & _). cbv zeta in *.
  unfold animState. rewrite Hp'.
  destruct (Nat.ltb_spec (Player.animTime p) 8) as [Hlt|Hge].
  - destruct (Hmore (eq_sym Ha) Hlt) as (T1 & T2 & T3 & T4).
    rewrite E3, E4, E5, E6, T1, T2, T3, T4. reflexivity.
  - destruct (Hstop (eq_sym Ha) Hge) as (T1 & T2 & T3 & T4).
    rewrite E3, E4, E5, E6, T1, T2, T3, T4. reflexivity.
Qed.

Lemma tick_heldOnce opt ph clock g r :
  heldOnce r (activePlayers g) ->
  heldOnce r (activePlayers (tick opt ph clock g).1).
Proof. rewrite tick_activePlayers. auto. Qed.

Lemma tick_animState_some opt ph clock g r x :
  animState g r = Some x ->
  exists x', animState (tick opt ph clock g).1 r = Some x'.
Proof.
  intros H. apply animState_player in H as (p & Hp & _).
  destruct (tick_lifted (fun _ _ => True) (fun _ => I) (fun _ _ _ _ _ => I)
              opt (fun _ _ _ _ _ _ => I) (fun _ _ => I) ph clock g r p Hp)
    as (p' & Hp' & _).
  unfold animState. rewrite Hp'. eauto.
Qed.

(** From an animation that has just started, through any staging. *)
Lemma ticksLater_animation r g1 k g' :
  ticksLater r k g1 g' ->
  heldOnce r (activePlayers g1) ->
  animState g1 r = Some (true, 1, 1, 1) ->
  heldOnce r (activePlayers g') /\
  (exists x, animState g' r = Some x) /\
  (k < 8 -> animState g' r = Some (true, 1, 1, S k)) /\
  (k = 8 -> animState g' r = Some (false, 0, 0, 0)).
Proof.
  intros Hlater Hheld Hstart.
  induction Hlater as [g|k g ga gb opt ph clock Hlater IH (Hheldb & Hsame)].
  - split; [assumption|]. split; [eauto|]. split; [auto|]. intros H. discriminate H.
  - destruct (IH Hheld Hstart) as (_ & (x & Hx) & Hact & Hend).
    rewrite <- Hsame in Hx, Hact, Hend.
    split; [apply tick_heldOnce; assumption|].
    split; [eapply tick_animState_some; eassumption|]. split.
    + intros Hk. rewrite (tick_animState_active opt ph clock gb r 1 1 (S k) Hheldb)
        by (apply Hact; lia).
      destruct (Nat.ltb_spec (S k) 8); [reflexivity | lia].
    + intros Hk. assert (k = 7) by lia. subst k.
      rewrite (tick_animState_active opt ph clock gb r 1 1 8 Hheldb)
        by (apply Hact; lia).
      reflexivity.
Qed.

(** C8, as the code has it.  Player [r] is held once by [activePlayers],
    is idle, and its attack resolves in tick T (the first tick run from
    [g]).  The loop body increments the elapsed counter in tick T already:
    after tick T+k, for k < 8, the animation is active with type 1,
    sequence 1 and elapsed k+1.  In tick T+8, the ninth tick counted from T,
    the counter exceeds 8 after the increment and active, type, sequence and
    elapsed are all reset.  This holds whatever reaches the session between
    the ticks (first part): raising the shooting flag again, even with the
    cooldown elapsed so that the attack resolves and deals damage, neither
    restarts nor prolongs the animation, because an active animation is not
    started again.  With no input between the ticks the animation stays
    idle in every tick after T+8 (second part), and in general an idle
    animation stays idle, its fields untouched, through every tick in which
    no attack of the player resolves (third part); the activation therefore
    has a single transition from active to idle. *)
Theorem animation_ends_in_ninth_tick opt phs clocks g r p l1 l2 :
  activePlayers g = l1 ++ r :: l2 -> r ∉ l1 -> r ∉ l2 ->
  objects g !! r = Some (IsPlayer p) ->
  Player.animActive p = false ->
  Player.shootStart p = true ->
  (250 <= (clocks 0%nat (length l1)).1 - Player.meleeCooldown p)%Z ->
  (forall k g',
     ticksLater r k (tick opt (phs 0) (clocks 0) g).1 g' ->
     exists pk,
       objects g' !! r = Some (IsPlayer pk) /\
       (k < 8 ->
          Player.animActive pk = true /\ Player.animType pk = 1 /\
          Player.animSeq pk = 1 /\ Player.animTime pk = S k) /\
       (k = 8 ->
          Player.animActive pk = false /\ Player.animType pk = 0 /\
          Player.animSeq pk = 0 /\ Player.animTime pk = 0)) /\
  (forall k,
     exists pk,
       objects (run opt phs clocks (S k) g).1 !! r = Some (IsPlayer pk) /\
       Player.shootStart pk = false /\
       (k < 8 ->
          Player.animActive pk = true /\ Player.animType pk = 1 /\
          Player.animSeq pk = 1 /\ Player.animTime pk = S k) /\
       (8 <= k ->
          Player.animActive pk = false /\ Player.animType pk = 0 /\
          Player.animSeq pk = 0 /\ Player.animTime pk = 0)) /\
  (forall opt2 ph2 clock2 g2 p2 m1 m2,
     activePlayers g2 = m1 ++ r :: m2 -> r ∉ m1 -> r ∉ m2 ->
     objects g2 !! r = Some (IsPlayer p2) ->
     Player.animActive p2 = false ->
     Player.shootStart p2 = false \/
       ((clock2 (length m1)).1 - Player.meleeCooldown p2 < 250)%Z ->
     exists p',
       objects (tick opt2 ph2 clock2 g2).1 !! r = Some (IsPlayer p') /\
       Player.animActive p' = false /\
       Player.animType p' = Player.animType p2 /\
       Player.animSeq p' = Player.animSeq p2 /\
       Player.animTime p' = Player.animTime p2).
Proof.
  intros Hl Hn1 Hn2 Hp Ha Hs Hcd.
  pose proof (run_animation_lifecycle opt phs clocks g r p l1 l2
                Hl Hn1 Hn2 Hp Ha Hs Hcd) as Hrun.
  split; [|split; [exact Hrun|]].
  - intros k g' Hlater.
    destruct (Hrun 0) as (p1 & Hp1 & _ & Hfirst & _).
    rewrite run_S in Hp1. cbn [fst snd run] in Hp1.
    destruct (Hfirst ltac:(lia)) as (F1 & F2 & F3 & F4).
    assert (Hheld : heldOnce r (activePlayers (tick opt (phs 0) (clocks 0) g).1)).
    { apply tick_heldOnce. exists l1, l2. auto. }
    assert (Hstart : animState (tick opt (phs 0) (clocks 0) g).1 r
                     = Some (true, 1, 1, 1)).
    { unfold animState. rewrite Hp1, F1, F2, F3, F4. reflexivity. }
    destruct (ticksLater_animation r _ k g' Hlater Hheld Hstart)
      as (_ & (x & Hx) & Hact & Hend).
    apply animState_player in Hx as (pk & Hpk & _).
    exists pk. split; [exact Hpk|].
    unfold animState in Hact, Hend. rewrite Hpk in Hact, Hend. split.
    + intros Hk. specialize (Hact Hk). inversion Hact. auto.
    + intros Hk. specialize (Hend Hk). inversion Hend. auto.
  - intros opt2 ph2 clock2 g2 p2 m1 m2 Hm Hm1 Hm2 Hp2 Ha2 Hquiet.
    destruct (tick_visit_once opt2 ph2 clock2 g2 r p2 m1 m2 Hm Hm1 Hm2 Hp2)
      as (objs & p' & Hp' & (_ & _ & E3 & E4 & E5 & E6)).
    destruct (playerStep_anim opt2 ph2 (clock2 (length m1)).1
                (clock2 (length m1)).2 objs r p2) as (_ & _ & _ & Hrest).
    cbv zeta in *. destruct (Hrest Ha2 Hquiet) as (T1 & T2 & T3 & T4).
    exists p'. split; [exact Hp'|]. repeat split; congruence.
Qed.

(** Alice punches in the first tick, raises the flag again and punches a
    second time 300 ms later, while the animation runs: the second attack
    resolves and hits, and the elapsed counter goes on from 1 to 2. *)
Lemma animation_ends_in_ninth_tick_witness :
  let g1 := (tick Demo.opt Demo.brawl Demo.clock0 Demo.arena).1 in
  let again := tick Demo.opt Demo.brawl Demo.late (Demo.shoot 2 g1) in
  damageBy 2 again.2 = 1 /\
  exists p2,
    objects again.1 !! 2 = Some (IsPlayer p2) /\
    Player.animActive p2 = true /\ Player.animType p2 = 1 /\
    Player.animSeq p2 = 1 /\ Player.animTime p2 = 2.
Proof.
  cbv zeta. split; [vm_compute; reflexivity|].
  destruct (animation_ends_in_ninth_tick Demo.opt (fun _ => Demo.brawl)
              (fun _ => Demo.clock0) Demo.arena 2 Demo.alice [] [3])
    as (Hany & _ & _).
  - reflexivity.
  - apply not_elem_of_nil.
  - intros H. apply list_elem_of_singleton in H. discriminate H.
  - reflexivity.
  - reflexivity.
  - reflexivity.
  - vm_compute. discriminate.
  - destruct (Hany 1
        (tick Demo.opt Demo.brawl Demo.late
           (Demo.shoot 2 (tick Demo.opt Demo.brawl Demo.clock0 Demo.arena).1)).1)
      as (p2 & Hp2 & Hact & _).
    + eapply later_tick; [apply later_now|].
      split.
      * exists [], [3]. split; [reflexivity|]. split.
        -- apply not_elem_of_nil.
        -- intros H. apply list_elem_of_singleton in H. discriminate H.
      * vm_compute. reflexivity.
    + exists p2. split; [exact Hp2|]. apply Hact. lia.
Defined.

(** C8, counterexample to the claim as worded.  Alice's attack resolves in
    the first tick run from [arena] (tick T); the animation state after n
    ticks is listed for n = 1, 8, 9, 10.  After the ninth tick (T+8) the
    animation is idle with all fields reset, so tick T+9 starts idle and is
    not the tick in which the animation returns to idle. *)
Lemma animation_idle_before_tick_T_plus_9 :
  let after n :=
    animState (run Demo.opt (fun _ => Demo.brawl) (fun _ => Demo.clock0) n
                 Demo.arena).1 2 in
  after 0 = Some (false, 0, 0, 0) /\
  after 1 = Some (true, 1, 1, 1) /\
  after 8 = Some (true, 1, 1, 8) /\
  after 9 = Some (false, 0, 0, 0) /\
  after 10 = Some (false, 0, 0, 0) /\
  ~ (after 9 = Some (true, 1, 1, 9) /\ after 10 = Some (false, 0, 0, 0)).
Proof.
  cbv zeta.
  split; [vm_compute; reflexivity|]. split; [vm_compute; reflexivity|].
  split; [vm_compute; reflexivity|]. split; [vm_compute; reflexivity|].
  split; [vm_compute; reflexivity|].
  intros (H & _). vm_compute in H. discriminate H.
Qed.

(** ** Further properties of the tick and the lifecycle *)

(** *** What the loops leave alone *)

Lemma sameSession_refl g : sameSession g g.
Proof. unfold sameSession. auto 20. Qed.

Lemma sameSession_trans a b c :
  sameSession a b -> sameSession b c -> sameSession a c.
Proof.
  unfold sameSession.
  intros (a1 & a2 & a3 & a4 & a5 & a6 & a7 & a8 & a9 & a10 & a11)
         (b1 & b2 & b3 & b4 & b5 & b6 & b7 & b8 & b9 & b10 & b11).
  repeat split; congruence.
Qed.

Lemma resolve_sameSession opt ph clock k r st :
  sameSession st.1 (resolve opt ph clock k r st).1.
Proof.
  unfold resolve.
  destruct (objects st.1 !! r) as [[p0|o]|]; try apply sameSession_refl.
  destruct (playerStep _ _ _ _ _ _ _) as [[p hits] full].
  unfold sameSession. simpl. auto 20.
Qed.

Lemma resolveAll_sameSession opt ph clock rs : forall k st,
  sameSession st.1 (resolveAll opt ph clock k rs st).1.
Proof.
  induction rs as [|r rs IH]; intros k st; simpl; [apply sameSession_refl|].
  eapply sameSession_trans; [apply resolve_sameSession | apply IH].
Qed.

Lemma broadcast_sameSession r st : sameSession st.1 (broadcast r st).1.
Proof.
  unfold broadcast.
  destruct (objects st.1 !! r) as [[p0|o]|]; try apply sameSession_refl.
  unfold sameSession. simpl. auto 20.
Qed.

Lemma broadcastAll_sameSession rs : forall st,
  sameSession st.1 (broadcastAll rs st).1.
Proof.
  induction rs as [|r rs IH]; intros st; simpl; [apply sameSession_refl|].
  eapply sameSession_trans; [apply broadcast_sameSession | apply IH].
Qed.

(** An entry that is not a player is out of reach of both loops. *)
Lemma resolve_nonplayer opt ph clock k r' st r :
  (forall p, objects st.1 !! r <> Some (IsPlayer p)) ->
  objects (resolve opt ph clock k r' st).1 !! r = objects st.1 !! r.
Proof.
  intros Hnp. destruct (decide (r' = r)) as [->|Hne].
  - rewrite resolve_skip by assumption. reflexivity.
  - apply resolve_other. assumption.
Qed.

Lemma resolveAll_nonplayer opt ph clock rs r : forall k st,
  (forall p, objects st.1 !! r <> Some (IsPlayer p)) ->
  objects (resolveAll opt ph clock k rs st).1 !! r = objects st.1 !! r.
Proof.
  induction rs as [|r' rs IH]; intros k st Hnp; simpl; [reflexivity|].
  pose proof (resolve_nonplayer opt ph clock k r' st r Hnp) as H.
  rewrite IH; [exact H|]. intros p. rewrite H. apply Hnp.
Qed.

(** *** The log, packet by packet *)

Lemma sendsTo_app r l1 l2 : sendsTo r (l1 ++ l2) = sendsTo r l1 ++ sendsTo r l2.
Proof.
  induction l1 as [|e l1 IH]; simpl; [reflexivity|].
  destruct e as [t a s|t s|to pk|to pks]; try assumption.
  destruct (to =? r); simpl; rewrite IH; reflexivity.
Qed.

Lemma sendsTo_strike objs r c r' : sendsTo r' (strike objs r c) = [].
Proof.
  unfold strike. destruct c as [t|]; [|reflexivity]. simpl.
  destruct (objs !! t) as [x|]; [destruct (isDoorObstacle x)|]; reflexivity.
Qed.

Lemma sendsTo_playerStep opt ph tc ts objs r p r' :
  sendsTo r' (playerStep opt ph tc ts objs r p).1.2 = [].
Proof.
  destruct (playerStep_cases opt ph tc ts objs r p)
    as (_ & [(_ & _ & _ & ->)|(_ & _ & ->)]); [|reflexivity].
  apply sendsTo_strike.
Qed.

Lemma sendsTo_kills r r' (ks : list KillPacket) :
  sendsTo r ((fun k => SendPacket r' (Kill k)) <$> ks) =
  if r' =? r then Kill <$> ks else [].
Proof.
  induction ks as [|k ks IH].
  - simpl. destruct (r' =? r); reflexivity.
  - rewrite !fmap_cons. cbn [sendsTo]. rewrite IH.
    destruct (r' =? r); reflexivity.
Qed.

Lemma sendsTo_emit g r' p r :
  sendsTo r (emit g r' p) =
  if r' =? r then
    UpdatePacket (Player.fullObjects p) (Player.partialObjects p)
    :: (if aliveCountDirty g then [AliveCountsPacket (aliveCount g)] else [])
    ++ (Kill <$> kills g)
  else [].
Proof.
  unfold emit. cbn [sendsTo]. rewrite sendsTo_app, sendsTo_kills.
  destruct (r' =? r) eqn:E, (aliveCountDirty g); simpl; rewrite ?E; reflexivity.
Qed.

Lemma resolve_sends opt ph clock k r' st r :
  sendsTo r (resolve opt ph clock k r' st).2 = sendsTo r st.2.
Proof.
  destruct (objects st.1 !! r') as [[p0|o]|] eqn:E.
  - destruct (resolve_unfold opt ph clock k r' st p0 E) as (_ & -> & _).
    rewrite sendsTo_app, sendsTo_playerStep, app_nil_r. reflexivity.
  - rewrite resolve_skip by congruence. reflexivity.
  - rewrite resolve_skip by congruence. reflexivity.
Qed.

Lemma resolveAll_sends opt ph clock rs r : forall k st,
  sendsTo r (resolveAll opt ph clock k rs st).2 = sendsTo r st.2.
Proof.
  induction rs as [|r' rs IH]; intros k st; simpl; [reflexivity|].
  rewrite IH. apply resolve_sends.
Qed.

Lemma broadcast_other r' st r :
  r' <> r ->
  objects (broadcast r' st).1 !! r = objects st.1 !! r /\
  sendsTo r (broadcast r' st).2 = sendsTo r st.2.
Proof.
  intros Hne.
  destruct (objects st.1 !! r') as [[p0|o]|] eqn:E.
  - rewrite (broadcast_unfold r' st p0 E). simpl. split.
    + apply list_lookup_insert_ne. assumption.
    + rewrite sendsTo_app, sendsTo_emit.
      destruct (Nat.eqb_spec r' r); [contradiction|]. apply app_nil_r.
  - rewrite broadcast_skip by congruence. auto.
  - rewrite broadcast_skip by congruence. auto.
Qed.

Lemma broadcastAll_other rs r : forall st,
  r ∉ rs ->
  objects (broadcastAll rs st).1 !! r = objects st.1 !! r /\
  sendsTo r (broadcastAll rs st).2 = sendsTo r st.2.
Proof.
  induction rs as [|r' rs IH]; intros st Hnot; simpl; [auto|].
  apply not_elem_of_cons in Hnot as (Hne & Hnot).
  destruct (IH (broadcast r' st) Hnot) as (-> & ->).
  apply broadcast_other. congruence.
Qed.

Lemma broadcast_nonplayer r' st r :
  (forall p, objects st.1 !! r <> Some (IsPlayer p)) ->
  objects (broadcast r' st).1 !! r = objects st.1 !! r.
Proof.
  intros Hnp. destruct (decide (r' = r)) as [->|Hne].
  - rewrite broadcast_skip by assumption. reflexivity.
  - apply broadcast_other. assumption.
Qed.

Lemma broadcastAll_nonplayer rs r : forall st,
  (forall p, objects st.1 !! r <> Some (IsPlayer p)) ->
  objects (broadcastAll rs st).1 !! r = objects st.1 !! r.
Proof.
  induction rs as [|r' rs IH]; intros st Hnp; simpl; [reflexivity|].
  pose proof (broadcast_nonplayer r' st r Hnp) as H.
  rewrite IH; [exact H|]. intros p. rewrite H. apply Hnp.
Qed.

Lemma tick_nonplayer opt ph clock g r :
  (forall p, objects g !! r <> Some (IsPlayer p)) ->
  objects (tick opt ph clock g).1 !! r = objects g !! r.
Proof.
  intros Hnp. unfold tick, broadcastPass, resolverPass. simpl.
  pose proof (resolveAll_nonplayer opt ph clock (activePlayers g) r 0 (g, []) Hnp)
    as H1.
  rewrite broadcastAll_nonplayer; [exact H1|].
  intros p. rewrite H1. apply Hnp.
Qed.

Lemma tick_sameSession_before_reset opt ph clock g :
  sameSession g (broadcastPass (resolverPass opt ph clock g)).1.
Proof.
  unfold broadcastPass, resolverPass.
  eapply sameSession_trans; [|apply broadcastAll_sameSession].
  apply (resolveAll_sameSession opt ph clock (activePlayers g) 0 (g, [])).
Qed.

(** *** The shape of the registry *)

Lemma keepsShape_refl p : keepsShape p p.
Proof. unfold keepsShape. auto. Qed.

Lemma keepsShape_trans p q s : keepsShape p q -> keepsShape q s -> keepsShape p s.
Proof.
  unfold keepsShape. intros (a1 & a2 & a3) (b1 & b2 & b3).
  repeat split; congruence.
Qed.

Lemma keepsShape_step opt ph tc ts objs r p :
  keepsShape p (playerStep opt ph tc ts objs r p).1.1.
Proof.
  unfold playerStep, keepsShape, animate, attack, movement, setVelocity. simpl.
  split_ifs; simpl; auto.
Qed.

Lemma keepsShape_finalize g p : keepsShape p (finalize g p).
Proof. unfold keepsShape, finalize. split_ifs; simpl; auto. Qed.

Lemma tick_length opt ph clock g :
  length (objects (tick opt ph clock g).1) = length (objects g).
Proof.
  unfold tick, broadcastPass, resolverPass. simpl.
  destruct (broadcastAll_frame
    (connectedPlayers (resolveAll opt ph clock 0 (activePlayers g) (g, [])).1)
    (resolveAll opt ph clock 0 (activePlayers g) (g, [])))
    as (_ & _ & _ & _ & _ & HL).
  destruct (resolveAll_frame opt ph clock (activePlayers g) 0 (g, []))
    as (_ & _ & _ & HL').
  cbv zeta in *. simpl in *. congruence.
Qed.

Lemma sameShapes_isAlive objs objs' r :
  sameShapes objs objs' -> isAlive objs' r = isAlive objs r.
Proof.
  intros (Hlen & Hsh). unfold isAlive.
  destruct (objs !! r) as [x|] eqn:E.
  - destruct (Hsh r x E) as (x' & -> & (_ & Hd & _ & _ & _ & Hk)).
    destruct x as [p|o], x' as [p'|o']; simpl in *; try contradiction.
    + rewrite Hd. reflexivity.
    + reflexivity.
  - apply lookup_ge_None in E. rewrite <- Hlen in E.
    apply lookup_ge_None in E. rewrite E. reflexivity.
Qed.

Lemma tick_shape opt ph clock g :
  let g' := (tick opt ph clock g).1 in
  sameShapes (objects g) (objects g') /\
  players g' = players g /\
  connectedPlayers g' = connectedPlayers g /\
  activePlayers g' = activePlayers g /\
  aliveCount g' = aliveCount g /\
  playerInfosDirty g' = playerInfosDirty g.
Proof.
  cbv zeta. split.
  - split; [apply tick_length|].
    intros i [p|o] Hi.
    + destruct (tick_lifted keepsShape keepsShape_refl keepsShape_trans opt
                  (keepsShape_step opt) keepsShape_finalize ph clock g i p Hi)
        as (p' & Hp' & (Ki & Kd & Kb)).
      exists (IsPlayer p'). split; [assumption|].
      unfold sameShape. simpl. auto 10.
    + exists (IsObstacle o). split.
      * rewrite tick_nonplayer; [assumption|]. intros p. congruence.
      * unfold sameShape. simpl. auto 10.
  - destruct (tick_sameSession_before_reset opt ph clock g)
      as (a1 & a2 & a3 & _ & a5 & _ & a7 & _).
    unfold tick. simpl. auto.
Qed.

(** *** The roster *)

Lemma removeFrom_NoDup rs r : NoDup rs -> NoDup (removeFrom rs r).
Proof.
  induction rs as [|x rs IH]; simpl; intros H; [assumption|].
  apply NoDup_cons in H as (Hx & Hrs).
  destruct (x =? r); [assumption|].
  apply NoDup_cons. split; [|auto].
  intros Hin. apply Hx. eapply removeFrom_subset. eassumption.
Qed.

Lemma removeFrom_gone rs r : NoDup rs -> r ∉ removeFrom rs r.
Proof.
  induction rs as [|x rs IH]; simpl; intros H; [apply not_elem_of_nil|].
  apply NoDup_cons in H as (Hx & Hrs).
  destruct (Nat.eqb_spec x r) as [->|Hne]; [assumption|].
  apply not_elem_of_cons. split; [congruence | auto].
Qed.

Lemma removeFrom_keeps rs r x : x <> r -> x ∈ rs -> x ∈ removeFrom rs r.
Proof.
  intros Hne. induction rs as [|y rs IH]; simpl; intros H; [assumption|].
  apply elem_of_cons in H as [->|H].
  - destruct (Nat.eqb_spec y r); [contradiction | apply list_elem_of_here].
  - destruct (y =? r); [assumption | apply list_elem_of_further; auto].
Qed.

Lemma rosterSound_new objs : rosterSound (newGame objs).
Proof.
  unfold rosterSound. simpl. split; [exists (length objs), 0; split; [reflexivity | lia]|].
  split; [intros r Hr; inversion Hr|].
  split; [constructor|]. split; [constructor|].
  split; intros r Hr; inversion Hr.
Qed.

Lemma rosterSound_tick opt ph clock g :
  rosterSound g -> rosterSound (tick opt ph clock g).1.
Proof.
  intros ((m & n & Hp & Hl) & Hres & Hnc & Hna & Hsc & Hsa).
  destruct (tick_shape opt ph clock g)
    as ((Hlen & _) & Ep & Ec & Ea & _). cbv zeta in *.
  unfold rosterSound. rewrite Ep, Ec, Ea, Hlen.
  split; [eauto|]. split; [|auto].
  intros r Hr. destruct (Hres r Hr) as (p & Hlook & Hid).
  destruct (tick_lifted keepsShape keepsShape_refl keepsShape_trans opt
              (keepsShape_step opt) keepsShape_finalize ph clock g r p Hlook)
    as (p' & Hp' & (Ki & _)).
  exists p'. split; [assumption | congruence].
Qed.

Lemma rosterSound_add fresh g :
  rosterSound g -> rosterSound (addPlayer fresh g).1.
Proof.
  intros ((m & n & Hp & Hl) & Hres & Hnc & Hna & Hsc & Hsa).
  assert (Hnew : forall r, r ∈ players g -> r <> length (objects g)).
  { intros r Hr. rewrite Hp in Hr. apply elem_of_seq in Hr. lia. }
  unfold rosterSound. simpl. split; [|split; [|split; [|split; [|split]]]].
  - exists m, (S n). rewrite seq_S, Hp, Hl, length_app. simpl.
    split; [reflexivity | lia].
  - intros r Hr. apply elem_of_app in Hr as [Hr|Hr].
    + destruct (Hres r Hr) as (p & Hlook & Hid). exists p.
      rewrite lookup_app_l by (eapply lookup_lt_Some; eauto). auto.
    + apply list_elem_of_singleton in Hr as ->.
      eexists. split; [apply list_lookup_middle; reflexivity | reflexivity].
  - apply NoDup_app. split; [assumption|]. split; [|apply NoDup_singleton].
    intros r Hr Hr'. apply list_elem_of_singleton in Hr'.
    exact (Hnew r (Hsc r Hr) Hr').
  - apply NoDup_app. split; [assumption|]. split; [|apply NoDup_singleton].
    intros r Hr Hr'. apply list_elem_of_singleton in Hr'.
    exact (Hnew r (Hsa r Hr) Hr').
  - intros r Hr. apply elem_of_app in Hr as [Hr|Hr]; apply elem_of_app; auto.
  - intros r Hr. apply elem_of_app in Hr as [Hr|Hr]; apply elem_of_app; auto.
Qed.

Lemma rosterSound_remove r g :
  rosterSound g -> rosterSound (removePlayer r g).
Proof.
  intros Hsound.
  destruct (objects g !! r) as [[p0|o]|] eqn:E.
  2,3: unfold removePlayer; rewrite E; assumption.
  destruct Hsound as ((m & n & Hp & Hl) & Hres & Hnc & Hna & Hsc & Hsa).
  unfold rosterSound, removePlayer. rewrite E. simpl.
  rewrite length_insert.
  split; [eauto|]. split; [|split; [|split; [|split]]].
  - intros r' Hr'. destruct (Hres r' Hr') as (p & Hlook & Hid).
    destruct (decide (r = r')) as [->|Hne].
    + eexists. split.
      * apply list_lookup_insert_eq. eapply lookup_lt_Some; eauto.
      * simpl. congruence.
    + exists p. rewrite list_lookup_insert_ne by assumption. auto.
  - apply removeFrom_NoDup. assumption.
  - apply removeFrom_NoDup. assumption.
  - intros r' Hr'. apply Hsc. eapply removeFrom_subset. eassumption.
  - intros r' Hr'. apply Hsa. eapply removeFrom_subset. eassumption.
Qed.

Lemma rosterSound_reachable g : reachable g -> rosterSound g.
Proof.
  induction 1.
  - apply rosterSound_new.
  - apply rosterSound_tick. assumption.
  - apply rosterSound_add. assumption.
  - apply rosterSound_remove. assumption.
Qed.

Lemma visitedIds_roster objs rs :
  (forall r, r ∈ rs -> exists p, objs !! r = Some (IsPlayer p) /\ Player.id p = r) ->
  visitedIds objs rs = rs.
Proof.
  induction rs as [|r rs IH]; intros H; simpl; [reflexivity|].
  destruct (H r (list_elem_of_here _ _)) as (p & Hp & Hid).
  unfold idOf. rewrite Hp, Hid, IH; [reflexivity|].
  intros r' Hr'. apply H. apply list_elem_of_further, Hr'.
Qed.

(** X3.  Whatever sequence of ticks, [addPlayer] and [removePlayer] calls
    a session has gone through since its construction: [players] lists
    consecutive references, the registry ends with the last of them, each
    of them is a player object whose identity is its reference (identities
    handed out by [addPlayer] are never reused), and [connectedPlayers] and
    [activePlayers] hold only such references, none of them twice. *)
Theorem reachable_roster_sound g :
  reachable g ->
  (exists m n, players g = seq m n /\ length (objects g) = m + n) /\
  (forall r, r ∈ players g ->
     exists p, objects g !! r = Some (IsPlayer p) /\ Player.id p = r) /\
  NoDup (connectedPlayers g) /\ NoDup (activePlayers g) /\
  (forall r, r ∈ connectedPlayers g -> r ∈ players g) /\
  (forall r, r ∈ activePlayers g -> r ∈ players g).
Proof.
  intros H. change (rosterSound g).
  induction H as [objs|opt ph clock g H IH|fresh g H IH|r g H IH].
  - apply rosterSound_new.
  - apply rosterSound_tick. exact IH.
  - apply rosterSound_add. exact IH.
  - apply rosterSound_remove. exact IH.
Qed.

Lemma reachable_roster_sound_witness :
  NoDup (activePlayers
           (removePlayer 0 (addPlayer Demo.fresh Demo.joined).1)).
Proof.
  destruct (reachable_roster_sound
              (removePlayer 0 (addPlayer Demo.fresh Demo.joined).1))
    as (_ & _ & _ & H & _).
  - apply reach_remove, reach_add, reach_add, reach_new.
  - exact H.
Defined.

(** X4.  In every state a session can reach, the active players have
    pairwise distinct identities and every entry of [activePlayers] refers
    to a player of the registry; the first loop therefore pushes no identity
    twice in one tick. *)
Theorem reachable_active_identities_distinct g :
  reachable g ->
  NoDup (visitedIds (objects g) (activePlayers g)) /\
  visitedIds (objects g) (activePlayers g) = activePlayers g /\
  activeResolved g.
Proof.
  intros H.
  destruct (rosterSound_reachable g H) as (_ & Hres & _ & Hna & _ & Hsa).
  assert (Hv : visitedIds (objects g) (activePlayers g) = activePlayers g).
  { apply visitedIds_roster. auto. }
  rewrite Hv. split; [assumption|]. split; [reflexivity|].
  intros r Hr. destruct (Hres r (Hsa r Hr)) as (p & Hp & _). eauto.
Qed.

Lemma reachable_active_identities_distinct_witness :
  NoDup (visitedIds (objects (addPlayer Demo.fresh Demo.joined).1)
           (activePlayers (addPlayer Demo.fresh Demo.joined).1)).
Proof.
  apply (reachable_active_identities_distinct
           (addPlayer Demo.fresh Demo.joined).1).
  apply reach_add, reach_add, reach_new.
Defined.

(** X5.  [end()] closes one socket per player that ever joined, in join
    order and none twice, and then clears the timer; players that have been
    removed are closed as well, because [removePlayer] leaves them in
    [players]. *)
Theorem end_closes_every_joined_player g :
  reachable g ->
  (exists m n,
     end_ g = (CloseSocket <$> seq m n) ++ [ClearInterval] /\
     length (objects g) = m + n) /\
  NoDup (end_ g) /\
  (forall r, end_ (removePlayer r g) = end_ g) /\
  (forall fresh,
     end_ (addPlayer fresh g).1 =
     (CloseSocket <$> players g) ++ [CloseSocket (length (objects g)); ClearInterval]).
Proof.
  intros H.
  destruct (rosterSound_reachable g H) as ((m & n & Hp & Hl) & _).
  split; [|split; [|split]].
  - exists m, n. unfold end_. rewrite Hp. auto.
  - unfold end_. rewrite Hp. apply NoDup_app. split; [|split].
    + apply NoDup_fmap_2; [|apply NoDup_seq].
      intros a b Hab. congruence.
    + intros x Hx Hx'. apply list_elem_of_singleton in Hx'. subst.
      apply list_elem_of_fmap in Hx as (y & Hy & _). discriminate.
    + apply NoDup_singleton.
  - intros r. unfold end_, removePlayer.
    destruct (objects g !! r) as [[p0|o]|]; reflexivity.
  - intros fresh. unfold end_. simpl. rewrite fmap_app, <- app_assoc. reflexivity.
Qed.

Lemma end_closes_every_joined_player_witness :
  end_ (removePlayer 0 (addPlayer Demo.fresh Demo.joined).1)
  = [CloseSocket 0; CloseSocket 1; ClearInterval] /\
  NoDup (end_ (removePlayer 0 (addPlayer Demo.fresh Demo.joined).1)).
Proof.
  split; [reflexivity|].
  apply (end_closes_every_joined_player
           (removePlayer 0 (addPlayer Demo.fresh Demo.joined).1)).
  apply reach_remove, reach_add, reach_add, reach_new.
Defined.

(** *** Players the loops do not visit *)

Lemma tick_absent opt ph clock g r :
  r ∉ activePlayers g -> r ∉ connectedPlayers g ->
  objects (tick opt ph clock g).1 !! r = objects g !! r /\
  sendsTo r (tick opt ph clock g).2 = [] /\
  damageBy r (tick opt ph clock g).2 = 0.
Proof.
  intros Ha Hc. unfold tick, broadcastPass, resolverPass. simpl.
  destruct (resolveAll_other opt ph clock (activePlayers g) r 0 (g, []) Ha)
    as (Ho & Hd).
  pose proof (resolveAll_sends opt ph clock (activePlayers g) r 0 (g, [])) as Hs.
  destruct (resolveAll_sameSession opt ph clock (activePlayers g) 0 (g, []))
    as (_ & Ec & _).
  set (st1 := resolveAll opt ph clock 0 (activePlayers g) (g, [])) in *.
  simpl in Ec. rewrite <- Ec in Hc.
  destruct (broadcastAll_other (connectedPlayers st1.1) r st1 Hc) as (Ho' & Hs').
  rewrite Ho', Hs', broadcastAll_damage. auto.
Qed.

Lemma run_rosters opt phs clocks g n :
  activePlayers (run opt phs clocks n g).1 = activePlayers g /\
  connectedPlayers (run opt phs clocks n g).1 = connectedPlayers g.
Proof.
  induction n as [|n (Ha & Hc)]; [auto|].
  rewrite run_S. cbn [fst snd].
  destruct (tick_shape opt (phs n) (clocks n) (run opt phs clocks n g).1)
    as (_ & _ & Hc' & Ha' & _). cbv zeta in *.
  split; congruence.
Qed.

(** X6.  A player that is neither in [activePlayers] nor in
    [connectedPlayers] is visited by neither loop: over one tick, and over
    any number of ticks in a row, the timer callback sends it no packet and
    launches no attack on its behalf.  (It remains in the registry, so it
    can still be the target of somebody else's attack; nothing is said
    here about its record.) *)
Theorem tick_ignores_absent_player opt phs clocks g r :
  r ∉ activePlayers g -> r ∉ connectedPlayers g ->
  forall n,
    sendsTo r (run opt phs clocks n g).2 = [] /\
    damageBy r (run opt phs clocks n g).2 = 0.
Proof.
  intros Ha Hc. induction n as [|n (Hs & Hd)]; [auto|].
  rewrite run_S. cbn [fst snd].
  destruct (run_rosters opt phs clocks g n) as (Ea & Ec).
  destruct (tick_absent opt (phs n) (clocks n) (run opt phs clocks n g).1 r)
    as (_ & Hs' & Hd'); [rewrite Ea; exact Ha | rewrite Ec; exact Hc |].
  rewrite sendsTo_app, damageBy_app, Hs', Hd', Hs, Hd. auto.
Qed.

Lemma tick_ignores_absent_player_witness :
  sendsTo 0 (run Demo.opt (fun _ => Demo.apart) (fun _ => Demo.clock0) 3
               (removePlayer 0 Demo.joined)).2 = [].
Proof.
  destruct (tick_ignores_absent_player Demo.opt (fun _ => Demo.apart)
              (fun _ => Demo.clock0) (removePlayer 0 Demo.joined) 0)
    with (n := 3) as (H2 & _).
  - vm_compute. apply not_elem_of_nil.
  - vm_compute. apply not_elem_of_nil.
  - exact H2.
Defined.

Lemma broadcastAll_app l1 : forall l2 st,
  broadcastAll (l1 ++ l2) st = broadcastAll l2 (broadcastAll l1 st).
Proof. induction l1 as [|r l1 IH]; intros l2 st; simpl; [reflexivity | apply IH]. Qed.

(** A connected player held once by [connectedPlayers] goes through the
    second loop's body once. *)
Lemma broadcastAll_visit_once l1 l2 r st p :
  r ∉ l1 -> r ∉ l2 ->
  objects st.1 !! r = Some (IsPlayer p) ->
  let g1 := (broadcastAll l1 st).1 in
  let st' := broadcastAll (l1 ++ r :: l2) st in
  sameSession st.1 g1 /\
  fullDirtyObjects g1 = fullDirtyObjects st.1 /\
  partialDirtyObjects g1 = partialDirtyObjects st.1 /\
  objects st'.1 !! r = Some (IsPlayer (finalize g1 p)) /\
  sendsTo r st'.2 = sendsTo r st.2 ++ sendsTo r (emit g1 r (finalize g1 p)).
Proof.
  intros Hn1 Hn2 Hp. cbv zeta.
  rewrite broadcastAll_app. simpl.
  destruct (broadcastAll_other l1 r st Hn1) as (Ho1 & Hs1).
  destruct (broadcastAll_frame l1 st) as (_ & _ & _ & HF & HP & _).
  pose proof (broadcastAll_sameSession l1 st) as Hsame.
  set (st1 := broadcastAll l1 st) in *. cbv zeta in *.
  assert (Hp1 : objects st1.1 !! r = Some (IsPlayer p)) by congruence.
  destruct (broadcastAll_other l2 r (broadcast r st1) Hn2) as (Ho2 & Hs2).
  rewrite Ho2, Hs2, (broadcast_unfold r st1 p Hp1). simpl.
  split; [assumption|]. split; [assumption|]. split; [assumption|]. split.
  - apply list_lookup_insert_eq. eapply lookup_lt_Some; eauto.
  - rewrite sendsTo_app, Hs1. reflexivity.
Qed.


(** X7.  What the second loop sends to a player held once by
    [connectedPlayers]: one update packet carrying the two private buffers
    as the loop leaves them, then the alive-counts packet if and only if
    [aliveCountDirty] is up, then every pending kill packet in order,
    whatever the player can see; nothing else.  The flag, the count and the
    kill list are those of the session when the second loop starts, that
    is, after every attack of the first loop has been resolved. *)
Theorem broadcast_packets_of_connected_player g log r p l1 l2 :
  connectedPlayers g = l1 ++ r :: l2 -> r ∉ l1 -> r ∉ l2 ->
  objects g !! r = Some (IsPlayer p) ->
  exists p',
    objects (broadcastPass (g, log)).1 !! r = Some (IsPlayer p') /\
    sendsTo r (broadcastPass (g, log)).2 =
      sendsTo r log
      ++ UpdatePacket (Player.fullObjects p') (Player.partialObjects p')
         :: (if aliveCountDirty g then [AliveCountsPacket (aliveCount g)] else [])
         ++ (Kill <$> kills g).
Proof.
  intros Hl Hn1 Hn2 Hp. unfold broadcastPass. simpl. rewrite Hl.
  destruct (broadcastAll_visit_once l1 l2 r (g, log) p Hn1 Hn2 Hp)
    as (Hsame & _ & _ & Ho & Hsend). cbv zeta in *. cbn [fst snd] in Hsame, Hsend.
  eexists. split; [exact Ho|].
  rewrite Hsend, sendsTo_emit, Nat.eqb_refl.
  destruct Hsame as (_ & _ & _ & _ & -> & -> & _ & _ & _ & _ & ->).
  reflexivity.
Qed.

Lemma broadcast_packets_of_connected_player_witness :
  sendsTo 3 (broadcastPass
               ((resolverPass Demo.opt Demo.brawl Demo.clock0 Demo.party).1,
                (resolverPass Demo.opt Demo.brawl Demo.clock0 Demo.party).2)).2
  = [UpdatePacket [2] [3]; Kill 9].
Proof.
  destruct (broadcast_packets_of_connected_player
              (resolverPass Demo.opt Demo.brawl Demo.clock0 Demo.party).1
              (resolverPass Demo.opt Demo.brawl Demo.clock0 Demo.party).2
              3 Demo.bob_resolved [2] [])
    as (p' & Hp' & Hs).
  - reflexivity.
  - intros H. apply list_elem_of_singleton in H. discriminate H.
  - apply not_elem_of_nil.
  - vm_compute. reflexivity.
  - rewrite Hs. vm_compute in Hp'. inversion Hp'; subst. vm_compute. reflexivity.
Defined.


(** *** The second loop's own fields *)

Lemma finalize_sameButHints g p : sameButHints p (finalize g p).
Proof.
  unfold sameButHints, keepsShape, sameCombat, sameIntent, finalize.
  split_ifs; simpl; auto 20.
Qed.

Lemma finalize_ambient g g' p : sameAmbient g g' -> finalize g' p = finalize g p.
Proof.
  intros (H1 & H2 & H3 & H4). unfold finalize. rewrite H1, H2, H3, H4. reflexivity.
Qed.

Lemma finalize_hints g p :
  hints (finalize g p) =
  (isEmpty (fullDirtyObjects g) && isEmpty (partialDirtyObjects g)
     && negb (Player.moving p),
   if isEmpty (emotes g) then Player.emotesDirty p else true,
   if isEmpty (emotes g) then Player.emotes p else emotes g,
   if isEmpty (explosions g) then Player.explosionsDirty p else true,
   if isEmpty (explosions g) then Player.explosions p else explosions g).
Proof.
  unfold hints, finalize.
  destruct (isEmpty (fullDirtyObjects g)), (isEmpty (partialDirtyObjects g)),
    (isEmpty (emotes g)), (isEmpty (explosions g)); reflexivity.
Qed.

Lemma finalize_hints_again g p :
  hints (finalize g (finalize g p)) = hints (finalize g p).
Proof.
  unfold hints, finalize.
  destruct (isEmpty (fullDirtyObjects g)), (isEmpty (partialDirtyObjects g)),
    (isEmpty (emotes g)), (isEmpty (explosions g)); reflexivity.
Qed.

Lemma broadcast_sameAmbient r st : sameAmbient st.1 (broadcast r st).1.
Proof.
  unfold broadcast, sameAmbient.
  destruct (objects st.1 !! r) as [[p0|o]|]; simpl; auto.
Qed.

(** Through the second loop the fields are those the loop body gives on
    the first visit, or the old ones if there is no visit. *)
Lemma broadcastAll_hints r rs : forall st p,
  objects st.1 !! r = Some (IsPlayer p) ->
  exists p',
    objects (broadcastAll rs st).1 !! r = Some (IsPlayer p') /\
    sameButHints p p' /\
    (r ∈ rs -> hints p' = hints (finalize st.1 p)) /\
    (r ∉ rs -> hints p' = hints p).
Proof.
  induction rs as [|r' rs IH]; intros st p Hp; simpl.
  - exists p. split; [assumption|]. split.
    + unfold sameButHints, keepsShape, sameCombat, sameIntent. auto 20.
    + split; [intros H; inversion H | reflexivity].
  - destruct (decide (r' = r)) as [->|Hne].
    + rewrite (broadcast_unfold r st p Hp).
      set (st1 := (setObjects _ st.1, _)).
      assert (Hp1 : objects st1.1 !! r = Some (IsPlayer (finalize st.1 p))).
      { simpl. apply list_lookup_insert_eq. eapply lookup_lt_Some; eauto. }
      assert (Hamb : sameAmbient st.1 st1.1).
      { unfold sameAmbient. simpl. auto. }
      destruct (IH st1 _ Hp1) as (p' & Hp' & Hsame & Hin & Hout).
      exists p'. split; [assumption|]. split.
      * pose proof (finalize_sameButHints st.1 p) as H0.
        unfold sameButHints, keepsShape, sameCombat, sameIntent in *.
        intuition congruence.
      * split; [|intros H; exfalso; apply H, list_elem_of_here].
        intros _. destruct (decide (r ∈ rs)) as [Hr|Hr].
        -- rewrite (Hin Hr), (finalize_ambient _ _ _ Hamb).
           apply finalize_hints_again.
        -- apply Hout. assumption.
    + destruct (broadcast_other r' st r Hne) as (Ho & _).
      assert (Hp1 : objects (broadcast r' st).1 !! r = Some (IsPlayer p))
        by congruence.
      destruct (IH _ _ Hp1) as (p' & Hp' & Hsame & Hin & Hout).
      exists p'. split; [assumption|]. split; [assumption|]. split.
      * intros Hr. apply elem_of_cons in Hr as [Hr|Hr]; [congruence|].
        rewrite (Hin Hr).
        rewrite (finalize_ambient _ _ _ (broadcast_sameAmbient r' st)).
        reflexivity.
      * intros Hr. apply not_elem_of_cons in Hr as (_ & Hr). auto.
Qed.

Lemma playerStep_hints opt ph tc ts objs r p :
  sameHints p (playerStep opt ph tc ts objs r p).1.1.
Proof.
  unfold sameHints, hints, playerStep, animate, attack, movement, setVelocity.
  simpl. split_ifs; reflexivity.
Qed.

Lemma resolveAll_hints opt ph clock rs k st r p :
  objects st.1 !! r = Some (IsPlayer p) ->
  exists p1, objects (resolveAll opt ph clock k rs st).1 !! r = Some (IsPlayer p1) /\
    hints p1 = hints p.
Proof.
  apply (resolveAll_lifted sameHints).
  - intros q. reflexivity.
  - unfold sameHints. intros a b c H1 H2. congruence.
  - intros. apply playerStep_hints.
Qed.

(** *** The two dirty lists *)

Lemma resolveAll_idle_registry opt ph clock rs : forall k st,
  visitedIds (objects st.1) rs = [] ->
  resolveAll opt ph clock k rs st = st.
Proof.
  induction rs as [|r rs IH]; intros k st Hv; simpl; [reflexivity|].
  simpl in Hv. unfold idOf in Hv.
  destruct (objects st.1 !! r) as [[p0|o]|] eqn:E; try discriminate.
  - rewrite resolve_skip by congruence. apply IH. assumption.
  - rewrite resolve_skip by congruence. apply IH. assumption.
Qed.

Lemma resolveAll_dirty_perm opt ph clock rs : forall k st,
  exists a b,
    fullDirtyObjects (resolveAll opt ph clock k rs st).1
      = fullDirtyObjects st.1 ++ a /\
    partialDirtyObjects (resolveAll opt ph clock k rs st).1
      = partialDirtyObjects st.1 ++ b /\
    a ++ b ≡ₚ visitedIds (objects st.1) rs.
Proof.
  induction rs as [|r rs IH]; intros k st; simpl.
  - exists [], []. rewrite !app_nil_r. auto.
  - destruct (objects st.1 !! r) as [[p0|o]|] eqn:E.
    + destruct (resolve_unfold opt ph clock k r st p0 E)
        as (Ho & _ & _ & _ & HF & HP). cbv zeta in *.
      set (res := playerStep opt ph (clock k).1 (clock k).2 (objects st.1) r p0) in *.
      set (st' := resolve opt ph clock k r st) in *.
      assert (Hids : forall r', idOf (objects st'.1) r' = idOf (objects st.1) r').
      { intros r'. rewrite Ho. eapply idOf_insert_same_id; eauto.
        apply playerStep_id. }
      destruct (IH (S k) st') as (a & b & Ha & Hb & Hperm).
      rewrite (visitedIds_ext (objects st.1)) in Hperm by assumption.
      unfold idOf at 1. rewrite E.
      rewrite Ha, Hb, HF, HP. destruct (res.2).
      * exists (Player.id p0 :: a), b. rewrite <- app_assoc. simpl.
        split; [reflexivity|]. split; [reflexivity|]. constructor. assumption.
      * exists a, (Player.id p0 :: b). rewrite <- app_assoc. simpl.
        split; [reflexivity|]. split; [reflexivity|].
        rewrite <- Permutation_middle. constructor. assumption.
    + rewrite resolve_skip by congruence. unfold idOf at 1. rewrite E. apply IH.
    + rewrite resolve_skip by congruence. unfold idOf at 1. rewrite E. apply IH.
Qed.

(** X9.  When the broadcast pass starts, the two session lists are the
    lists the tick began with, each with identities appended at its end,
    and the appended identities taken together are exactly the identities
    of the active players, one per visit of the first loop. *)
Theorem resolver_pushes_one_identity_per_visit opt ph clock g :
  exists a b,
    fullDirtyObjects (resolverPass opt ph clock g).1 = fullDirtyObjects g ++ a /\
    partialDirtyObjects (resolverPass opt ph clock g).1
      = partialDirtyObjects g ++ b /\
    a ++ b ≡ₚ visitedIds (objects g) (activePlayers g) /\
    length a + length b = length (visitedIds (objects g) (activePlayers g)).
Proof.
  destruct (resolveAll_dirty_perm opt ph clock (activePlayers g) 0 (g, []))
    as (a & b & Ha & Hb & Hperm).
  exists a, b. split; [exact Ha|]. split; [exact Hb|]. split; [exact Hperm|].
  rewrite <- length_app. apply Permutation_length. exact Hperm.
Qed.

(** X10.  After a tick, [skipObjectCalculations] of a connected player is
    true exactly when the tick began with both session lists empty, the
    first loop visited no player, and the player's [moving] flag was down;
    as soon as one active player is visited the hint is false for every
    connected player. *)
Theorem tick_skip_hint opt ph clock g r p :
  r ∈ connectedPlayers g ->
  objects g !! r = Some (IsPlayer p) ->
  exists p',
    objects (tick opt ph clock g).1 !! r = Some (IsPlayer p') /\
    Player.skipObjectCalculations p' =
      isEmpty (fullDirtyObjects g) && isEmpty (partialDirtyObjects g)
      && isEmpty (visitedIds (objects g) (activePlayers g))
      && negb (Player.moving p).
Proof.
  intros Hin Hp. unfold tick, broadcastPass, resolverPass. simpl.
  destruct (resolveAll_dirty_perm opt ph clock (activePlayers g) 0 (g, []))
    as (a & b & Ha & Hb & Hperm).
  pose proof (resolveAll_sameSession opt ph clock (activePlayers g) 0 (g, []))
    as (_ & Ec & _).
  destruct (visitedIds (objects g) (activePlayers g)) as [|i ids] eqn:Ev.
  - rewrite (resolveAll_idle_registry opt ph clock (activePlayers g) 0 (g, []))
      by exact Ev.
    destruct (broadcastAll_hints r (connectedPlayers g) (g, []) p Hp)
      as (p' & Hp' & _ & Hvis & _).
    exists p'. split; [exact Hp'|].
    specialize (Hvis Hin). rewrite finalize_hints in Hvis.
    unfold hints in Hvis. inversion Hvis as [[H1 H2 H3 H4 H5]].
    rewrite H1. simpl. rewrite andb_true_r. reflexivity.
  - set (st1 := resolveAll opt ph clock 0 (activePlayers g) (g, [])) in *.
    destruct (resolveAll_hints opt ph clock (activePlayers g) 0 (g, []) r p Hp)
      as (p1 & Hp1 & _). fold st1 in Hp1.
    simpl in Ec. rewrite <- Ec in Hin.
    destruct (broadcastAll_hints r (connectedPlayers st1.1) st1 p1 Hp1)
      as (p' & Hp' & _ & Hvis & _).
    exists p'. split; [exact Hp'|].
    specialize (Hvis Hin). rewrite finalize_hints in Hvis.
    unfold hints in Hvis. inversion Hvis as [[H1 H2 H3 H4 H5]].
    simpl in Ha, Hb. rewrite H1, Ha, Hb.
    assert (Hne : isEmpty (fullDirtyObjects g ++ a)
                  && isEmpty (partialDirtyObjects g ++ b) = false).
    { destruct a as [|x a].
      - destruct b as [|y b].
        + simpl in Hperm. rewrite Ev in Hperm.
          apply Permutation_length in Hperm. discriminate Hperm.
        + destruct (partialDirtyObjects g); simpl; apply andb_false_r.
      - destruct (fullDirtyObjects g); reflexivity. }
    rewrite Hne. simpl. rewrite andb_false_r. reflexivity.
Qed.

Lemma tick_skip_hint_witness :
  exists p',
    objects (tick Demo.opt Demo.brawl Demo.clock0 Demo.arena).1 !! 3
      = Some (IsPlayer p') /\
    Player.skipObjectCalculations p' = false.
Proof.
  destruct (tick_skip_hint Demo.opt Demo.brawl Demo.clock0 Demo.arena 3 Demo.bob)
    as (p' & Hp' & Hs).
  - vm_compute. apply list_elem_of_further, list_elem_of_here.
  - reflexivity.
  - exists p'. split; [exact Hp' | exact Hs].
Defined.



(** *** Movement flag *)










(** *** Animation and cooldown, tick by tick *)

(** X13.  For a player held once by [activePlayers] whose animation is
    active, one tick advances the animation whatever the shooting flag and
    the cooldown say: with fewer than 8 elapsed ticks it stays active, keeps
    its type, has sequence 1 and one more elapsed tick; with 8 or more it
    ends, and active, type, sequence and elapsed are reset.  An attack that
    resolves during the animation neither restarts nor prolongs it. *)
Theorem tick_animation_step opt ph clock g r p l1 l2 :
  activePlayers g = l1 ++ r :: l2 -> r ∉ l1 -> r ∉ l2 ->
  objects g !! r = Some (IsPlayer p) ->
  Player.animActive p = true ->
  exists p',
    objects (tick opt ph clock g).1 !! r = Some (IsPlayer p') /\
    (Player.animTime p < 8 ->
       Player.animActive p' = true /\ Player.animType p' = Player.animType p /\
       Player.animSeq p' = 1 /\ Player.animTime p' = S (Player.animTime p)) /\
    (8 <= Player.animTime p ->
       Player.animActive p' = false /\ Player.animType p' = 0 /\
       Player.animSeq p' = 0 /\ Player.animTime p' = 0).
Proof.
  intros Hl Hn1 Hn2 Hp Ha.
  destruct (tick_visit_once opt ph clock g r p l1 l2 Hl Hn1 Hn2 Hp)
    as (objs & p' & Hp' & (_ & _ & E3 & E4 & E5 & E6)).
  destruct (playerStep_anim opt ph (clock (length l1)).1 (clock (length l1)).2
              objs r p) as (Hmore & Hstop & _). cbv zeta in *.
  exists p'. split; [exact Hp'|]. split.
  - intros Ht. destruct (Hmore Ha Ht) as (T1 & T2 & T3 & T4).
    repeat split; congruence.
  - intros Ht. destruct (Hstop Ha Ht) as (T1 & T2 & T3 & T4).
    repeat split; congruence.
Qed.

Lemma tick_animation_step_witness :
  exists p',
    objects (tick Demo.opt Demo.brawl Demo.clock1
               (Demo.shoot 2 (tick Demo.opt Demo.brawl Demo.clock0 Demo.arena).1)).1
      !! 2 = Some (IsPlayer p') /\
    Player.animActive p' = true /\ Player.animTime p' = 2.
Proof.
  destruct (tick_animation_step Demo.opt Demo.brawl Demo.clock1
              (Demo.shoot 2 (tick Demo.opt Demo.brawl Demo.clock0 Demo.arena).1)
              2 Demo.alice_rearmed [] [3])
    as (p' & Hp' & Hmore & _).
  - reflexivity.
  - apply not_elem_of_nil.
  - intros H. apply list_elem_of_singleton in H. discriminate H.
  - vm_compute. reflexivity.
  - reflexivity.
  - exists p'. split; [exact Hp'|].
    destruct Hmore as (T1 & _ & _ & T4); [vm_compute; lia|]. auto.
Defined.

(** *** Who gets hit *)

Lemma sameShape_refl x : sameShape x x.
Proof. unfold sameShape. destruct x; auto 10. Qed.

Lemma sameShape_trans x y z : sameShape x y -> sameShape y z -> sameShape x z.
Proof.
  unfold sameShape.
  intros (a1 & a2 & a3 & a4 & a5 & a6) (b1 & b2 & b3 & b4 & b5 & b6).
  repeat split; try congruence.
  destruct x, y, z; simpl in *; try contradiction; congruence.
Qed.

Lemma sameShapes_refl objs : sameShapes objs objs.
Proof. split; [reflexivity|]. intros i x H. exists x. split; [assumption | apply sameShape_refl]. Qed.

Lemma sameShapes_trans a b c : sameShapes a b -> sameShapes b c -> sameShapes a c.
Proof.
  intros (L1 & H1) (L2 & H2). split; [congruence|].
  intros i x Hx. destruct (H1 i x Hx) as (y & Hy & S1).
  destruct (H2 i y Hy) as (z & Hz & S2).
  exists z. split; [assumption | eapply sameShape_trans; eassumption].
Qed.

Lemma sameShapes_inv objs objs' i x' :
  sameShapes objs objs' -> objs' !! i = Some x' ->
  exists x, objs !! i = Some x /\ sameShape x x'.
Proof.
  intros (L & H) Hx'.
  destruct (objs !! i) as [x|] eqn:E.
  - destruct (H i x E) as (y & Hy & S). exists x. split; [reflexivity|]. congruence.
  - apply lookup_ge_None in E. rewrite <- L in E. apply lookup_ge_None in E.
    congruence.
Qed.

Lemma sameShapes_insert_player objs r p0 p1 :
  objs !! r = Some (IsPlayer p0) -> keepsShape p0 p1 ->
  sameShapes objs (<[r := IsPlayer p1]> objs).
Proof.
  intros H0 (Ki & Kd & Kb). split; [apply length_insert|].
  intros i x Hx. destruct (decide (r = i)) as [->|Hne].
  - exists (IsPlayer p1). split.
    + apply list_lookup_insert_eq. eapply lookup_lt_Some; eauto.
    + assert (x = IsPlayer p0) by congruence. subst x.
      unfold sameShape. simpl. auto 10.
  - exists x. rewrite list_lookup_insert_ne by assumption.
    split; [assumption | apply sameShape_refl].
Qed.

Lemma resolve_sameShapes opt ph clock k r st :
  sameShapes (objects st.1) (objects (resolve opt ph clock k r st).1).
Proof.
  destruct (objects st.1 !! r) as [[p0|o]|] eqn:E.
  - destruct (resolve_unfold opt ph clock k r st p0 E) as (-> & _).
    eapply sameShapes_insert_player; [eassumption | apply keepsShape_step].
  - rewrite resolve_skip by congruence. apply sameShapes_refl.
  - rewrite resolve_skip by congruence. apply sameShapes_refl.
Qed.

Lemma resolveAll_sameShapes opt ph clock rs : forall k st,
  sameShapes (objects st.1) (objects (resolveAll opt ph clock k rs st).1).
Proof.
  induction rs as [|r rs IH]; intros k st; simpl; [apply sameShapes_refl|].
  eapply sameShapes_trans; [apply resolve_sameShapes | apply IH].
Qed.

Lemma overlaps_sameShape ph body pid x y d :
  sameShape x y -> (overlaps ph body pid x d <-> overlaps ph body pid y d).
Proof.
  intros (Hi & Hd & Hb & Hk & _). rewrite !overlaps_iff.
  rewrite Hi, Hd, Hb, Hk. reflexivity.
Qed.

Lemma strike_damage objs r c t a s :
  Damage t a s ∈ strike objs r c -> c = Some t /\ a = 24%Z /\ s = r.
Proof.
  unfold strike. destruct c as [t0|]; [|intros H; inversion H].
  intros H. apply elem_of_cons in H as [H|H].
  - inversion H. auto.
  - destruct (objs !! t0) as [x|]; [destruct (isDoorObstacle x)|].
    + apply list_elem_of_singleton in H. discriminate H.
    + inversion H.
    + inversion H.
Qed.

Lemma playerStep_damage opt ph tc ts objs r p t a s :
  Damage t a s ∈ (playerStep opt ph tc ts objs r p).1.2 ->
  s = r /\ a = 24%Z /\
  exists x d,
    objs !! t = Some x /\ overlaps ph (probe ph r) (Player.id p) x d /\
    (-1 < d)%Q /\
    forall j y e, objs !! j = Some y ->
      overlaps ph (probe ph r) (Player.id p) y e -> (e <= d)%Q.
Proof.
  destruct (playerStep_cases opt ph tc ts objs r p)
    as (_ & [(_ & _ & _ & ->)|(_ & _ & ->)]); [|intros H; inversion H].
  intros H. apply strike_damage in H as (Hc & -> & ->).
  split; [reflexivity|]. split; [reflexivity|].
  destruct (scan_spec ph (probe ph r) (Player.id p) objs 0 (-1)%Q None)
    as [(Hs & _)|(t' & x & d & Ht & Hx & Hs & Hm & Hle & _)];
    rewrite Hs in Hc; simpl in Hc; [discriminate|].
  inversion Hc; subst. exists x, d. auto.
Qed.

Lemma resolveAll_damage_at opt ph clock rs : forall k st t a s,
  Damage t a s ∈ (resolveAll opt ph clock k rs st).2 ->
  Damage t a s ∈ st.2 \/
  exists l1 l2,
    rs = l1 ++ s :: l2 /\
    meleeHit ph (objects (resolveAll opt ph clock k l1 st).1) t a s.
Proof.
  induction rs as [|r rs IH]; intros k st t a s Hin; simpl in Hin; [auto|].
  apply IH in Hin as [Hin|(l1 & l2 & -> & Hhit)].
  - destruct (objects st.1 !! r) as [[p0|o]|] eqn:E.
    2,3: rewrite resolve_skip in Hin by congruence; auto.
    destruct (resolve_unfold opt ph clock k r st p0 E) as (_ & He & _).
    cbv zeta in He. rewrite He in Hin.
    apply elem_of_app in Hin as [Hin|Hin]; [auto|].
    apply playerStep_damage in Hin as (-> & -> & x & d & Ht & Hov & Hd & Hmax).
    right. exists [], rs. split; [reflexivity|]. simpl.
    split; [reflexivity|]. exists p0, x, d. auto.
  - right. exists (r :: l1), l2. split; [reflexivity|]. exact Hhit.
Qed.

Lemma broadcastAll_damage_elem rs t a s : forall st,
  Damage t a s ∈ (broadcastAll rs st).2 -> Damage t a s ∈ st.2.
Proof.
  induction rs as [|r rs IH]; intros st H; simpl in H; [assumption|].
  apply IH in H.
  destruct (objects st.1 !! r) as [[p0|o]|] eqn:E.
  2,3: rewrite broadcast_skip in H by congruence; assumption.
  rewrite (broadcast_unfold r st p0 E) in H. simpl in H.
  apply elem_of_app in H as [H|H]; [assumption|].
  exfalso. unfold emit in H.
  apply elem_of_cons in H as [H|H]; [discriminate H|].
  apply elem_of_app in H as [H|H].
  - destruct (aliveCountDirty st.1); [|inversion H].
    apply list_elem_of_singleton in H. discriminate H.
  - apply list_elem_of_fmap in H as (y & Hy & _). discriminate Hy.
Qed.

(** X14.  Every [damage] call a tick logs is a melee hit: it deals 24
    points and its attacker is an entry of [activePlayers].  In the registry
    as the attacker's visit finds it (after the visits of the players
    before it in [activePlayers]), the target is an entry with a body, not
    dead, not carrying the attacker's identity, a player or an obstacle
    flagged destructible, which the attacker's probe overlaps deeper than
    -1 and at least as deep as every other such entry.  The tick damages
    nothing else; an overlap reported with a depth of -1 or less is never a
    hit. *)
Theorem tick_damage_is_melee_hit opt ph clock g t a s :
  Damage t a s ∈ (tick opt ph clock g).2 ->
  exists l1 l2,
    activePlayers g = l1 ++ s :: l2 /\
    meleeHit ph (objects (resolveAll opt ph clock 0 l1 (g, [])).1) t a s.
Proof.
  intros H. unfold tick, broadcastPass, resolverPass in H. simpl in H.
  apply broadcastAll_damage_elem in H.
  apply resolveAll_damage_at in H as [H|H]; [inversion H | exact H].
Qed.

Lemma tick_damage_is_melee_hit_witness :
  Damage 1 24 2 ∈ (tick Demo.opt Demo.brawl Demo.clock0 Demo.arena).2 /\
  exists l1 l2,
    activePlayers Demo.arena = l1 ++ 2 :: l2 /\
    meleeHit Demo.brawl
      (objects (resolveAll Demo.opt Demo.brawl Demo.clock0 0 l1 (Demo.arena, [])).1)
      1 24 2.
Proof.
  assert (H : Damage 1 24 2 ∈ (tick Demo.opt Demo.brawl Demo.clock0 Demo.arena).2).
  { vm_compute. apply list_elem_of_here. }
  split; [exact H|].
  exact (tick_damage_is_melee_hit Demo.opt Demo.brawl Demo.clock0 Demo.arena
           1 24%Z 2 H).
Defined.

Lemma tick_visit_once_log opt ph clock g r p l1 l2 :
  activePlayers g = l1 ++ r :: l2 -> r ∉ l1 -> r ∉ l2 ->
  objects g !! r = Some (IsPlayer p) ->
  exists objs p',
    sameShapes (objects g) objs /\
    objects (tick opt ph clock g).1 !! r = Some (IsPlayer p') /\
    sameCombat
      (playerStep opt ph (clock (length l1)).1 (clock (length l1)).2 objs r p).1.1
      p' /\
    damageBy r (tick opt ph clock g).2 =
    damageBy r
      (playerStep opt ph (clock (length l1)).1 (clock (length l1)).2 objs r p).1.2.
Proof.
  intros Hl Hn1 Hn2 Hp.
  unfold tick, broadcastPass, resolverPass. simpl. rewrite Hl.
  rewrite resolveAll_app. simpl.
  destruct (resolveAll_other opt ph clock l1 r 0 (g, []) Hn1) as (Ho1 & Hd1).
  pose proof (resolveAll_sameShapes opt ph clock l1 0 (g, [])) as Hsh.
  set (st1 := resolveAll opt ph clock 0 l1 (g, [])) in *.
  assert (Hp1 : objects st1.1 !! r = Some (IsPlayer p)).
  { rewrite Ho1. exact Hp. }
  destruct (resolve_unfold opt ph clock (length l1) r st1 p Hp1) as (Ho & He & _).
  set (st2 := resolve opt ph clock (length l1) r st1) in *.
  destruct (resolveAll_other opt ph clock l2 r (S (length l1)) st2 Hn2)
    as (Ho2 & Hd2).
  set (st3 := resolveAll opt ph clock (S (length l1)) l2 st2) in *.
  cbv zeta in *.
  set (res := playerStep opt ph (clock (length l1)).1 (clock (length l1)).2
                (objects st1.1) r p) in *.
  assert (Hp3 : objects st3.1 !! r = Some (IsPlayer res.1.1)).
  { rewrite Ho2, Ho. apply list_lookup_insert_eq. eapply lookup_lt_Some; eauto. }
  destruct (broadcastAll_combat (connectedPlayers st3.1) st3 r res.1.1 Hp3)
    as (p' & Hp' & Hsame).
  exists (objects st1.1), p'.
  split; [exact Hsh|]. split; [exact Hp'|]. split; [exact Hsame|].
  rewrite broadcastAll_damage, Hd2, He, damageBy_app, Hd1. reflexivity.
Qed.

(** X15.  A punch that hits nothing still counts as an attack.  For a
    player held once by [activePlayers] whose shooting flag is up and whose
    cooldown has elapsed at its visit, with no candidate overlapping its
    probe: the tick logs no [damage] call for it, lowers the flag, stores
    the clock read at the visit as the new cooldown stamp, and starts the
    animation if it was idle (active, type 1, sequence 1, one elapsed
    tick). *)
Theorem tick_missed_attack opt ph clock g r p l1 l2 :
  activePlayers g = l1 ++ r :: l2 -> r ∉ l1 -> r ∉ l2 ->
  objects g !! r = Some (IsPlayer p) ->
  Player.shootStart p = true ->
  (250 <= (clock (length l1)).1 - Player.meleeCooldown p)%Z ->
  (forall j y e, objects g !! j = Some y ->
     ~ overlaps ph (probe ph r) (Player.id p) y e) ->
  exists p',
    objects (tick opt ph clock g).1 !! r = Some (IsPlayer p') /\
    damageBy r (tick opt ph clock g).2 = 0 /\
    Player.shootStart p' = false /\
    Player.meleeCooldown p' = (clock (length l1)).2 /\
    (Player.animActive p = false ->
       Player.animActive p' = true /\ Player.animType p' = 1 /\
       Player.animSeq p' = 1 /\ Player.animTime p' = 1).
Proof.
  intros Hl Hn1 Hn2 Hp Hs Hcd Hnone.
  destruct (tick_visit_once_log opt ph clock g r p l1 l2 Hl Hn1 Hn2 Hp)
    as (objs & p' & Hsh & Hp' & (E1 & E2 & E3 & E4 & E5 & E6) & Hd).
  destruct (playerStep_cases opt ph (clock (length l1)).1 (clock (length l1)).2
              objs r p) as (Hdown & Hcase).
  destruct (playerStep_anim opt ph (clock (length l1)).1 (clock (length l1)).2
              objs r p) as (_ & _ & Hstart & _).
  cbv zeta in *.
  exists p'. split; [exact Hp'|].
  destruct Hcase as [(_ & _ & Hst & Hev)|([Hf|Hlt] & _)]; [|congruence|lia].
  split; [|split; [congruence|split; [congruence|]]].
  - rewrite Hd, Hev, damageBy_strike.
    destruct (scan_spec ph (probe ph r) (Player.id p) objs 0 (-1)%Q None)
      as [(-> & _)|(t & x & d & Ht & Hx & _)]; [reflexivity|].
    exfalso. destruct (sameShapes_inv _ _ _ _ Hsh Ht) as (x0 & Hx0 & S0).
    apply (Hnone t x0 d Hx0).
    apply (overlaps_sameShape _ _ _ _ _ _ S0). assumption.
  - intros Ha. destruct (Hstart Ha Hs Hcd) as (T1 & T2 & T3 & T4).
    repeat split; congruence.
Qed.

Lemma tick_missed_attack_witness :
  exists p',
    objects (tick Demo.opt Demo.apart Demo.clock0 Demo.arena).1 !! 2
      = Some (IsPlayer p') /\
    damageBy 2 (tick Demo.opt Demo.apart Demo.clock0 Demo.arena).2 = 0 /\
    Player.meleeCooldown p' = 1000%Z /\ Player.animActive p' = true.
Proof.
  destruct (tick_missed_attack Demo.opt Demo.apart Demo.clock0 Demo.arena 2
              Demo.alice [] [3]) as (p' & Hp' & Hd & _ & Hc & Ha).
  - reflexivity.
  - apply not_elem_of_nil.
  - intros H. apply list_elem_of_singleton in H. discriminate H.
  - reflexivity.
  - reflexivity.
  - vm_compute. discriminate.
  - intros j y e _ Hov. apply overlaps_iff in Hov as (b & _ & _ & _ & _ & Hc).
    discriminate Hc.
  - exists p'. split; [exact Hp'|]. split; [exact Hd|]. split; [exact Hc|].
    apply Ha. reflexivity.
Defined.

(** *** What the broadcast pass appends *)

Lemma pushVisible_filter visible dirty : forall buffer,
  pushVisible visible dirty buffer
  = buffer ++ filter (fun i => i ∈ visible) dirty.
Proof.
  induction dirty as [|i dirty IH]; intros buffer; simpl.
  - rewrite app_nil_r. reflexivity.
  - rewrite IH. destruct (bool_decide (i ∈ visible)) eqn:E.
    + apply bool_decide_eq_true in E.
      rewrite filter_cons_True by assumption. rewrite <- app_assoc. reflexivity.
    + apply bool_decide_eq_false in E.
      rewrite filter_cons_False by assumption. reflexivity.
Qed.

Lemma finalize_buffers g p :
  Player.fullObjects (finalize g p)
  = Player.fullObjects p
    ++ filter (fun i => i ∈ Player.visibleObjects p) (fullDirtyObjects g) /\
  Player.partialObjects (finalize g p)
  = Player.partialObjects p
    ++ filter (fun i => i ∈ Player.visibleObjects p) (partialDirtyObjects g).
Proof.
  unfold finalize. rewrite !pushVisible_filter.
  destruct (fullDirtyObjects g) as [|f fs] eqn:EF,
           (partialDirtyObjects g) as [|q qs] eqn:EP;
    destruct (isEmpty (emotes g)), (isEmpty (explosions g)); simpl;
    rewrite ?filter_nil, ?app_nil_r; split; reflexivity.
Qed.

(** X16.  For a player held once by [connectedPlayers] the broadcast pass
    appends to [fullObjects] exactly the identities of the session's
    full-dirty list that are in the player's visibility set, in the order
    of that list and as often as they occur there, and likewise to
    [partialObjects] from the partial-dirty list; nothing is removed from
    either buffer. *)
Theorem broadcast_appends_visible_dirty g log r p l1 l2 :
  connectedPlayers g = l1 ++ r :: l2 -> r ∉ l1 -> r ∉ l2 ->
  objects g !! r = Some (IsPlayer p) ->
  exists p',
    objects (broadcastPass (g, log)).1 !! r = Some (IsPlayer p') /\
    Player.fullObjects p'
    = Player.fullObjects p
      ++ filter (fun i => i ∈ Player.visibleObjects p) (fullDirtyObjects g) /\
    Player.partialObjects p'
    = Player.partialObjects p
      ++ filter (fun i => i ∈ Player.visibleObjects p) (partialDirtyObjects g).
Proof.
  intros Hl Hn1 Hn2 Hp. unfold broadcastPass. simpl. rewrite Hl.
  destruct (broadcastAll_visit_once l1 l2 r (g, log) p Hn1 Hn2 Hp)
    as (_ & HF & HP & Ho & _). cbv zeta in *. simpl in HF, HP.
  eexists. split; [exact Ho|].
  destruct (finalize_buffers (broadcastAll l1 (g, log)).1 p) as (-> & ->).
  rewrite HF, HP. auto.
Qed.

Lemma broadcast_appends_visible_dirty_witness :
  exists p',
    objects (broadcastPass
               ((resolverPass Demo.opt Demo.brawl Demo.clock0 Demo.arena).1,
                (resolverPass Demo.opt Demo.brawl Demo.clock0 Demo.arena).2)).1
      !! 3 = Some (IsPlayer p') /\
    Player.fullObjects p' = [2] /\ Player.partialObjects p' = [3].
Proof.
  destruct (broadcast_appends_visible_dirty
              (resolverPass Demo.opt Demo.brawl Demo.clock0 Demo.arena).1
              (resolverPass Demo.opt Demo.brawl Demo.clock0 Demo.arena).2
              3 Demo.bob_resolved [2] [])
    as (p' & Hp' & HF & HP).
  - reflexivity.
  - intros H. apply list_elem_of_singleton in H. discriminate H.
  - apply not_elem_of_nil.
  - vm_compute. reflexivity.
  - exists p'. split; [exact Hp'|]. rewrite HF, HP.
    split; vm_compute; reflexivity.
Defined.

(** *** Lifecycle calls and the next tick *)





(** *** Full or partial *)

Lemma playerStep_full opt ph tc ts objs r p :
  (playerStep opt ph tc ts objs r p).2 = Player.animActive p || fires tc p.
Proof.
  unfold playerStep, fires, animate, attack, movement, setVelocity.
  destruct p as [i d b dir q up dn lf rt mv v ss mc aa aty asq atm vis fo po
                 sk ed em xd ex].
  destruct up, dn, lf, rt; simpl; destruct ss; simpl;
    try destruct (250 <=? tc - mc)%Z; simpl; destruct aa; reflexivity.
Qed.

Lemma resolveAll_dirty_grow opt ph clock rs k st :
  exists a b,
    fullDirtyObjects (resolveAll opt ph clock k rs st).1
      = fullDirtyObjects st.1 ++ a /\
    partialDirtyObjects (resolveAll opt ph clock k rs st).1
      = partialDirtyObjects st.1 ++ b.
Proof.
  destruct (resolveAll_dirty_perm opt ph clock rs k st) as (a & b & Ha & Hb & _).
  eauto.
Qed.

(** X18.  The first loop files each active player under one of the two
    session lists according to its animation: a player held once by
    [activePlayers] whose animation is active, or whose attack resolves in
    this tick, has its identity in [fullDirtyObjects] when the broadcast
    pass starts; any other such player has it in [partialDirtyObjects],
    whether or not it moved.  Combat is resolved before the lists are
    read. *)
Theorem resolver_files_player opt ph clock g r p l1 l2 :
  activePlayers g = l1 ++ r :: l2 -> r ∉ l1 -> r ∉ l2 ->
  objects g !! r = Some (IsPlayer p) ->
  let st := resolverPass opt ph clock g in
  (Player.animActive p || fires (clock (length l1)).1 p = true ->
     Player.id p ∈ fullDirtyObjects st.1) /\
  (Player.animActive p || fires (clock (length l1)).1 p = false ->
     Player.id p ∈ partialDirtyObjects st.1).
Proof.
  intros Hl Hn1 Hn2 Hp. cbv zeta. unfold resolverPass. rewrite Hl.
  rewrite resolveAll_app. simpl.
  destruct (resolveAll_other opt ph clock l1 r 0 (g, []) Hn1) as (Ho1 & _).
  set (st1 := resolveAll opt ph clock 0 l1 (g, [])) in *.
  assert (Hp1 : objects st1.1 !! r = Some (IsPlayer p)).
  { rewrite Ho1. exact Hp. }
  destruct (resolve_unfold opt ph clock (length l1) r st1 p Hp1)
    as (_ & _ & _ & _ & HF & HP). cbv zeta in *.
  rewrite playerStep_full in HF, HP.
  destruct (resolveAll_dirty_grow opt ph clock l2 (S (length l1))
              (resolve opt ph clock (length l1) r st1)) as (a & b & -> & ->).
  rewrite HF, HP.
  split; intros ->; rewrite !elem_of_app, list_elem_of_singleton; auto.
Qed.

Lemma resolver_files_player_witness :
  2 ∈ fullDirtyObjects (resolverPass Demo.opt Demo.brawl Demo.clock0 Demo.arena).1
  /\ 3 ∈ partialDirtyObjects
           (resolverPass Demo.opt Demo.brawl Demo.clock0 Demo.arena).1.
Proof.
  split.
  - apply (resolver_files_player Demo.opt Demo.brawl Demo.clock0 Demo.arena 2
             Demo.alice [] [3]).
    + reflexivity.
    + apply not_elem_of_nil.
    + intros H. apply list_elem_of_singleton in H. discriminate H.
    + reflexivity.
    + reflexivity.
  - apply (resolver_files_player Demo.opt Demo.brawl Demo.clock0 Demo.arena 3
             Demo.bob [2] []).
    + reflexivity.
    + intros H. apply list_elem_of_singleton in H. discriminate H.
    + apply not_elem_of_nil.
    + reflexivity.
    + reflexivity.
Defined.

(** *** The scan and the rest of the log *)

Lemma scanView_reads x y :
  scanView y = scanView x ->
  objId y = objId x /\ objDead y = objDead x /\ objBody y = objBody x /\
  damageable y = damageable x.
Proof.
  destruct x as [p|o], y as [p'|o']; simpl; intros H; inversion H; auto.
Qed.

(** X19.  The scan looks at nothing but the class of a registry entry, its
    identity, its [dead] flag and its body, and for an obstacle its
    [destructible] flag: on two registries that agree on these, entry by
    entry, it returns the same depth and the same target from any starting
    depth and target.  No other field of a player (position flags,
    cooldown, animation, buffers) and no other field of an obstacle (the
    door flag) has any influence on who is hit. *)
Theorem scan_reads_view_only ph body pid objs : forall objs' i m c,
  scanView <$> objs' = scanView <$> objs ->
  scan ph body pid i objs' m c = scan ph body pid i objs m c.
Proof.
  induction objs as [|x xs IH]; intros objs' i m c Hv.
  - destruct objs' as [|y ys]; [reflexivity | discriminate Hv].
  - destruct objs' as [|y ys]; [discriminate Hv|].
    rewrite !fmap_cons in Hv. injection Hv as Hxy Hrest.
    apply scanView_reads in Hxy as (Hi & Hd & Hb & Hk).
    simpl. rewrite Hi, Hd, Hb, Hk.
    destruct (objBody x) as [b|]; [|apply IH; assumption].
    destruct (objDead x || (objId x =? pid)); [apply IH; assumption|].
    destruct (damageable x); [|apply IH; assumption].
    destruct (collides ph body b) as [d|]; [|apply IH; assumption].
    destruct (Qgtb d m); apply IH; assumption.
Qed.

(** The registry after a tick of the brawl differs from the one before in
    the records of both players; the scan of Alice's probe gives the same
    answer on both. *)
Lemma scan_reads_view_only_witness :
  objects (tick Demo.opt Demo.brawl Demo.clock0 Demo.arena).1
    <> objects Demo.arena /\
  scan Demo.brawl 102 2 0
    (objects (tick Demo.opt Demo.brawl Demo.clock0 Demo.arena).1) (-1) None
  = scan Demo.brawl 102 2 0 (objects Demo.arena) (-1) None.
Proof.
  split; [vm_compute; discriminate|].
  apply (scan_reads_view_only Demo.brawl 102 2 (objects Demo.arena)).
  vm_compute. reflexivity.
Defined.

Lemma strike_combat objs r c : forallb isCombat (strike objs r c) = true.
Proof.
  unfold strike. destruct c as [t|]; [|reflexivity]. simpl.
  destruct (objs !! t) as [x|]; [destruct (isDoorObstacle x)|]; reflexivity.
Qed.

Lemma playerStep_combat opt ph tc ts objs r p :
  forallb isCombat (playerStep opt ph tc ts objs r p).1.2 = true.
Proof.
  destruct (playerStep_cases opt ph tc ts objs r p)
    as (_ & [(_ & _ & _ & ->)|(_ & _ & ->)]); [|reflexivity].
  apply strike_combat.
Qed.

Lemma resolveAll_log_combat opt ph clock rs : forall k st,
  exists fights,
    (resolveAll opt ph clock k rs st).2 = st.2 ++ fights /\
    forallb isCombat fights = true.
Proof.
  induction rs as [|r rs IH]; intros k st; simpl.
  - exists []. rewrite app_nil_r. auto.
  - destruct (IH (S k) (resolve opt ph clock k r st)) as (f & -> & Hf).
    destruct (objects st.1 !! r) as [[p0|o]|] eqn:E.
    + destruct (resolve_unfold opt ph clock k r st p0 E) as (_ & -> & _).
      eexists. rewrite <- app_assoc. split; [reflexivity|].
      rewrite forallb_app, playerStep_combat, Hf. reflexivity.
    + rewrite resolve_skip by congruence. eauto.
    + rewrite resolve_skip by congruence. eauto.
Qed.

Lemma emit_packets g r p : forallb isPacket (emit g r p) = true.
Proof.
  unfold emit. simpl. rewrite forallb_app.
  assert (H : forallb isPacket ((fun k => SendPacket r (Kill k)) <$> kills g) = true).
  { induction (kills g) as [|k ks IH]; [reflexivity | exact IH]. }
  rewrite H. destruct (aliveCountDirty g); reflexivity.
Qed.

Lemma broadcastAll_log_packets rs : forall st,
  exists sends,
    (broadcastAll rs st).2 = st.2 ++ sends /\
    forallb isPacket sends = true.
Proof.
  induction rs as [|r rs IH]; intros st; simpl.
  - exists []. rewrite app_nil_r. auto.
  - destruct (IH (broadcast r st)) as (s & -> & Hs).
    destruct (objects st.1 !! r) as [[p0|o]|] eqn:E.
    + rewrite (broadcast_unfold r st p0 E). simpl.
      eexists. rewrite <- app_assoc. split; [reflexivity|].
      rewrite forallb_app, emit_packets, Hs. reflexivity.
    + rewrite broadcast_skip by congruence. eauto.
    + rewrite broadcast_skip by congruence. eauto.
Qed.

Lemma tick_log_split opt ph clock g :
  exists fights sends,
    (tick opt ph clock g).2 = fights ++ sends /\
    (resolverPass opt ph clock g).2 = fights /\
    forallb isCombat fights = true /\
    forallb isPacket sends = true.
Proof.
  unfold tick, broadcastPass, resolverPass. simpl.
  destruct (resolveAll_log_combat opt ph clock (activePlayers g) 0 (g, []))
    as (f & Hf & Hcf).
  destruct (broadcastAll_log_packets
              (connectedPlayers (resolveAll opt ph clock 0 (activePlayers g) (g, [])).1)
              (resolveAll opt ph clock 0 (activePlayers g) (g, [])))
    as (s & Hs & Hps).
  exists f, s. rewrite Hs, Hf. simpl. auto.
Qed.

Lemma combat_sends_nothing r l : forallb isCombat l = true -> sendsTo r l = [].
Proof.
  induction l as [|e l IH]; simpl; [reflexivity|].
  intros H. apply andb_true_iff in H as (He & Hl).
  destruct e; try discriminate He; auto.
Qed.

Lemma packets_damage_nothing r l : forallb isPacket l = true -> damageBy r l = 0.
Proof.
  induction l as [|e l IH]; simpl; [reflexivity|].
  intros H. apply andb_true_iff in H as (He & Hl).
  destruct e; try discriminate He. simpl. auto.
Qed.

Lemma forallb_lookup {A} (f : A -> bool) (l : list A) : forall i e,
  forallb f l = true -> l !! i = Some e -> f e = true.
Proof.
  induction l as [|x l IH]; intros i e H Hi; [discriminate Hi|].
  simpl in H. apply andb_true_iff in H as (Hx & Hl).
  destruct i as [|i]; simpl in Hi; [congruence | eauto].
Qed.

(** X20.  Of the calls the log records, the first loop makes only [damage]
    and [interact] calls and the second loop only [sendPacket] calls: the
    log of a tick is the log of the first loop followed by the packets of
    the second.  Hence every [damage] and [interact] call of a tick comes
    before every packet of that tick, the damage a player deals is all in
    the first part and the packets a player receives are all in the
    second. *)
Theorem tick_log_combat_then_packets opt ph clock g :
  exists fights sends,
    (tick opt ph clock g).2 = fights ++ sends /\
    (resolverPass opt ph clock g).2 = fights /\
    forallb isCombat fights = true /\
    forallb isPacket sends = true /\
    (forall i j e e',
       (tick opt ph clock g).2 !! i = Some e ->
       (tick opt ph clock g).2 !! j = Some e' ->
       isPacket e = true -> isCombat e' = true -> j < i) /\
    (forall r, damageBy r (tick opt ph clock g).2 = damageBy r fights) /\
    (forall r, sendsTo r (tick opt ph clock g).2 = sendsTo r sends).
Proof.
  destruct (tick_log_split opt ph clock g) as (f & s & Hlog & Hf & Hcf & Hps).
  exists f, s. split; [exact Hlog|]. split; [exact Hf|].
  split; [exact Hcf|]. split; [exact Hps|]. split; [|split; intros r; rewrite Hlog].
  - rewrite Hlog. intros i j e e' Hi Hj He He'.
    assert (Hige : length f <= i).
    { destruct (Nat.le_gt_cases (length f) i) as [H|H]; [exact H|].
      rewrite lookup_app_l in Hi by exact H.
      pose proof (forallb_lookup _ _ _ _ Hcf Hi) as Hc.
      destruct e; discriminate. }
    assert (Hjlt : j < length f).
    { destruct (Nat.le_gt_cases (length f) j) as [H|H]; [|exact H].
      rewrite lookup_app_r in Hj by exact H.
      pose proof (forallb_lookup _ _ _ _ Hps Hj) as Hc.
      destruct e'; discriminate. }
    lia.
  - rewrite damageBy_app, (packets_damage_nothing r s Hps). lia.
  - rewrite sendsTo_app, (combat_sends_nothing r f Hcf). reflexivity.
Qed.

(** In the brawl Alice's punch on the door, a [damage] and an [interact]
    call, comes before the two update packets. *)
Lemma tick_log_combat_then_packets_witness :
  (tick Demo.opt Demo.brawl Demo.clock0 Demo.arena).2
  = [Damage 1 24 2; Interact 1 2;
     SendPacket 2 (UpdatePacket [2] [3]); SendPacket 3 (UpdatePacket [2] [3])]
  /\ 1 < 2.
Proof.
  split; [vm_compute; reflexivity|].
  destruct (tick_log_combat_then_packets Demo.opt Demo.brawl Demo.clock0
              Demo.arena) as (f & s & _ & _ & _ & _ & Hord & _).
  apply (Hord 2 1 (SendPacket 2 (UpdatePacket [2] [3])) (Interact 1 2));
    reflexivity.
Defined.

Lemma strike_interact objs r c t s :
  Interact t s ∈ strike objs r c ->
  s = r /\ c = Some t /\
  exists x, objs !! t = Some x /\ isDoorObstacle x = true.
Proof.
  unfold strike. destruct c as [t0|]; [|intros H; inversion H].
  intros H. apply elem_of_cons in H as [H|H]; [discriminate H|].
  destruct (objs !! t0) as [x|] eqn:E; [|inversion H].
  destruct (isDoorObstacle x) eqn:Ed; [|inversion H].
  apply list_elem_of_singleton in H. inversion H; subst. eauto.
Qed.

Lemma resolveAll_interact_events opt ph clock g0 rs : forall k st,
  sameShapes (objects g0) (objects st.1) ->
  (forall t s, Interact t s ∈ st.2 ->
     Damage t 24 s ∈ st.2 /\
     exists o, objects g0 !! t = Some (IsObstacle o) /\ Obstacle.isDoor o = true) ->
  forall t s, Interact t s ∈ (resolveAll opt ph clock k rs st).2 ->
    Damage t 24 s ∈ (resolveAll opt ph clock k rs st).2 /\
    exists o, objects g0 !! t = Some (IsObstacle o) /\ Obstacle.isDoor o = true.
Proof.
  induction rs as [|r rs IH]; intros k st Hsh Hlog; simpl; [assumption|].
  apply IH.
  - eapply sameShapes_trans; [eassumption | apply resolve_sameShapes].
  - intros t s Hin.
    destruct (objects st.1 !! r) as [[p0|o]|] eqn:E.
    2,3: rewrite resolve_skip in * by congruence; auto.
    destruct (resolve_unfold opt ph clock k r st p0 E) as (_ & He & _).
    cbv zeta in He. rewrite He in *.
    apply elem_of_app in Hin as [Hin|Hin].
    + destruct (Hlog t s Hin) as (Hd & Ho). split; [|assumption].
      apply elem_of_app. auto.
    + destruct (playerStep_cases opt ph (clock k).1 (clock k).2 (objects st.1) r p0)
        as (_ & [(_ & _ & _ & Hev)|(_ & _ & Hev)]); rewrite Hev in *;
        [|inversion Hin].
      apply strike_interact in Hin as (-> & Hc & x & Hx & Hdoor).
      split.
      * apply elem_of_app. right. rewrite Hc. apply list_elem_of_here.
      * destruct (sameShapes_inv _ _ _ _ Hsh Hx) as (x0 & Hx0 & S0).
        destruct S0 as (_ & _ & _ & _ & Hdo & Hk).
        destruct x0 as [p'|o]; destruct x as [q|o']; simpl in *;
          try contradiction; try discriminate.
        subst o'. eauto.
Qed.

(** X21.  [interact] is called by a tick only on an obstacle that is a
    door, and only by a player whose [damage] call on that same door is in
    the log of the same tick; no player is ever interacted with. *)
Theorem tick_interact_only_doors opt ph clock g t s :
  Interact t s ∈ (tick opt ph clock g).2 ->
  Damage t 24 s ∈ (tick opt ph clock g).2 /\
  exists o, objects g !! t = Some (IsObstacle o) /\ Obstacle.isDoor o = true.
Proof.
  intros H.
  destruct (tick_log_split opt ph clock g)
    as (f & sd & Hlog & Hf & _ & Hps).
  rewrite Hlog in *.
  assert (Hin : Interact t s ∈ f).
  { apply elem_of_app in H as [H|H]; [assumption|].
    exfalso. rewrite forallb_forall in Hps.
    apply list_elem_of_In in H. specialize (Hps _ H). discriminate Hps. }
  rewrite <- Hf in Hin. unfold resolverPass in Hin.
  destruct (resolveAll_interact_events opt ph clock g (activePlayers g) 0 (g, [])
              (sameShapes_refl _)) with (t := t) (s := s) as (Hd & Ho).
  - intros t0 s0 H0. inversion H0.
  - exact Hin.
  - split; [|exact Ho]. apply elem_of_app. left.
    rewrite <- Hf. exact Hd.
Qed.

Lemma tick_interact_only_doors_witness :
  Interact 1 2 ∈ (tick Demo.opt Demo.brawl Demo.clock0 Demo.arena).2 /\
  exists o, objects Demo.arena !! 1 = Some (IsObstacle o) /\
            Obstacle.isDoor o = true.
Proof.
  assert (H : Interact 1 2 ∈ (tick Demo.opt Demo.brawl Demo.clock0 Demo.arena).2).
  { vm_compute. apply list_elem_of_further, list_elem_of_here. }
  split; [exact H|].
  apply (tick_interact_only_doors Demo.opt Demo.brawl Demo.clock0 Demo.arena
           1 2 H).
Defined.
